(** * OpenConfig ACL generator (aerleon/lib/openconfig.py)

    A shallow embedding of [Term.ConvertToDict], [OpenConfig._TranslateTerms]
    and [OpenConfig._TranslatePolicy], and the properties of the expansion
    (cardinality, field placement, persistence of fields across iterations)
    and of the sequencing (sequence identifiers, mixed-family order).

    Python dictionaries are finite maps with string keys ([gmap string]);
    exceptions are values of an error monad; the attributes that the methods
    mutate ([self.term_dict], [rules], [self.total_rule_count],
    [self.acl_sets]) are threaded explicitly.  What the file takes from the
    base classes is a parameter: the tables [AF_MAP] and [PROTO_MAP], the
    order in which the frozenset [_SUPPORTED_AF] is visited, and the
    exception the constructor of the base class raises for a term. *)

From stdpp Require Import gmap strings list fin_maps pretty.
From Stdlib Require Import ZArith.

Local Open Scope string_scope.
Local Open Scope list_scope.
Local Open Scope Z_scope.

(** ** Values stored in the generated dictionaries *)

(** What an acl-entry dictionary holds: an [int], a [str], or a nested
    dictionary.  [RecursiveDict()] instances and plain [{}] literals are both
    [VDict]: they differ only when a missing key is read, and the only reads
    through a plain dictionary ([SetAction]) hit keys stored just before. *)
#[warnings="-register-all"]
Inductive Value : Type :=
| VInt (n : Z)
| VStr (s : string)
| VDict (d : gmap string Value).

Abbreviation Dict := (gmap string Value).

(** ** Exceptions and the error monad *)

Inductive Exception : Type :=
| KeyError (key : string)
| IndexError
| TypeError
| UnboundLocalError (var : string)
| OcFirewallError (msg : string) (arg : string)
| TcpEstablishedWithNonTcpError (msg : string)
| UnsupportedFilterError.

Inductive result (A : Type) : Type :=
| Ok (a : A)
| Raise (e : Exception).
Arguments Ok {A} a.
Arguments Raise {A} e.

#[global] Instance result_ret : MRet result := λ A, Ok.
#[global] Instance result_bind : MBind result := λ A B f r,
  match r with Ok a => f a | Raise e => Raise e end.

(** [for x in xs: body], the loop state threaded through the iterations; an
    exception raised by an iteration leaves the loop. *)
Fixpoint for_each {A S : Type} (xs : list A) (body : A → S → result S)
    (s : S) : result S :=
  match xs with
  | [] => Ok s
  | x :: xs' => s' ← body x s; for_each xs' body s'
  end.

(** ** [RecursiveDict]: nested dictionaries created on first access *)

(** [d[k]] on a [RecursiveDict] that is then subscripted again: a missing key
    is created as an empty [RecursiveDict]; a value that is not a dictionary
    cannot be subscripted. *)
Definition subdict (k : string) (d : Dict) : result Dict :=
  match d !! k with
  | None => Ok ∅
  | Some (VDict s) => Ok s
  | Some _ => Raise TypeError
  end.

(** [d[k1][k2][k3] = v] *)
Definition setitem3 (k1 k2 k3 : string) (v : Value) (d : Dict) : result Dict :=
  d1 ← subdict k1 d;
  d2 ← subdict k2 d1;
  Ok (<[k1 := VDict (<[k2 := VDict (<[k3 := v]> d2)]> d1)]> d).

(** [d[k1][k2].update(upd)]: the keys of [upd] win. *)
Definition update2 (k1 k2 : string) (upd : Dict) (d : Dict) : result Dict :=
  d1 ← subdict k1 d;
  d2 ← subdict k2 d1;
  Ok (<[k1 := VDict (<[k2 := VDict (upd ∪ d2)]> d1)]> d).

(** Reading [d[k1][k2][k3]] without creating anything: [None] when a key on
    the path is missing. *)
Definition as_dict (v : Value) : option Dict :=
  match v with VDict d => Some d | _ => None end.

Definition lookup3 (k1 k2 k3 : string) (d : Dict) : option Value :=
  s1 ← d !! k1; d1 ← as_dict s1; s2 ← d1 !! k2; d2 ← as_dict s2; d2 !! k3.

(** ** The policy object model (input) *)

Module policy.

(** An address object of a flattened address list: the attribute [version]
    and the text [str(addr)]. *)
Record Address : Type := { version : Z; text : string }.

(** An item of [term.protocol]: a [str] or an [int]. *)
Inductive Protocol : Type :=
| ProtoName (s : string)
| ProtoNum (n : Z).

Record Term : Type := {
  name : string;
  action : list string;
  flattened_saddr : list Address;
  flattened_daddr : list Address;
  source_port : list (Z * Z);
  destination_port : list (Z * Z);
  protocol : list Protocol;
  option : list string;
  comment : list string;
}.

(** Modelled from the spec: [policy.Term.GetAddressOfVersion] is not in this
    file; section 3 has the flattened lists "family-tagged" and section 4.1
    step 1 resolves "address lists for the given family": the addresses of
    the list whose version is [af], in order. *)
Definition GetAddressOfVersion (addrs : list Address) (af : Z) : list Address :=
  filter (λ x, version x = af) addrs.

(** A filter header as this generator reads it: [FilterOptions(platform)],
    [FilterName(platform)] and [comment]. *)
Record Header : Type := {
  FilterOptions : list string;
  FilterName : string;
  header_comment : list string;
}.

Record Policy : Type := { filters : list (Header * list Term) }.

End policy.

#[global] Instance Protocol_eq_dec : EqDecision policy.Protocol.
Proof. solve_decision. Defined.

(** ** class Term *)

Definition ACTION_MAP : gmap string string :=
  list_to_map [("accept", "ACCEPT"); ("deny", "DROP"); ("reject", "REJECT")].

Definition AF_RENAME : gmap Z string :=
  list_to_map [(4, "ipv4"); (6, "ipv6")].

Definition _tcp_established : Dict :=
  list_to_map [("detail-mode", VStr "BUILTIN"); ("builtin-detail", VStr "TCP_ESTABLISHED")].

(** ['%d' % n]: the decimal text of an integer. *)
Definition format_d (n : Z) : string := pretty n.

(** The loop state of [ConvertToDict]: the working dictionary
    [self.term_dict], mutated in place, and the list [rules] of the copies
    taken so far. *)
Record ConvertState : Type := {
  term_dict : Dict;
  rules : list Dict;
}.

(** An item of [saddrs] / [daddrs]: the placeholder ['any'] or an address. *)
Inductive AddrItem : Type :=
| Any
| Addr (a : policy.Address).

Definition or_any (addrs : list policy.Address) : list AddrItem :=
  match addrs with [] => [Any] | _ => Addr <$> addrs end.

Definition or_default {A : Type} (xs : list A) (x : A) : list A :=
  match xs with [] => [x] | _ => xs end.

Section Term.

(** The tables of [aclgenerator.Term] that this class inherits; they are
    not part of this file. [AF_MAP] sends a family name to the integer 4
    or 6, [PROTO_MAP] a protocol name to its number. *)
Variable AF_MAP : gmap string Z.
Variable PROTO_MAP : gmap string Z.

Definition SetAction (term : policy.Term) (term_dict : Dict) : result Dict :=
  match policy.action term with
  | [] => Raise IndexError
  | a :: _ =>
      match ACTION_MAP !! a with
      | None => Raise (KeyError a)
      | Some action =>
          let term_dict := <["actions" := VDict ∅]> term_dict in
          actions ← subdict "actions" term_dict;
          let term_dict :=
            <["actions" := VDict (<["config" := VDict ∅]> actions)]> term_dict in
          setitem3 "actions" "config" "forwarding-action" (VStr action) term_dict
      end
  end.

Definition SetOptions (term : policy.Term) (term_dict : Dict) : result Dict :=
  if bool_decide (policy.option term ≠ []) then
    if bool_decide ("tcp-established" ∈ policy.option term) then
      if bool_decide (policy.protocol term ≠ [policy.ProtoName "tcp"]) then
        Raise (TcpEstablishedWithNonTcpError
                 ("tcp-established can only be used with tcp protocol in term "
                    +:+ policy.name term))
      else update2 "transport" "config" _tcp_established term_dict
    else Ok term_dict
  else Ok term_dict.

Definition SetSourceAddress (family saddr : string) : Dict → result Dict :=
  setitem3 family "config" "source-address" (VStr saddr).

Definition SetDestAddress (family daddr : string) : Dict → result Dict :=
  setitem3 family "config" "destination-address" (VStr daddr).

Definition port_value (start end_ : Z) : Value :=
  if bool_decide (start = end_) then VInt start
  else VStr (format_d start +:+ ".." +:+ format_d end_).

Definition SetSourcePorts (start end_ : Z) : Dict → result Dict :=
  setitem3 "transport" "config" "source-port" (port_value start end_).

Definition SetDestPorts (start end_ : Z) : Dict → result Dict :=
  setitem3 "transport" "config" "destination-port" (port_value start end_).

Definition SetProtocol (family : string) (protocol : Z) : Dict → result Dict :=
  setitem3 family "config" "protocol" (VInt protocol).

(** *** The five nested loops of [ConvertToDict], innermost first.  Each
    iteration first writes its field into [self.term_dict] (unless the item
    is the placeholder of its dimension), then runs the loop nested in it. *)

Definition with_term_dict (st : ConvertState) (d : Dict) : ConvertState :=
  {| term_dict := d; rules := rules st |}.

(** [rules.append(copy.deepcopy(self.term_dict))] *)
Definition append_rule (st : ConvertState) : ConvertState :=
  {| term_dict := term_dict st; rules := rules st ++ [term_dict st] |}.

Definition protocol_step (family : string) (proto : policy.Protocol)
    (term_dict : Dict) : result Dict :=
  match proto with
  | policy.ProtoName s =>
      if bool_decide (s ≠ "none") then
        match PROTO_MAP !! s with
        | None => Raise (OcFirewallError "Protocol %s unknown. Use an integer." s)
        | Some proto_num => SetProtocol family proto_num term_dict
        end
      else Ok term_dict
  | policy.ProtoNum n => SetProtocol family n term_dict
  end.

Definition protocol_loop (family : string) (protos : list policy.Protocol)
    : ConvertState → result ConvertState :=
  for_each protos (λ proto st,
    d ← protocol_step family proto (term_dict st);
    Ok (append_rule (with_term_dict st d))).

Definition is_any_port (range : Z * Z) : bool :=
  bool_decide (range.1 = range.2 ∧ range.2 = 0).

Definition dport_step (range : Z * Z) (term_dict : Dict) : result Dict :=
  if negb (is_any_port range) then SetDestPorts range.1 range.2 term_dict
  else Ok term_dict.

Definition dport_loop (family : string) (dports : list (Z * Z))
    (protos : list policy.Protocol) : ConvertState → result ConvertState :=
  for_each dports (λ range st,
    d ← dport_step range (term_dict st);
    protocol_loop family protos (with_term_dict st d)).

Definition sport_step (range : Z * Z) (term_dict : Dict) : result Dict :=
  if negb (is_any_port range) then SetSourcePorts range.1 range.2 term_dict
  else Ok term_dict.

Definition sport_loop (family : string) (sports dports : list (Z * Z))
    (protos : list policy.Protocol) : ConvertState → result ConvertState :=
  for_each sports (λ range st,
    d ← sport_step range (term_dict st);
    dport_loop family dports protos (with_term_dict st d)).

Definition daddr_step (family : string) (daddr : AddrItem)
    (term_dict : Dict) : result Dict :=
  match daddr with
  | Any => Ok term_dict
  | Addr a => SetDestAddress family (policy.text a) term_dict
  end.

Definition daddr_loop (family : string) (daddrs : list AddrItem)
    (sports dports : list (Z * Z)) (protos : list policy.Protocol)
    : ConvertState → result ConvertState :=
  for_each daddrs (λ daddr st,
    d ← daddr_step family daddr (term_dict st);
    sport_loop family sports dports protos (with_term_dict st d)).

Definition saddr_step (family : string) (saddr : AddrItem)
    (term_dict : Dict) : result Dict :=
  match saddr with
  | Any => Ok term_dict
  | Addr a => SetSourceAddress family (policy.text a) term_dict
  end.

Definition saddr_loop (family : string) (saddrs daddrs : list AddrItem)
    (sports dports : list (Z * Z)) (protos : list policy.Protocol)
    : ConvertState → result ConvertState :=
  for_each saddrs (λ saddr st,
    d ← saddr_step family saddr (term_dict st);
    daddr_loop family daddrs sports dports protos (with_term_dict st d)).

(** [family = self.AF_RENAME[term_af]], where [term_af] may be [None]. *)
Definition family_of (term_af : option Z) : result string :=
  match term_af with
  | None => Raise (KeyError "None")
  | Some af =>
      match AF_RENAME !! af with
      | None => Raise (KeyError (format_d af))
      | Some family => Ok family
      end
  end.

(** The lists the loops run over, with the placeholder of each dimension
    substituted for an empty list. *)
Definition saddrs_of (term : policy.Term) (af : Z) : list AddrItem :=
  or_any (policy.GetAddressOfVersion (policy.flattened_saddr term) af).
Definition daddrs_of (term : policy.Term) (af : Z) : list AddrItem :=
  or_any (policy.GetAddressOfVersion (policy.flattened_daddr term) af).
Definition sports_of (term : policy.Term) : list (Z * Z) :=
  or_default (policy.source_port term) (0, 0).
Definition dports_of (term : policy.Term) : list (Z * Z) :=
  or_default (policy.destination_port term) (0, 0).
Definition protos_of (term : policy.Term) : list policy.Protocol :=
  or_default (policy.protocol term) (policy.ProtoName "none").

(** [Term(term, inet_version).ConvertToDict(filter_options)].  [SetName]
    and [SetComments] do nothing, and no setter reads [filter_options]. *)
Definition ConvertToDict (term : policy.Term) (inet_version : string)
    : result (list Dict) :=
  let term_dict : Dict := ∅ in
  let term_af := AF_MAP !! inet_version in
  family ← family_of term_af;
  term_dict ← SetAction term term_dict;
  let af := default 0 term_af in
  term_dict ← SetOptions term term_dict;
  st ← saddr_loop family (saddrs_of term af) (daddrs_of term af)
         (sports_of term) (dports_of term) (protos_of term)
         {| term_dict := term_dict; rules := [] |};
  Ok (rules st).

End Term.

(** ** class OpenConfig *)

Definition FAMILY_MAP : gmap string string :=
  list_to_map [("mixed", "ACL_MIXED"); ("inet6", "ACL_IPV6"); ("inet", "ACL_IPV4")].

(** The dictionary [oc_acl_set]: its keys are fixed, so it is a record.
    [acl_entry] is the list under ["acl-entries"]["acl-entry"], [config_name]
    and [config_type] the two keys under ["config"]. *)
Record ACLSet : Type := {
  acl_entry : list Dict;
  config_name : string;
  config_type : string;
  set_name : string;
  set_type : string;
}.

(** The attributes of the generator object that translation writes. *)
Record OpenConfig : Type := {
  total_rule_count : Z;
  acl_sets : list ACLSet;
}.

(** The state of the loops of [_TranslateTerms]: the object and the local
    list [oc_acl_entries]. *)
Record TermsState : Type := {
  self : OpenConfig;
  oc_acl_entries : list Dict;
}.

(** [list.remove(x)] for an [x] that is in the list: the first occurrence
    goes. *)
Fixpoint list_remove_first (x : string) (l : list string) : list string :=
  match l with
  | [] => []
  | y :: l' => if bool_decide (x = y) then l' else y :: list_remove_first x l'
  end.

Section OpenConfig.

(** [Term.__init__] (lines 102-109) calls the constructor of the base
    class, [aclgenerator.Term.__init__], stores the term and the family,
    and calls [self.term.FlattenAll()].  The two callees are outside this
    file, and they may raise: the exception they raise for a term, [None]
    when they return, is the parameter [base_init].  A [policy.Term] holds
    the attributes as they are once the constructor has returned, the
    address lists flattened. *)
Variable base_init : policy.Term → option Exception.

Variable AF_MAP : gmap string Z.
Variable PROTO_MAP : gmap string Z.

(** [_SUPPORTED_AF] is a frozenset of ['inet'], ['inet6'] and ['mixed'];
    the order in which [for i in self._SUPPORTED_AF] visits it is not fixed
    by the language, so it is a parameter. *)
Variable _SUPPORTED_AF : list string.

(** [for rule in t.ConvertToDict(filter_options)] *)
Definition rule_loop (rules : list Dict) : TermsState → result TermsState :=
  for_each rules (λ rule st,
    let count := total_rule_count (self st) + 1 in
    let rule := <["sequence-id" := VInt (count * 5)]> rule in
    Ok {| self := {| total_rule_count := count; acl_sets := acl_sets (self st) |};
          oc_acl_entries := oc_acl_entries st ++ [rule] |}).

Definition term_address_families (address_family : string) : list string :=
  if bool_decide (address_family = "mixed") then ["inet"; "inet6"]
  else [address_family].

(** [self._TERM(term, term_af)]: the object holds the term and the
    family, unless the constructor raises. *)
Definition _TERM (term : policy.Term) (inet_version : string)
    : result (policy.Term * string) :=
  match base_init term with
  | Some e => Raise e
  | None => Ok (term, inet_version)
  end.

(** [for term in terms], and in it [for term_af in term_address_families]:
    [t = self._TERM(term, term_af)], then the loop over the rules of
    [t.ConvertToDict(filter_options)]. *)
Definition term_loop (terms : list policy.Term) (address_family : string)
    : TermsState → result TermsState :=
  for_each terms (λ term,
    for_each (term_address_families address_family) (λ term_af st,
      t ← _TERM term term_af;
      rules ← ConvertToDict AF_MAP PROTO_MAP t.1 t.2;
      rule_loop rules st)).

Definition _TranslateTerms (self0 : OpenConfig) (terms : list policy.Term)
    (address_family filter_name : string)
    (hdr_comments filter_options : list string) : result OpenConfig :=
  st ← term_loop terms address_family {| self := self0; oc_acl_entries := [] |};
  match FAMILY_MAP !! address_family with
  | None => Raise (KeyError address_family)
  | Some oc_type =>
      let oc_acl_set :=
        {| acl_entry := oc_acl_entries st;
           config_name := filter_name; config_type := oc_type;
           set_name := filter_name; set_type := oc_type |} in
      Ok {| total_rule_count := total_rule_count (self st);
            acl_sets := acl_sets (self st) ++ [oc_acl_set] |}
  end.

(** The loop over [_SUPPORTED_AF]: the address family of the filter and
    the options left once the family tokens are removed. *)
Definition select_family (filter_options : list string) : string * list string :=
  foldl (λ acc i,
           if bool_decide (i ∈ acc.2) then (i, list_remove_first i acc.2) else acc)
        ("inet", filter_options) _SUPPORTED_AF.

(** The loop state of [_TranslatePolicy] is the object and the local
    [filter_name], unbound until the first filter is read. *)
Definition _TranslatePolicy (self0 : OpenConfig) (pol : policy.Policy)
    : result OpenConfig :=
  let self1 := {| total_rule_count := 0; acl_sets := [] |} in
  st ← for_each (policy.filters pol) (λ filter (st : OpenConfig * option string),
         let header := filter.1 in
         let terms := filter.2 in
         let filter_options := policy.FilterOptions header in
         let filter_name := policy.FilterName header in
         let selected := select_family filter_options in
         self2 ← _TranslateTerms st.1 terms selected.1 filter_name
                   (policy.header_comment header) selected.2;
         Ok (self2, Some filter_name))
       (self1, None);
  match st.2 with
  | None => Raise (UnboundLocalError "filter_name")
  | Some _ => Ok st.1
  end.

End OpenConfig.

(** * Vocabulary of the statements *)

(** ** The iterations of the nested loops *)

(** One pass through the innermost loop body: the item of each of the five
    lists at that point. *)
Record Iteration : Type := {
  it_saddr : AddrItem;
  it_daddr : AddrItem;
  it_sport : Z * Z;
  it_dport : Z * Z;
  it_proto : policy.Protocol;
}.

(** The iterations in the order the loops run them. *)
Definition iterations (saddrs daddrs : list AddrItem) (sports dports : list (Z * Z))
    (protos : list policy.Protocol) : list Iteration :=
  saddr ← saddrs; daddr ← daddrs; sport ← sports; dport ← dports; proto ← protos;
  [ {| it_saddr := saddr; it_daddr := daddr; it_sport := sport;
       it_dport := dport; it_proto := proto |} ].

Definition iterations_of (term : policy.Term) (af : Z) : list Iteration :=
  iterations (saddrs_of term af) (daddrs_of term af) (sports_of term)
    (dports_of term) (protos_of term).

(** The size of a dimension: the length of the list, 1 for an empty list. *)
Definition dimension {A : Type} (xs : list A) : nat :=
  match xs with [] => 1%nat | _ => length xs end.

(** ** Fields that stay until they are overwritten *)

(** A write [w] on a field that holds [c]: [None] writes nothing. *)
Definition overwrite {V : Type} (w c : option V) : option V :=
  match w with Some _ => w | None => c end.

(** The content of a field after each of a sequence of writes, from the
    content [c] before the first. *)
Fixpoint carry {V : Type} (c : option V) (ws : list (option V)) : list (option V) :=
  match ws with
  | [] => []
  | w :: ws' => overwrite w c :: carry (overwrite w c) ws'
  end.

Definition carry_last {V : Type} (c : option V) (ws : list (option V)) : option V :=
  foldl (λ c w, overwrite w c) c ws.

(** ** Shapes and traces *)

(** The shape of [self.term_dict]: three levels, the first two of
    dictionaries.  On this shape no subscript meets a value that is not a
    dictionary. *)
Definition is_dict (v : Value) : Prop := ∃ d, v = VDict d.

Definition shape2 (d : Dict) : Prop := map_Forall (λ _ v, is_dict v) d.

Definition shape3 (d : Dict) : Prop :=
  map_Forall (λ _ v, ∃ d1, v = VDict d1 ∧ shape2 d1) d.

(** The loop state on which no setter can fail. *)
Definition well_shaped (st : ConvertState) : Prop := shape3 (term_dict st).

(** Writes that write nothing. *)
Definition quiet {V : Type} (ws : list (option V)) : Prop := Forall (λ w, w = None) ws.

(** A level of the nest that never writes the observed field. *)
Definition silent {A V : Type} (w : A → option V) : Prop := ∀ x, w x = None.

(** A part of the loop nest observed through [look] (the field at a path,
    or the value under a top-level key): the rules it appends show the
    observed field after each of the writes [ws]. *)
Definition traces (look : Dict → option Value)
    (f : ConvertState → result ConvertState) (ws : list (option Value)) : Prop :=
  ∀ st st', f st = Ok st' →
    ∃ new, rules st' = rules st ++ new
           ∧ look <$> new = carry (look (term_dict st)) ws
           ∧ look (term_dict st') = carry_last (look (term_dict st)) ws.

(** The writes of each loop on the observed field, given what each level
    writes by item: an item of a level overwrites the field with its write
    unless a level inside does. *)
Definition protocol_writes (wpr : policy.Protocol → option Value)
    (protos : list policy.Protocol) : list (option Value) :=
  pr ← protos; (λ w, overwrite w (wpr pr)) <$> [None].

Definition dport_writes (wdp : Z * Z → option Value)
    (wpr : policy.Protocol → option Value) (dports : list (Z * Z))
    (protos : list policy.Protocol) : list (option Value) :=
  dp ← dports; (λ w, overwrite w (wdp dp)) <$> protocol_writes wpr protos.

Definition sport_writes (wsp wdp : Z * Z → option Value)
    (wpr : policy.Protocol → option Value) (sports dports : list (Z * Z))
    (protos : list policy.Protocol) : list (option Value) :=
  sp ← sports; (λ w, overwrite w (wsp sp)) <$> dport_writes wdp wpr dports protos.

Definition daddr_writes (wda : AddrItem → option Value)
    (wsp wdp : Z * Z → option Value) (wpr : policy.Protocol → option Value)
    (daddrs : list AddrItem) (sports dports : list (Z * Z))
    (protos : list policy.Protocol) : list (option Value) :=
  da ← daddrs;
  (λ w, overwrite w (wda da)) <$> sport_writes wsp wdp wpr sports dports protos.

Definition saddr_writes (wsa wda : AddrItem → option Value)
    (wsp wdp : Z * Z → option Value) (wpr : policy.Protocol → option Value)
    (saddrs daddrs : list AddrItem) (sports dports : list (Z * Z))
    (protos : list policy.Protocol) : list (option Value) :=
  sa ← saddrs;
  (λ w, overwrite w (wsa sa))
    <$> daddr_writes wda wsp wdp wpr daddrs sports dports protos.

(** ** What an iteration writes, and where *)

(** A path [(k1, k2, k3)] names the field [d[k1][k2][k3]]. *)
Abbreviation Path := (string * string * string)%type.

Definition lookup_path (p : Path) (d : Dict) : option Value :=
  lookup3 p.1.1 p.1.2 p.2 d.

Definition write_at (p q : Path) (v : Value) : option Value :=
  if decide (p = q) then Some v else None.

Definition saddr_write (family : string) (p : Path) (saddr : AddrItem) : option Value :=
  match saddr with
  | Any => None
  | Addr a => write_at p (family, "config", "source-address") (VStr (policy.text a))
  end.

Definition daddr_write (family : string) (p : Path) (daddr : AddrItem) : option Value :=
  match daddr with
  | Any => None
  | Addr a => write_at p (family, "config", "destination-address") (VStr (policy.text a))
  end.

Definition sport_write (p : Path) (range : Z * Z) : option Value :=
  if is_any_port range then None
  else write_at p ("transport", "config", "source-port") (port_value range.1 range.2).

Definition dport_write (p : Path) (range : Z * Z) : option Value :=
  if is_any_port range then None
  else write_at p ("transport", "config", "destination-port") (port_value range.1 range.2).

(** The number a protocol item resolves to; [None] for ['none'] and for a
    name that is not in the table. *)
Definition proto_number (PROTO_MAP : gmap string Z) (proto : policy.Protocol) : option Z :=
  match proto with
  | policy.ProtoName s => if bool_decide (s ≠ "none") then PROTO_MAP !! s else None
  | policy.ProtoNum n => Some n
  end.

Definition proto_write (PROTO_MAP : gmap string Z) (family : string) (p : Path)
    (proto : policy.Protocol) : option Value :=
  n ← proto_number PROTO_MAP proto; write_at p (family, "config", "protocol") (VInt n).

(** What the setters called for one iteration write at path [p]. *)
Definition writes (PROTO_MAP : gmap string Z) (family : string) (p : Path)
    (it : Iteration) : option Value :=
  overwrite (proto_write PROTO_MAP family p (it_proto it))
    (overwrite (dport_write p (it_dport it))
       (overwrite (sport_write p (it_sport it))
          (overwrite (daddr_write family p (it_daddr it))
             (saddr_write family p (it_saddr it))))).

(** ** Terms that convert without an exception *)

Definition resolvable (PROTO_MAP : gmap string Z) (proto : policy.Protocol) : bool :=
  match proto with
  | policy.ProtoName s => bool_decide (s = "none") || bool_decide (is_Some (PROTO_MAP !! s))
  | policy.ProtoNum _ => true
  end.

Definition family_ok (AF_MAP : gmap string Z) (inet_version : string) : bool :=
  match AF_MAP !! inet_version with
  | Some af => bool_decide (is_Some (AF_RENAME !! af))
  | None => false
  end.

Definition action_ok (term : policy.Term) : bool :=
  match policy.action term with
  | a :: _ => bool_decide (is_Some (ACTION_MAP !! a))
  | [] => false
  end.

Definition option_ok (term : policy.Term) : bool :=
  bool_decide ("tcp-established" ∉ policy.option term)
  || bool_decide (policy.protocol term = [policy.ProtoName "tcp"]).

(** The checks that [ConvertToDict] makes: the family, the action, the
    tcp-established option and the protocol names. *)
Definition convertible (AF_MAP PROTO_MAP : gmap string Z) (term : policy.Term)
    (inet_version : string) : bool :=
  family_ok AF_MAP inet_version && action_ok term && option_ok term
  && forallb (resolvable PROTO_MAP) (policy.protocol term).

(** The first protocol name of the list that the table does not resolve. *)
Fixpoint first_unknown (PROTO_MAP : gmap string Z) (protos : list policy.Protocol)
    : option string :=
  match protos with
  | [] => None
  | proto :: protos' =>
      if resolvable PROTO_MAP proto then first_unknown PROTO_MAP protos'
      else match proto with
           | policy.ProtoName s => Some s
           | policy.ProtoNum _ => None
           end
  end.

(** The dictionary the loops start from: the action, and the marker of
    tcp-established when the option is set. *)
Definition action_dict (action : string) : Dict :=
  {[ "actions" := VDict {[ "config" := VDict {[ "forwarding-action" := VStr action ]} ]} ]}.

Definition established_dict (action : string) : Dict :=
  <[ "transport" := VDict {[ "config" := VDict _tcp_established ]} ]> (action_dict action).

(** The action name of the term in the target vocabulary, the family name
    and the family number of a conversion; the defaults stand for the cases
    in which [ConvertToDict] raises. *)
Definition action_name (term : policy.Term) : string :=
  default "" (a ← head (policy.action term); ACTION_MAP !! a).

Definition family_name (AF_MAP : gmap string Z) (inet_version : string) : string :=
  default "" (af ← AF_MAP !! inet_version; AF_RENAME !! af).

Definition af_of (AF_MAP : gmap string Z) (inet_version : string) : Z :=
  default 0 (AF_MAP !! inet_version).

Definition initial_dict (term : policy.Term) : Dict :=
  if bool_decide ("tcp-established" ∈ policy.option term)
  then established_dict (action_name term)
  else action_dict (action_name term).

(** ** Text carried by an exception *)

Fixpoint is_prefix (p s : string) : bool :=
  match p, s with
  | EmptyString, _ => true
  | String a p', String b s' => bool_decide (a = b) && is_prefix p' s'
  | String _ _, EmptyString => false
  end.

Fixpoint is_substring (p s : string) : bool :=
  is_prefix p s
  || match s with
     | EmptyString => false
     | String _ s' => is_substring p s'
     end.

(** The arguments an exception of this file is raised with; those of
    [UnsupportedFilterError], which the base class raises, are built outside
    this file and are not recorded. *)
Definition exception_args (e : Exception) : list string :=
  match e with
  | KeyError key => [key]
  | IndexError => []
  | TypeError => []
  | UnboundLocalError var => [var]
  | OcFirewallError msg arg => [msg; arg]
  | TcpEstablishedWithNonTcpError msg => [msg]
  | UnsupportedFilterError => []
  end.

Definition mentions (e : Exception) (s : string) : bool :=
  existsb (is_substring s) (exception_args e).

(** The term [term] under another name. *)
Definition with_name (name : string) (term : policy.Term) : policy.Term :=
  {| policy.name := name;
     policy.action := policy.action term;
     policy.flattened_saddr := policy.flattened_saddr term;
     policy.flattened_daddr := policy.flattened_daddr term;
     policy.source_port := policy.source_port term;
     policy.destination_port := policy.destination_port term;
     policy.protocol := policy.protocol term;
     policy.option := policy.option term;
     policy.comment := policy.comment term |}.

(** ** Sequence identifiers *)

(** The entries of a list numbered as [_TranslateTerms] numbers them, the
    counter being [count] before the first. *)
Definition number_from (count : Z) (rules : list Dict) : list Dict :=
  imap (λ i rule, <["sequence-id" := VInt ((count + Z.of_nat i + 1) * 5)]> rule) rules.

(** The rules of a conversion; none when it raised. *)
Definition rules_of (r : result (list Dict)) : list Dict :=
  match r with Ok l => l | Raise _ => [] end.

(** All entries of a run, rule set after rule set. *)
Definition all_entries (oc : OpenConfig) : list Dict :=
  s ← acl_sets oc; acl_entry s.

Definition sequence_ids (oc : OpenConfig) : list (option Value) :=
  (λ e : Dict, e !! "sequence-id") <$> all_entries oc.

(** The state of [_TranslateTerms] after the rules [rules] have been
    numbered and appended. *)
Definition advance (st : TermsState) (rules : list Dict) : TermsState :=
  {| self := {| total_rule_count :=
                  total_rule_count (self st) + Z.of_nat (length rules);
                acl_sets := acl_sets (self st) |};
     oc_acl_entries :=
       oc_acl_entries st ++ number_from (total_rule_count (self st)) rules |}.

(** The identifiers 5, 10, ... of [n] entries numbered after [count]. *)
Definition stride_ids (count n : Z) : list (option Value) :=
  (λ k, Some (VInt (k * 5))) <$> seqZ (count + 1) n.

(** ** The expansion of a filter *)

(** The rules of the terms of a filter, before numbering: term after term,
    and for each term family after family. *)
Definition expansion (AF_MAP PROTO_MAP : gmap string Z) (terms : list policy.Term)
    (address_family : string) : list Dict :=
  term ← terms; term_af ← term_address_families address_family;
  rules_of (ConvertToDict AF_MAP PROTO_MAP term term_af).

(** The terms the constructor of the base class accepts. *)
Definition constructible (base_init : policy.Term → option Exception)
    (term : policy.Term) : bool :=
  match base_init term with None => true | Some _ => false end.

(** The terms of a filter that are constructed and converted without an
    exception, under each family of the filter. *)
Definition terms_convertible (base_init : policy.Term → option Exception)
    (AF_MAP PROTO_MAP : gmap string Z)
    (terms : list policy.Term) (address_family : string) : bool :=
  forallb (λ term, forallb (λ term_af, constructible base_init term
                                        && convertible AF_MAP PROTO_MAP term term_af)
                     (term_address_families address_family)) terms.

(** The address family [_TranslatePolicy] selects for a filter. *)
Definition filter_family (_SUPPORTED_AF : list string)
    (filter : policy.Header * list policy.Term) : string :=
  (select_family _SUPPORTED_AF (policy.FilterOptions filter.1)).1.

Definition filter_ok (base_init : policy.Term → option Exception)
    (AF_MAP PROTO_MAP : gmap string Z) (_SUPPORTED_AF : list string)
    (filter : policy.Header * list policy.Term) : bool :=
  terms_convertible base_init AF_MAP PROTO_MAP filter.2
    (filter_family _SUPPORTED_AF filter)
  && bool_decide (is_Some (FAMILY_MAP !! filter_family _SUPPORTED_AF filter)).

(** The policies [_TranslatePolicy] translates without an exception: at
    least one filter, a family with a type, terms that the constructor
    accepts and that convert. *)
Definition policy_ok (base_init : policy.Term → option Exception)
    (AF_MAP PROTO_MAP : gmap string Z) (_SUPPORTED_AF : list string)
    (pol : policy.Policy) : bool :=
  bool_decide (policy.filters pol ≠ [])
  && forallb (filter_ok base_init AF_MAP PROTO_MAP _SUPPORTED_AF) (policy.filters pol).

(** The rules of a policy before numbering, filter after filter. *)
Definition policy_rules (AF_MAP PROTO_MAP : gmap string Z) (_SUPPORTED_AF : list string)
    (pol : policy.Policy) : list Dict :=
  filter ← policy.filters pol;
  expansion AF_MAP PROTO_MAP filter.2 (filter_family _SUPPORTED_AF filter).

(** The address-family blocks an entry has. *)
Definition family_blocks (e : Dict) : list string :=
  filter (λ k, is_Some (e !! k)) ["ipv4"; "ipv6"].

(** The rules of the terms of a mixed filter: for each term the rules for
    inet, then the rules for inet6. *)
Definition mixed_rules (AF_MAP PROTO_MAP : gmap string Z) (terms : list policy.Term)
    : list Dict :=
  term ← terms;
  rules_of (ConvertToDict AF_MAP PROTO_MAP term "inet")
    ++ rules_of (ConvertToDict AF_MAP PROTO_MAP term "inet6").


(** ** Tables and inputs of the examples *)

Definition example_AF_MAP : gmap string Z :=
  list_to_map [("inet", 4); ("inet6", 6)].

Definition example_PROTO_MAP : gmap string Z :=
  list_to_map [("icmp", 1); ("tcp", 6); ("udp", 17); ("esp", 50); ("ah", 51);
               ("ipip", 4); ("sctp", 132)].

(** The constructor of the base class taken in the examples: it refuses a
    term one of whose protocols is neither a name of the table nor a number
    of the table, as a number or as its decimal text. *)
Definition example_supported (proto : policy.Protocol) : bool :=
  match proto with
  | policy.ProtoName s =>
      bool_decide (is_Some (example_PROTO_MAP !! s))
      || bool_decide (s ∈ (λ kv : string * Z, format_d kv.2)
                            <$> map_to_list example_PROTO_MAP)
  | policy.ProtoNum n =>
      bool_decide (n ∈ (λ kv : string * Z, kv.2) <$> map_to_list example_PROTO_MAP)
  end.

Definition example_init (term : policy.Term) : option Exception :=
  if forallb example_supported (policy.protocol term) then None
  else Some UnsupportedFilterError.

Definition net10 : policy.Address :=
  {| policy.version := 4; policy.text := "10.0.0.0/8" |}.
Definition net192 : policy.Address :=
  {| policy.version := 4; policy.text := "192.168.0.0/16" |}.
Definition net2001 : policy.Address :=
  {| policy.version := 6; policy.text := "2001:db8::/32" |}.

(** Two IPv4 sources and one IPv6 source, two destination ports, two
    protocols. *)
Definition web_term : policy.Term := {|
  policy.name := "allow-web";
  policy.action := ["accept"];
  policy.flattened_saddr := [net10; net2001; net192];
  policy.flattened_daddr := [];
  policy.source_port := [];
  policy.destination_port := [(80, 80); (8000, 8080)];
  policy.protocol := [policy.ProtoName "tcp"; policy.ProtoNum 17];
  policy.option := [];
  policy.comment := [];
|}.

(** No address, no port, no protocol. *)
Definition any_term (option : list string) : policy.Term := {|
  policy.name := "allow-any";
  policy.action := ["accept"];
  policy.flattened_saddr := [];
  policy.flattened_daddr := [];
  policy.source_port := [];
  policy.destination_port := [];
  policy.protocol := [];
  policy.option := option;
  policy.comment := [];
|}.

Definition established_term (protocol : list policy.Protocol) : policy.Term := {|
  policy.name := "allow-replies";
  policy.action := ["accept"];
  policy.flattened_saddr := [];
  policy.flattened_daddr := [net10];
  policy.source_port := [];
  policy.destination_port := [(1024, 65535)];
  policy.protocol := protocol;
  policy.option := ["tcp-established"];
  policy.comment := [];
|}.

Definition bogus_term : policy.Term := {|
  policy.name := "edge-in";
  policy.action := ["accept"];
  policy.flattened_saddr := [net10];
  policy.flattened_daddr := [];
  policy.source_port := [];
  policy.destination_port := [];
  policy.protocol := [policy.ProtoName "tcp"; policy.ProtoName "bogus"];
  policy.option := [];
  policy.comment := [];
|}.

(** A protocol given as the decimal text of its number: the constructor of
    the examples accepts it, and the table has no such name. *)
Definition numeral_term (name : string) : policy.Term := {|
  policy.name := name;
  policy.action := ["accept"];
  policy.flattened_saddr := [net10];
  policy.flattened_daddr := [];
  policy.source_port := [];
  policy.destination_port := [];
  policy.protocol := [policy.ProtoName "tcp"; policy.ProtoName "6"];
  policy.option := [];
  policy.comment := [];
|}.

(** A source-port list that mixes a port with the range (0, 0). *)
Definition port_term (source_port : list (Z * Z)) (flattened_daddr : list policy.Address)
    : policy.Term := {|
  policy.name := "allow-port";
  policy.action := ["accept"];
  policy.flattened_saddr := [];
  policy.flattened_daddr := flattened_daddr;
  policy.source_port := source_port;
  policy.destination_port := [];
  policy.protocol := [];
  policy.option := [];
  policy.comment := [];
|}.

Definition header (name : string) (options : list string) : policy.Header := {|
  policy.FilterName := name;
  policy.FilterOptions := options;
  policy.header_comment := [];
|}.

(** A mixed filter of two terms, then a filter of the default family. *)
Definition example_policy : policy.Policy := {|
  policy.filters :=
    [ (header "edge" ["mixed"], [web_term; any_term []]);
      (header "core" [], [established_term [policy.ProtoName "tcp"]]) ]
|}.

(** An order in which [_SUPPORTED_AF] may be visited. *)
Definition example_order : list string := ["inet"; "inet6"; "mixed"].


Definition example_self : OpenConfig := {| total_rule_count := 77; acl_sets := [] |}.

(** ** The exception of a conversion *)

(** The exception [ConvertToDict] raises, by the order of its checks: the
    family of [inet_version], the action, the option tcp-established, then
    in the loops the first protocol name that is not in the table; [None]
    when no check fails. *)
Definition conversion_error (AF_MAP PROTO_MAP : gmap string Z) (term : policy.Term)
    (inet_version : string) : option Exception :=
  match AF_MAP !! inet_version with
  | None => Some (KeyError "None")
  | Some af =>
      match AF_RENAME !! af with
      | None => Some (KeyError (format_d af))
      | Some _ =>
          match policy.action term with
          | [] => Some IndexError
          | a :: _ =>
              match ACTION_MAP !! a with
              | None => Some (KeyError a)
              | Some _ =>
                  if bool_decide ("tcp-established" ∈ policy.option term)
                     && bool_decide (policy.protocol term ≠ [policy.ProtoName "tcp"])
                  then Some (TcpEstablishedWithNonTcpError
                               ("tcp-established can only be used with tcp protocol in term "
                                  +:+ policy.name term))
                  else
                    match first_unknown PROTO_MAP (policy.protocol term) with
                    | Some tok =>
                        Some (OcFirewallError "Protocol %s unknown. Use an integer." tok)
                    | None => None
                    end
              end
          end
      end
  end.

(** The exception of [self._TERM(term, term_af)] followed by
    [ConvertToDict]: that of the constructor, else that of the
    conversion. *)
Definition construction_error (base_init : policy.Term → option Exception)
    (AF_MAP PROTO_MAP : gmap string Z) (term : policy.Term) (term_af : string)
    : option Exception :=
  match base_init term with
  | Some e => Some e
  | None => conversion_error AF_MAP PROTO_MAP term term_af
  end.

(** The exceptions of the constructions and conversions [_TranslateTerms]
    makes, in the order it makes them: term after term, and for each term
    family after family. *)
Definition conversion_errors (base_init : policy.Term → option Exception)
    (AF_MAP PROTO_MAP : gmap string Z)
    (terms : list policy.Term) (address_family : string) : list Exception :=
  term ← terms; term_af ← term_address_families address_family;
  option_list (construction_error base_init AF_MAP PROTO_MAP term term_af).

(** The exception [_TranslateTerms] raises: that of the first construction
    or conversion that raises, or after the loops the missing key of
    [FAMILY_MAP]. *)
Definition terms_error (base_init : policy.Term → option Exception)
    (AF_MAP PROTO_MAP : gmap string Z) (terms : list policy.Term)
    (address_family : string) : option Exception :=
  match head (conversion_errors base_init AF_MAP PROTO_MAP terms address_family) with
  | Some e => Some e
  | None =>
      match FAMILY_MAP !! address_family with
      | None => Some (KeyError address_family)
      | Some _ => None
      end
  end.

(** The exception of the first filter whose translation raises. *)
Fixpoint policy_error (base_init : policy.Term → option Exception)
    (AF_MAP PROTO_MAP : gmap string Z) (_SUPPORTED_AF : list string)
    (filters : list (policy.Header * list policy.Term)) : option Exception :=
  match filters with
  | [] => None
  | filter :: filters' =>
      match terms_error base_init AF_MAP PROTO_MAP filter.2
              (filter_family _SUPPORTED_AF filter) with
      | Some e => Some e
      | None => policy_error base_init AF_MAP PROTO_MAP _SUPPORTED_AF filters'
      end
  end.

(** The rule set [_TranslateTerms] builds, the counter being [count]. *)
Definition rule_set (AF_MAP PROTO_MAP : gmap string Z) (count : Z)
    (terms : list policy.Term) (address_family filter_name : string) : ACLSet :=
  let oc_type := default "" (FAMILY_MAP !! address_family) in
  {| acl_entry := number_from count (expansion AF_MAP PROTO_MAP terms address_family);
     config_name := filter_name; config_type := oc_type;
     set_name := filter_name; set_type := oc_type |}.

(** The rule sets of the filters, the counter being [count] before the
    first. *)
Fixpoint rule_sets_from (AF_MAP PROTO_MAP : gmap string Z) (_SUPPORTED_AF : list string)
    (count : Z) (filters : list (policy.Header * list policy.Term)) : list ACLSet :=
  match filters with
  | [] => []
  | filter :: filters' =>
      rule_set AF_MAP PROTO_MAP count filter.2 (filter_family _SUPPORTED_AF filter)
        (policy.FilterName filter.1)
      :: rule_sets_from AF_MAP PROTO_MAP _SUPPORTED_AF
           (count + Z.of_nat (length (expansion AF_MAP PROTO_MAP filter.2
                                        (filter_family _SUPPORTED_AF filter))))
           filters'
  end.

(** ** The fields of an entry *)

(** The kinds of value a field holds. *)
Inductive Kind : Type := KInt | KStr | KIntOrStr.

Definition has_kind (k : Kind) (v : Value) : bool :=
  match k, v with
  | KInt, VInt _ | KStr, VStr _ | KIntOrStr, VInt _ | KIntOrStr, VStr _ => true
  | _, _ => false
  end.

(** The paths the setters write under the family [family], with the kind
    of the value each setter writes. *)
Definition entry_fields (family : string) : list (Path * Kind) :=
  [ (("actions", "config", "forwarding-action"), KStr);
    ((family, "config", "source-address"), KStr);
    ((family, "config", "destination-address"), KStr);
    ((family, "config", "protocol"), KInt);
    (("transport", "config", "source-port"), KIntOrStr);
    (("transport", "config", "destination-port"), KIntOrStr);
    (("transport", "config", "detail-mode"), KStr);
    (("transport", "config", "builtin-detail"), KStr) ].

(** ** class OpenConfig: the supported tokens *)

(** [_BuildTokens]: the pair [super()._BuildTokens()] returns is a
    parameter.  [-=] removes the four tokens, the assignment replaces the
    sub-tokens of ['action'], [update] those of ['option']. *)
Definition _BuildTokens (super : gset string * gmap string (gset string))
    : gset string * gmap string (gset string) :=
  let supported_tokens :=
    super.1 ∖ {[ "platform"; "platform_exclude"; "icmp-type"; "verbatim" ]} in
  let supported_sub_tokens :=
    <["action" := {[ "accept"; "deny"; "reject" ]}]> super.2 in
  let supported_sub_tokens :=
    ({[ "option" := {[ "tcp-established" ]} ]} : gmap string (gset string))
      ∪ supported_sub_tokens in
  (supported_tokens, supported_sub_tokens).

(** A term with addresses of the other family only. *)
Definition v6_only_term : policy.Term := {|
  policy.name := "allow-v6";
  policy.action := ["deny"; "accept"];
  policy.flattened_saddr := [net2001];
  policy.flattened_daddr := [net2001];
  policy.source_port := [];
  policy.destination_port := [(53, 53)];
  policy.protocol := [policy.ProtoName "udp"];
  policy.option := [];
  policy.comment := ["names"];
|}.

(** * The error monad and the loop combinator *)

Lemma bind_Ok {A B : Type} (m : result A) (f : A → result B) (b : B) :
  m ≫= f = Ok b ↔ ∃ a, m = Ok a ∧ f a = Ok b.
Proof.
  destruct m as [a|e]; simpl; split.
  - intros H. by exists a.
  - by intros (a' & [= ->] & H).
  - done.
  - by intros (a' & [=] & _).
Qed.

Lemma for_each_app {A S : Type} (xs ys : list A) (body : A → S → result S) (s : S) :
  for_each (xs ++ ys) body s = for_each xs body s ≫= for_each ys body.
Proof.
  revert s. induction xs as [|x xs IH]; intros s; simpl; [done|].
  destruct (body x s) as [s'|e]; simpl; [apply IH | done].
Qed.

(** A loop keeps what every iteration keeps. *)
Lemma for_each_invariant {A S : Type} (I : S → Prop) (xs : list A)
    (body : A → S → result S) (s s' : S) :
  (∀ x s1 s2, x ∈ xs → I s1 → body x s1 = Ok s2 → I s2) →
  I s → for_each xs body s = Ok s' → I s'.
Proof.
  revert s. induction xs as [|x xs IH]; intros s Hbody Hs; simpl.
  - by intros [= <-].
  - intros (s1 & H1 & H2)%bind_Ok.
    apply (IH s1); [| |done].
    + intros y t1 t2 Hy. apply Hbody. by right.
    + eapply Hbody; [left|done|done].
Qed.

(** A loop returns when every iteration returns from the states it can be
    entered in. *)
Lemma for_each_returns {A S : Type} (I : S → Prop) (xs : list A)
    (body : A → S → result S) (s : S) :
  (∀ x s1, x ∈ xs → I s1 → ∃ s2, body x s1 = Ok s2 ∧ I s2) →
  I s → ∃ s', for_each xs body s = Ok s' ∧ I s'.
Proof.
  revert s. induction xs as [|x xs IH]; intros s Hbody Hs; simpl.
  - by exists s.
  - destruct (Hbody x s) as (s1 & -> & Hs1); [left|done|]. simpl.
    apply IH; [|done]. intros y t Hy. apply Hbody. by right.
Qed.

(** A loop raises what its first iteration raises. *)
Lemma for_each_raises_first {A S : Type} (x : A) (xs : list A)
    (body : A → S → result S) (s : S) (e : Exception) :
  body x s = Raise e → for_each (x :: xs) body s = Raise e.
Proof. intros H. simpl. by rewrite H. Qed.

(** * Dictionaries *)

Lemma subdict_Ok (k : string) (d s : Dict) :
  subdict k d = Ok s →
  (d !! k = None ∧ s = ∅) ∨ d !! k = Some (VDict s).
Proof.
  unfold subdict. destruct (d !! k) as [[| |s']|]; intros [=]; subst; auto.
Qed.

Lemma subdict_lookup (k j : string) (d s : Dict) :
  subdict k d = Ok s → s !! j = (d !! k ≫= as_dict) ≫= (λ m : Dict, m !! j).
Proof.
  intros [[-> ->]| ->]%subdict_Ok; simpl; [apply lookup_empty | done].
Qed.

Lemma lookup3_unfold (k1 k2 k3 : string) (d : Dict) :
  lookup3 k1 k2 k3 d =
    ((((d !! k1 ≫= as_dict) ≫= (λ m : Dict, m !! k2)) ≫= as_dict)
       ≫= (λ m : Dict, m !! k3)).
Proof.
  unfold lookup3. destruct (d !! k1) as [[| |d1]|]; simpl; try done.
  destruct (d1 !! k2) as [[| |d2]|]; simpl; done.
Qed.

(** [d[k1][k2][k3] = v] changes the field at that path and no other. *)
Lemma lookup_path_setitem3 (p : Path) (k1 k2 k3 : string) (v : Value) (d d' : Dict) :
  setitem3 k1 k2 k3 v d = Ok d' →
  lookup_path p d' = overwrite (write_at p (k1, k2, k3) v) (lookup_path p d).
Proof.
  destruct p as [[j1 j2] j3]. unfold setitem3, lookup_path, write_at. simpl.
  intros (d1 & H1 & (d2 & H2 & [= <-])%bind_Ok)%bind_Ok.
  rewrite !lookup3_unfold.
  destruct (decide (j1 = k1)) as [->|Hn1].
  2:{ rewrite lookup_insert_ne by done.
      rewrite decide_False by congruence. done. }
  rewrite lookup_insert_eq. simpl.
  destruct (decide (j2 = k2)) as [->|Hn2].
  2:{ rewrite lookup_insert_ne by done.
      rewrite decide_False by congruence. simpl.
      by rewrite (subdict_lookup _ _ _ _ H1). }
  rewrite lookup_insert_eq. simpl.
  destruct (decide (j3 = k3)) as [->|Hn3].
  - rewrite lookup_insert_eq. by rewrite decide_True.
  - rewrite lookup_insert_ne by done.
    rewrite decide_False by congruence. simpl.
    rewrite (subdict_lookup _ _ _ _ H2), (subdict_lookup _ _ _ _ H1).
    by destruct (d !! k1) as [[| |?]|].
Qed.

(** It touches one top-level key. *)
Lemma lookup_setitem3_ne (j k1 k2 k3 : string) (v : Value) (d d' : Dict) :
  setitem3 k1 k2 k3 v d = Ok d' → j ≠ k1 → d' !! j = d !! j.
Proof.
  unfold setitem3.
  intros (d1 & H1 & (d2 & H2 & [= <-])%bind_Ok)%bind_Ok Hne.
  by rewrite lookup_insert_ne.
Qed.

Lemma subdict_shape3 (k : string) (d : Dict) :
  shape3 d → ∃ d1, subdict k d = Ok d1 ∧ shape2 d1.
Proof.
  intros Hd. unfold subdict.
  destruct (d !! k) as [v|] eqn:Hk.
  - destruct (Hd k v Hk) as (d1 & -> & H1). by exists d1.
  - exists ∅. split; [done|]. apply map_Forall_empty.
Qed.

Lemma subdict_shape2 (k : string) (d : Dict) :
  shape2 d → ∃ d1, subdict k d = Ok d1.
Proof.
  intros Hd. unfold subdict.
  destruct (d !! k) as [v|] eqn:Hk.
  - destruct (Hd k v Hk) as (d1 & ->). by exists d1.
  - by exists ∅.
Qed.

Lemma setitem3_shape3 (k1 k2 k3 : string) (v : Value) (d : Dict) :
  shape3 d → ∃ d', setitem3 k1 k2 k3 v d = Ok d' ∧ shape3 d'.
Proof.
  intros Hd. unfold setitem3.
  destruct (subdict_shape3 k1 d Hd) as (d1 & -> & Hd1). simpl.
  destruct (subdict_shape2 k2 d1 Hd1) as (d2 & ->). simpl.
  eexists. split; [done|].
  apply map_Forall_insert_2; [|done].
  eexists. split; [done|].
  apply map_Forall_insert_2; [|done]. by eexists.
Qed.

Lemma update2_shape3 (k1 k2 : string) (upd d : Dict) :
  shape3 d → ∃ d', update2 k1 k2 upd d = Ok d' ∧ shape3 d'.
Proof.
  intros Hd. unfold update2.
  destruct (subdict_shape3 k1 d Hd) as (d1 & -> & Hd1). simpl.
  destruct (subdict_shape2 k2 d1 Hd1) as (d2 & ->). simpl.
  eexists. split; [done|].
  apply map_Forall_insert_2; [|done].
  eexists. split; [done|].
  apply map_Forall_insert_2; [|done]. by eexists.
Qed.

(** * Fields that are carried from one iteration to the next *)

Lemma overwrite_None_l {V : Type} (c : option V) : overwrite None c = c.
Proof. done. Qed.

Lemma overwrite_None_r {V : Type} (w : option V) : overwrite w None = w.
Proof. by destruct w. Qed.

Lemma carry_app {V : Type} (c : option V) (ws1 ws2 : list (option V)) :
  carry c (ws1 ++ ws2) = carry c ws1 ++ carry (carry_last c ws1) ws2.
Proof.
  revert c. induction ws1 as [|w ws1 IH]; intros c; simpl; [done|].
  by rewrite IH.
Qed.

Lemma carry_last_app {V : Type} (c : option V) (ws1 ws2 : list (option V)) :
  carry_last c (ws1 ++ ws2) = carry_last (carry_last c ws1) ws2.
Proof. apply foldl_app. Qed.

Lemma length_carry {V : Type} (c : option V) (ws : list (option V)) :
  length (carry c ws) = length ws.
Proof. revert c. induction ws as [|w ws IH]; intros c; simpl; [done|]. by rewrite IH. Qed.

(** Each content is the content before, overwritten. *)
Lemma carry_lookup_0 {V : Type} (c : option V) (ws : list (option V)) (w : option V) :
  ws !! 0%nat = Some w → carry c ws !! 0%nat = Some (overwrite w c).
Proof. destruct ws; simpl; [done|]. by intros [= ->]. Qed.

Lemma carry_lookup_S {V : Type} (c : option V) (ws : list (option V)) (i : nat)
    (w prev : option V) :
  ws !! S i = Some w → carry c ws !! i = Some prev →
  carry c ws !! S i = Some (overwrite w prev).
Proof.
  revert c i prev. induction ws as [|w0 ws IH]; intros c i prev; simpl; [done|].
  destruct i as [|i]; simpl.
  - intros Hw [= <-]. by apply carry_lookup_0.
  - intros Hw Hp. by apply IH.
Qed.

Lemma carry_quiet {V : Type} (c : option V) (ws : list (option V)) :
  quiet ws → carry c ws = replicate (length ws) c.
Proof.
  induction 1 as [|w ws -> _ IH]; simpl; [done|]. by rewrite IH.
Qed.

Lemma carry_last_quiet {V : Type} (c : option V) (ws : list (option V)) :
  quiet ws → carry_last c ws = c.
Proof. induction 1 as [|w ws -> _ IH]; simpl; done. Qed.

Lemma carry_same {V : Type} (c : option V) (v : V) (n : nat) :
  carry c (replicate n (Some v)) = replicate n (Some v).
Proof. revert c. induction n as [|n IH]; intros c; simpl; [done|]. by rewrite IH. Qed.

Lemma carry_last_same {V : Type} (c : option V) (v : V) (n : nat) :
  n ≠ 0%nat → carry_last c (replicate n (Some v)) = Some v.
Proof.
  intros Hn. destruct n as [|n]; [done|]. simpl. clear Hn.
  induction n as [|n IH]; simpl; done.
Qed.

Lemma quiet_bind {A V : Type} (f : A → list (option V)) (xs : list A) :
  (∀ x, quiet (f x)) → quiet (xs ≫= f).
Proof. intros H. apply Forall_bind, Forall_forall. intros x _. apply H. Qed.

Lemma quiet_fmap_overwrite {V : Type} (ws : list (option V)) :
  quiet ws → quiet ((λ w, overwrite w None) <$> ws).
Proof.
  intros H. apply Forall_fmap. eapply Forall_impl; [done|].
  by intros w ->.
Qed.

Lemma fmap_overwrite_None {V : Type} (ws : list (option V)) :
  (λ w, overwrite w None) <$> ws = ws.
Proof.
  induction ws as [|w ws IH]; csimpl; [done|].
  by rewrite overwrite_None_r, IH.
Qed.

Lemma fmap_overwrite_quiet {V : Type} (ws : list (option V)) (wx : option V) :
  quiet ws → (λ w, overwrite w wx) <$> ws = replicate (length ws) wx.
Proof. induction 1 as [|w ws -> _ IH]; csimpl; [done|]. by rewrite IH. Qed.

Lemma bind_nonempty {A B : Type} (f : A → list B) (xs : list A) :
  xs ≠ [] → (∀ x, f x ≠ []) → xs ≫= f ≠ [].
Proof.
  destruct xs as [|x xs]; [done|]. intros _ Hf. rewrite bind_cons.
  specialize (Hf x). by destruct (f x).
Qed.

Lemma fmap_nonempty {A B : Type} (f : A → B) (xs : list A) :
  xs ≠ [] → f <$> xs ≠ [].
Proof. by destruct xs. Qed.

Lemma fmap_bind_comm {A B C : Type} (f : B → C) (g : A → list B) (xs : list A) :
  f <$> (xs ≫= g) = xs ≫= (λ x, f <$> g x).
Proof.
  induction xs as [|x xs IH]; [done|].
  by rewrite !bind_cons, fmap_app, IH.
Qed.

Section Trace.

(** An observation of the working dictionary: the field at a path, or the
    value under a top-level key. *)
Variable look : Dict → option Value.

Lemma traces_append_rule : traces look (λ st, Ok (append_rule st)) [None].
Proof.
  intros st st' [= <-]. exists [term_dict st]. by simpl.
Qed.

Lemma traces_for_each {A : Type} (xs : list A)
    (body : A → ConvertState → result ConvertState)
    (wf : A → list (option Value)) :
  (∀ x, traces look (body x) (wf x)) →
  traces look (for_each xs body) (xs ≫= wf).
Proof.
  intros Hbody. induction xs as [|x xs IH]; intros st st'; cbn [for_each].
  - intros [= <-]. exists []. by rewrite app_nil_r.
  - intros (st1 & H1 & H2)%bind_Ok.
    destruct (Hbody x _ _ H1) as (new1 & Hr1 & Hl1 & Hd1).
    destruct (IH _ _ H2) as (new2 & Hr2 & Hl2 & Hd2).
    exists (new1 ++ new2). rewrite bind_cons. split_and!.
    + by rewrite Hr2, Hr1, app_assoc.
    + by rewrite fmap_app, carry_app, Hl1, Hl2, Hd1.
    + by rewrite carry_last_app, Hd2, Hd1.
Qed.

(** An iteration: the setter of the level, then the nest inside.  Either
    the setter leaves the observed field alone, or the nest inside does. *)
Lemma traces_step (set : Dict → result Dict)
    (inner : ConvertState → result ConvertState)
    (wx : option Value) (ws : list (option Value)) :
  (∀ d d', set d = Ok d' → look d' = overwrite wx (look d)) →
  traces look inner ws →
  wx = None ∨ (quiet ws ∧ ws ≠ []) →
  traces look (λ st, d ← set (term_dict st); inner (with_term_dict st d))
         ((λ w, overwrite w wx) <$> ws).
Proof.
  intros Hset Hinner Hside st st' (d & Hd & Hin)%bind_Ok.
  destruct (Hinner _ _ Hin) as (new & Hr & Hl & Hlast). simpl in *.
  exists new. split; [done|].
  rewrite Hl, Hlast, (Hset _ _ Hd).
  destruct Hside as [->|[Hq Hne]].
  - by rewrite fmap_overwrite_None.
  - rewrite fmap_overwrite_quiet, carry_quiet, carry_last_quiet by done.
    destruct wx as [v|]; simpl.
    + rewrite carry_same, carry_last_same; [done|]. by destruct ws.
    + assert (quiet (replicate (length ws) (@None Value))) as Hq'.
      { by apply Forall_replicate. }
      by rewrite carry_quiet, carry_last_quiet, length_replicate.
Qed.

End Trace.

Lemma overwrite_assoc {V : Type} (a b c : option V) :
  overwrite (overwrite a b) c = overwrite a (overwrite b c).
Proof. by destruct a. Qed.

Section Nest.

Variable PROTO_MAP : gmap string Z.
Variable family : string.
Variable look : Dict → option Value.

(** What each level writes on the observed field, by item. *)
Variable wsa wda : AddrItem → option Value.
Variable wsp wdp : Z * Z → option Value.
Variable wpr : policy.Protocol → option Value.

Hypothesis saddr_step_look : ∀ x d d',
  saddr_step family x d = Ok d' → look d' = overwrite (wsa x) (look d).
Hypothesis daddr_step_look : ∀ x d d',
  daddr_step family x d = Ok d' → look d' = overwrite (wda x) (look d).
Hypothesis sport_step_look : ∀ x d d',
  sport_step x d = Ok d' → look d' = overwrite (wsp x) (look d).
Hypothesis dport_step_look : ∀ x d d',
  dport_step x d = Ok d' → look d' = overwrite (wdp x) (look d).
Hypothesis protocol_step_look : ∀ x d d',
  protocol_step PROTO_MAP family x d = Ok d' → look d' = overwrite (wpr x) (look d).

(** At most one level writes the observed field. *)
Hypothesis one_writer_saddr :
  silent wsa ∨ (silent wda ∧ silent wsp ∧ silent wdp ∧ silent wpr).
Hypothesis one_writer_daddr :
  silent wda ∨ (silent wsp ∧ silent wdp ∧ silent wpr).
Hypothesis one_writer_sport : silent wsp ∨ (silent wdp ∧ silent wpr).
Hypothesis one_writer_dport : silent wdp ∨ silent wpr.

Variable daddrs : list AddrItem.
Variable sports dports : list (Z * Z).
Variable protos : list policy.Protocol.
Hypothesis daddrs_nonempty : daddrs ≠ [].
Hypothesis sports_nonempty : sports ≠ [].
Hypothesis dports_nonempty : dports ≠ [].
Hypothesis protos_nonempty : protos ≠ [].

Lemma protocol_writes_nonempty : protocol_writes wpr protos ≠ [].
Proof. apply bind_nonempty; done. Qed.

Lemma dport_writes_nonempty : dport_writes wdp wpr dports protos ≠ [].
Proof.
  apply bind_nonempty; [done|]. intros x.
  apply fmap_nonempty, protocol_writes_nonempty.
Qed.

Lemma sport_writes_nonempty :
  sport_writes wsp wdp wpr sports dports protos ≠ [].
Proof.
  apply bind_nonempty; [done|]. intros x.
  apply fmap_nonempty, dport_writes_nonempty.
Qed.

Lemma daddr_writes_nonempty :
  daddr_writes wda wsp wdp wpr daddrs sports dports protos ≠ [].
Proof.
  apply bind_nonempty; [done|]. intros x.
  apply fmap_nonempty, sport_writes_nonempty.
Qed.

Lemma protocol_writes_quiet : silent wpr → quiet (protocol_writes wpr protos).
Proof.
  intros H. apply quiet_bind. intros x. rewrite (H x).
  by apply Forall_cons.
Qed.

Lemma dport_writes_quiet :
  silent wdp → silent wpr → quiet (dport_writes wdp wpr dports protos).
Proof.
  intros H1 H2. apply quiet_bind. intros x. rewrite (H1 x).
  apply quiet_fmap_overwrite. by apply protocol_writes_quiet.
Qed.

Lemma sport_writes_quiet :
  silent wsp → silent wdp → silent wpr →
  quiet (sport_writes wsp wdp wpr sports dports protos).
Proof.
  intros H1 H2 H3. apply quiet_bind. intros x. rewrite (H1 x).
  apply quiet_fmap_overwrite. by apply dport_writes_quiet.
Qed.

Lemma daddr_writes_quiet :
  silent wda → silent wsp → silent wdp → silent wpr →
  quiet (daddr_writes wda wsp wdp wpr daddrs sports dports protos).
Proof.
  intros H1 H2 H3 H4. apply quiet_bind. intros x. rewrite (H1 x).
  apply quiet_fmap_overwrite. by apply sport_writes_quiet.
Qed.

Lemma traces_protocol_loop :
  traces look (protocol_loop PROTO_MAP family protos)
    (protocol_writes wpr protos).
Proof.
  apply traces_for_each. intros pr.
  apply (traces_step look (protocol_step PROTO_MAP family pr)
           (λ st, Ok (append_rule st))).
  - apply protocol_step_look.
  - apply traces_append_rule.
  - right. split; [by apply Forall_cons | done].
Qed.

Lemma traces_dport_loop :
  traces look (dport_loop PROTO_MAP family dports protos)
    (dport_writes wdp wpr dports protos).
Proof.
  apply traces_for_each. intros dp.
  apply (traces_step look (dport_step dp) (protocol_loop PROTO_MAP family protos)).
  - apply dport_step_look.
  - apply traces_protocol_loop.
  - destruct one_writer_dport as [H|H]; [by left|right].
    split; [by apply protocol_writes_quiet | apply protocol_writes_nonempty].
Qed.

Lemma traces_sport_loop :
  traces look (sport_loop PROTO_MAP family sports dports protos)
    (sport_writes wsp wdp wpr sports dports protos).
Proof.
  apply traces_for_each. intros sp.
  apply (traces_step look (sport_step sp)
           (dport_loop PROTO_MAP family dports protos)).
  - apply sport_step_look.
  - apply traces_dport_loop.
  - destruct one_writer_sport as [H|[H1 H2]]; [by left|right].
    split; [by apply dport_writes_quiet | apply dport_writes_nonempty].
Qed.

Lemma traces_daddr_loop :
  traces look (daddr_loop PROTO_MAP family daddrs sports dports protos)
    (daddr_writes wda wsp wdp wpr daddrs sports dports protos).
Proof.
  apply traces_for_each. intros da.
  apply (traces_step look (daddr_step family da)
           (sport_loop PROTO_MAP family sports dports protos)).
  - apply daddr_step_look.
  - apply traces_sport_loop.
  - destruct one_writer_daddr as [H|(H1 & H2 & H3)]; [by left|right].
    split; [by apply sport_writes_quiet | apply sport_writes_nonempty].
Qed.

Lemma traces_saddr_loop (saddrs : list AddrItem) :
  traces look (saddr_loop PROTO_MAP family saddrs daddrs sports dports protos)
    (saddr_writes wsa wda wsp wdp wpr saddrs daddrs sports dports protos).
Proof.
  apply traces_for_each. intros sa.
  apply (traces_step look (saddr_step family sa)
           (daddr_loop PROTO_MAP family daddrs sports dports protos)).
  - apply saddr_step_look.
  - apply traces_daddr_loop.
  - destruct one_writer_saddr as [H|(H1 & H2 & H3 & H4)]; [by left|right].
    split; [by apply daddr_writes_quiet | apply daddr_writes_nonempty].
Qed.

(** The writes of the nest, iteration by iteration. *)
Lemma saddr_writes_iterations (saddrs : list AddrItem) :
  saddr_writes wsa wda wsp wdp wpr saddrs daddrs sports dports protos =
  (λ it, overwrite (wpr (it_proto it))
           (overwrite (wdp (it_dport it))
              (overwrite (wsp (it_sport it))
                 (overwrite (wda (it_daddr it)) (wsa (it_saddr it))))))
    <$> iterations saddrs daddrs sports dports protos.
Proof.
  unfold saddr_writes, daddr_writes, sport_writes, dport_writes,
    protocol_writes, iterations.
  rewrite fmap_bind_comm. apply list_bind_ext; [|done]. intros sa.
  rewrite !fmap_bind_comm. apply list_bind_ext; [|done]. intros da.
  rewrite !fmap_bind_comm. apply list_bind_ext; [|done]. intros sp.
  rewrite !fmap_bind_comm. apply list_bind_ext; [|done]. intros dp.
  rewrite !fmap_bind_comm. apply list_bind_ext; [|done]. intros pr.
  simpl. by rewrite !overwrite_assoc.
Qed.

End Nest.

(** * The setters, observed at a path and at a top-level key *)

Lemma write_at_field (p q : Path) (v : Value) : p.2 ≠ q.2 → write_at p q v = None.
Proof. intros H. unfold write_at. rewrite decide_False; [done|]. by intros ->. Qed.

Section Setters.

Variable PROTO_MAP : gmap string Z.
Variable family : string.

Lemma saddr_step_path (p : Path) (x : AddrItem) (d d' : Dict) :
  saddr_step family x d = Ok d' →
  lookup_path p d' = overwrite (saddr_write family p x) (lookup_path p d).
Proof.
  destruct x as [|a]; simpl; [by intros [= <-]|].
  apply lookup_path_setitem3.
Qed.

Lemma daddr_step_path (p : Path) (x : AddrItem) (d d' : Dict) :
  daddr_step family x d = Ok d' →
  lookup_path p d' = overwrite (daddr_write family p x) (lookup_path p d).
Proof.
  destruct x as [|a]; simpl; [by intros [= <-]|].
  apply lookup_path_setitem3.
Qed.

Lemma sport_step_path (p : Path) (x : Z * Z) (d d' : Dict) :
  sport_step x d = Ok d' →
  lookup_path p d' = overwrite (sport_write p x) (lookup_path p d).
Proof.
  unfold sport_step, sport_write. destruct (is_any_port x); simpl;
    [by intros [= <-]|].
  apply lookup_path_setitem3.
Qed.

Lemma dport_step_path (p : Path) (x : Z * Z) (d d' : Dict) :
  dport_step x d = Ok d' →
  lookup_path p d' = overwrite (dport_write p x) (lookup_path p d).
Proof.
  unfold dport_step, dport_write. destruct (is_any_port x); simpl;
    [by intros [= <-]|].
  apply lookup_path_setitem3.
Qed.

Lemma protocol_step_path (p : Path) (x : policy.Protocol) (d d' : Dict) :
  protocol_step PROTO_MAP family x d = Ok d' →
  lookup_path p d' = overwrite (proto_write PROTO_MAP family p x) (lookup_path p d).
Proof.
  unfold protocol_step, proto_write, proto_number.
  destruct x as [s|n]; [|apply lookup_path_setitem3].
  case_bool_decide; [|by intros [= <-]].
  destruct (PROTO_MAP !! s) as [n|]; [|done].
  apply lookup_path_setitem3.
Qed.

Lemma silent_saddr_write (p : Path) :
  p.2 ≠ "source-address" → silent (saddr_write family p).
Proof. intros H [|a]; [done|]. by apply write_at_field. Qed.

Lemma silent_daddr_write (p : Path) :
  p.2 ≠ "destination-address" → silent (daddr_write family p).
Proof. intros H [|a]; [done|]. by apply write_at_field. Qed.

Lemma silent_sport_write (p : Path) :
  p.2 ≠ "source-port" → silent (sport_write p).
Proof.
  intros H x. unfold sport_write. destruct (is_any_port x); [done|].
  by apply write_at_field.
Qed.

Lemma silent_dport_write (p : Path) :
  p.2 ≠ "destination-port" → silent (dport_write p).
Proof.
  intros H x. unfold dport_write. destruct (is_any_port x); [done|].
  by apply write_at_field.
Qed.

Lemma silent_proto_write (p : Path) :
  p.2 ≠ "protocol" → silent (proto_write PROTO_MAP family p).
Proof.
  intros H x. unfold proto_write.
  destruct (proto_number PROTO_MAP x) as [n|]; [|done].
  by apply write_at_field.
Qed.

Variable daddrs : list AddrItem.
Variable sports dports : list (Z * Z).
Variable protos : list policy.Protocol.
Hypothesis daddrs_nonempty : daddrs ≠ [].
Hypothesis sports_nonempty : sports ≠ [].
Hypothesis dports_nonempty : dports ≠ [].
Hypothesis protos_nonempty : protos ≠ [].

(** The field at a path, rule after rule: what it was before the loops,
    overwritten by the iterations that write it. *)
Lemma saddr_loop_path (p : Path) (saddrs : list AddrItem) (st st' : ConvertState) :
  saddr_loop PROTO_MAP family saddrs daddrs sports dports protos st = Ok st' →
  ∃ new, rules st' = rules st ++ new
         ∧ lookup_path p <$> new =
           carry (lookup_path p (term_dict st))
             (writes PROTO_MAP family p
                <$> iterations saddrs daddrs sports dports protos).
Proof.
  intros Hrun.
  pose proof (traces_saddr_loop PROTO_MAP family (lookup_path p)
    (saddr_write family p) (daddr_write family p) (sport_write p)
    (dport_write p) (proto_write PROTO_MAP family p)
    (saddr_step_path p) (daddr_step_path p) (sport_step_path p)
    (dport_step_path p) (protocol_step_path p)) as Htr.
  edestruct Htr as (new & Hnew & Hlook & _); [..|exact Hrun|].
  - destruct (decide (p.2 = "source-address")) as [Heq|Hne].
    + right. split_and!;
        [apply silent_daddr_write | apply silent_sport_write
        | apply silent_dport_write | apply silent_proto_write];
        by rewrite Heq.
    + left. by apply silent_saddr_write.
  - destruct (decide (p.2 = "destination-address")) as [Heq|Hne].
    + right. split_and!;
        [apply silent_sport_write | apply silent_dport_write
        | apply silent_proto_write]; by rewrite Heq.
    + left. by apply silent_daddr_write.
  - destruct (decide (p.2 = "source-port")) as [Heq|Hne].
    + right. split_and!;
        [apply silent_dport_write | apply silent_proto_write]; by rewrite Heq.
    + left. by apply silent_sport_write.
  - destruct (decide (p.2 = "destination-port")) as [Heq|Hne].
    + right. apply silent_proto_write. by rewrite Heq.
    + left. by apply silent_dport_write.
  - done.
  - done.
  - done.
  - done.
  - exists new. split; [done|].
    by rewrite Hlook, saddr_writes_iterations.
Qed.

(** A top-level key other than the family and ["transport"] is the same
    in every rule as before the loops. *)
Lemma saddr_loop_key (k : string) (saddrs : list AddrItem) (st st' : ConvertState) :
  k ≠ family → k ≠ "transport" →
  saddr_loop PROTO_MAP family saddrs daddrs sports dports protos st = Ok st' →
  ∃ new, rules st' = rules st ++ new
         ∧ Forall (λ e : Dict, e !! k = term_dict st !! k) new.
Proof.
  intros Hk1 Hk2 Hrun.
  pose proof (traces_saddr_loop PROTO_MAP family (λ d : Dict, d !! k)
    (λ _, None) (λ _, None) (λ _, None) (λ _, None) (λ _, None)) as Htr.
  edestruct Htr as (new & Hnew & Hlook & _); [..|exact Hrun|].
  - intros [|a] d d'; simpl; [by intros [= <-]|].
    intros H. by eapply lookup_setitem3_ne.
  - intros [|a] d d'; simpl; [by intros [= <-]|].
    intros H. by eapply lookup_setitem3_ne.
  - intros x d d'. unfold sport_step. destruct (is_any_port x); simpl;
      [by intros [= <-]|].
    intros H. by eapply lookup_setitem3_ne.
  - intros x d d'. unfold dport_step. destruct (is_any_port x); simpl;
      [by intros [= <-]|].
    intros H. by eapply lookup_setitem3_ne.
  - intros x d d'. unfold protocol_step. simpl.
    destruct x as [s|n]; [|intros H; by eapply lookup_setitem3_ne].
    case_bool_decide; [|by intros [= <-]].
    destruct (PROTO_MAP !! s) as [n|]; [|done].
    intros Hset. by eapply lookup_setitem3_ne.
  - by left.
  - by left.
  - by left.
  - by left.
  - done.
  - done.
  - done.
  - done.
  - exists new. split; [done|].
    rewrite carry_quiet in Hlook.
    2:{ rewrite saddr_writes_iterations. apply Forall_fmap, Forall_true. done. }
    apply Forall_forall. intros e He.
    apply list_elem_of_lookup in He as [i Hi].
    assert (((λ d : Dict, d !! k) <$> new) !! i = Some (e !! k)) as Hlk.
    { by rewrite list_lookup_fmap, Hi. }
    rewrite Hlook in Hlk. by apply lookup_replicate in Hlk as [<- _].
Qed.

End Setters.

(** * [ConvertToDict] before the loops *)

Lemma SetAction_empty (term : policy.Term) :
  SetAction term ∅ =
  match policy.action term with
  | [] => Raise IndexError
  | a :: _ =>
      match ACTION_MAP !! a with
      | None => Raise (KeyError a)
      | Some action => Ok (action_dict action)
      end
  end.
Proof.
  unfold SetAction. destruct (policy.action term) as [|a l]; [done|].
  destruct (ACTION_MAP !! a) as [action|]; [|done].
  reflexivity.
Qed.

Lemma SetOptions_action_dict (term : policy.Term) (action : string) :
  SetOptions term (action_dict action) =
  if bool_decide ("tcp-established" ∈ policy.option term) then
    if bool_decide (policy.protocol term ≠ [policy.ProtoName "tcp"]) then
      Raise (TcpEstablishedWithNonTcpError
               ("tcp-established can only be used with tcp protocol in term "
                  +:+ policy.name term))
    else Ok (established_dict action)
  else Ok (action_dict action).
Proof.
  unfold SetOptions.
  destruct (bool_decide ("tcp-established" ∈ policy.option term)) eqn:Hin.
  - rewrite bool_decide_true.
    2:{ apply bool_decide_eq_true in Hin. intros Hnil. rewrite Hnil in Hin.
        by apply not_elem_of_nil in Hin. }
    destruct (bool_decide (policy.protocol term ≠ [policy.ProtoName "tcp"]));
      [done|reflexivity].
  - by destruct (bool_decide (policy.option term ≠ [])).
Qed.

Lemma or_any_nonempty (addrs : list policy.Address) : or_any addrs ≠ [].
Proof. by destruct addrs. Qed.

Lemma or_default_nonempty {A : Type} (xs : list A) (x : A) : or_default xs x ≠ [].
Proof. by destruct xs. Qed.

Lemma length_or_any (addrs : list policy.Address) :
  length (or_any addrs) = dimension addrs.
Proof. destruct addrs; [done|]. unfold or_any. by rewrite length_fmap. Qed.

Lemma length_or_default {A : Type} (xs : list A) (x : A) :
  length (or_default xs x) = dimension xs.
Proof. by destruct xs. Qed.

Lemma dimension_pos {A : Type} (xs : list A) : (0 < dimension xs)%nat.
Proof. destruct xs; simpl; lia. Qed.

Lemma length_bind_const {A B : Type} (f : A → list B) (xs : list A) (n : nat) :
  (∀ x, length (f x) = n) → length (xs ≫= f) = (length xs * n)%nat.
Proof.
  intros Hf. induction xs as [|x xs IH]; [done|].
  rewrite bind_cons, length_app, Hf, IH. simpl. lia.
Qed.

Lemma length_iterations (saddrs daddrs : list AddrItem) (sports dports : list (Z * Z))
    (protos : list policy.Protocol) :
  length (iterations saddrs daddrs sports dports protos) =
  (length saddrs * (length daddrs * (length sports
     * (length dports * length protos))))%nat.
Proof.
  unfold iterations.
  apply length_bind_const. intros sa.
  apply length_bind_const. intros da.
  apply length_bind_const. intros sp.
  apply length_bind_const. intros dp.
  rewrite (length_bind_const _ _ 1%nat); [lia|done].
Qed.

Lemma shape3_initial_dict (term : policy.Term) : shape3 (initial_dict term).
Proof.
  assert (∀ a, shape3 (action_dict a)) as Haction.
  { intros a. apply map_Forall_singleton. eexists. split; [done|].
    apply map_Forall_singleton. by eexists. }
  unfold initial_dict. case_bool_decide; [|apply Haction].
  apply map_Forall_insert_2; [|apply Haction].
  eexists. split; [done|]. apply map_Forall_singleton. by eexists.
Qed.

Section Convert.

Variable AF_MAP : gmap string Z.
Variable PROTO_MAP : gmap string Z.

(** Once the family, the action and the option pass, the conversion is
    the loop nest started on [initial_dict]. *)
Lemma ConvertToDict_loops (term : policy.Term) (inet_version : string) :
  family_ok AF_MAP inet_version = true →
  action_ok term = true →
  option_ok term = true →
  ConvertToDict AF_MAP PROTO_MAP term inet_version =
  st ← saddr_loop PROTO_MAP (family_name AF_MAP inet_version)
         (saddrs_of term (af_of AF_MAP inet_version))
         (daddrs_of term (af_of AF_MAP inet_version))
         (sports_of term) (dports_of term) (protos_of term)
         {| term_dict := initial_dict term; rules := [] |};
  Ok (rules st).
Proof.
  unfold family_ok, action_ok, option_ok, ConvertToDict, family_of,
    family_name, af_of, initial_dict, action_name.
  intros Hf Ha Ho.
  destruct (AF_MAP !! inet_version) as [af|]; [|done]. simpl.
  apply bool_decide_eq_true in Hf as [family Hfamily]. rewrite Hfamily. simpl.
  rewrite SetAction_empty.
  destruct (policy.action term) as [|a l]; [done|]. simpl.
  apply bool_decide_eq_true in Ha as [action Haction]. rewrite Haction. simpl.
  rewrite SetOptions_action_dict.
  apply orb_true_iff in Ho as [Ho|Ho].
  - apply bool_decide_eq_true in Ho. by rewrite !bool_decide_false.
  - apply bool_decide_eq_true in Ho.
    case_bool_decide; [|done]. by rewrite bool_decide_false by tauto.
Qed.

(** A conversion that returns has passed the three checks. *)
Lemma ConvertToDict_checks (term : policy.Term) (inet_version : string)
    (rs : list Dict) :
  ConvertToDict AF_MAP PROTO_MAP term inet_version = Ok rs →
  family_ok AF_MAP inet_version = true ∧ action_ok term = true
  ∧ option_ok term = true.
Proof.
  unfold family_ok, action_ok, option_ok, ConvertToDict, family_of.
  destruct (AF_MAP !! inet_version) as [af|]; [|done].
  destruct (AF_RENAME !! af) as [family|] eqn:Hfamily; [|done]. simpl.
  rewrite SetAction_empty.
  destruct (policy.action term) as [|a l]; [done|].
  destruct (ACTION_MAP !! a) as [action|] eqn:Haction; [|done]. simpl.
  rewrite SetOptions_action_dict. intros Hrun. split_and!.
  - first [done | by apply bool_decide_eq_true].
  - first [done | by apply bool_decide_eq_true].
  - apply orb_true_iff.
    destruct (bool_decide ("tcp-established" ∈ policy.option term)) eqn:Hin.
    + right. apply bool_decide_eq_true.
      destruct (decide (policy.protocol term = [policy.ProtoName "tcp"]));
        [done|]. by rewrite bool_decide_true in Hrun.
    + left. apply bool_decide_eq_true. by apply bool_decide_eq_false in Hin.
Qed.

Lemma ConvertToDict_Ok (term : policy.Term) (inet_version : string)
    (rs : list Dict) :
  ConvertToDict AF_MAP PROTO_MAP term inet_version = Ok rs →
  ∃ st, saddr_loop PROTO_MAP (family_name AF_MAP inet_version)
          (saddrs_of term (af_of AF_MAP inet_version))
          (daddrs_of term (af_of AF_MAP inet_version))
          (sports_of term) (dports_of term) (protos_of term)
          {| term_dict := initial_dict term; rules := [] |} = Ok st
        ∧ rs = rules st.
Proof.
  intros Hrun.
  destruct (ConvertToDict_checks _ _ _ Hrun) as (Hf & Ha & Ho).
  rewrite ConvertToDict_loops in Hrun by done.
  apply bind_Ok in Hrun as (st & Hst & [= <-]). by exists st.
Qed.

(** The field at a path in the rules of a conversion. *)
Lemma ConvertToDict_path (term : policy.Term) (inet_version : string)
    (rs : list Dict) (p : Path) :
  ConvertToDict AF_MAP PROTO_MAP term inet_version = Ok rs →
  lookup_path p <$> rs =
  carry (lookup_path p (initial_dict term))
    (writes PROTO_MAP (family_name AF_MAP inet_version) p
       <$> iterations_of term (af_of AF_MAP inet_version)).
Proof.
  intros (st & Hst & ->)%ConvertToDict_Ok.
  eapply (saddr_loop_path _ _ _ _ _ _ (or_any_nonempty _)
            (or_default_nonempty _ _) (or_default_nonempty _ _)
            (or_default_nonempty _ _) p) in Hst as (new & -> & Hnew).
  done.
Qed.

(** The top-level keys of the rules, the family and ["transport"] apart. *)
Lemma ConvertToDict_key (term : policy.Term) (inet_version : string)
    (rs : list Dict) (k : string) :
  ConvertToDict AF_MAP PROTO_MAP term inet_version = Ok rs →
  k ≠ family_name AF_MAP inet_version → k ≠ "transport" →
  Forall (λ e : Dict, e !! k = initial_dict term !! k) rs.
Proof.
  intros (st & Hst & ->)%ConvertToDict_Ok Hk1 Hk2.
  eapply (saddr_loop_key _ _ _ _ _ _ (or_any_nonempty _)
            (or_default_nonempty _ _) (or_default_nonempty _ _)
            (or_default_nonempty _ _) k) in Hst as (new & -> & Hnew); done.
Qed.

(** One rule for each iteration. *)
Lemma ConvertToDict_length (term : policy.Term) (inet_version : string)
    (rs : list Dict) :
  ConvertToDict AF_MAP PROTO_MAP term inet_version = Ok rs →
  length rs = length (iterations_of term (af_of AF_MAP inet_version)).
Proof.
  intros Hrun.
  pose proof (ConvertToDict_path _ _ _ ("", "", "") Hrun) as Hp.
  apply (f_equal length) in Hp.
  by rewrite length_fmap, length_carry, length_fmap in Hp.
Qed.

Lemma length_iterations_of (term : policy.Term) (af : Z) :
  length (iterations_of term af) =
  (dimension (policy.GetAddressOfVersion (policy.flattened_saddr term) af)
   * dimension (policy.GetAddressOfVersion (policy.flattened_daddr term) af)
   * dimension (policy.source_port term)
   * dimension (policy.destination_port term)
   * dimension (policy.protocol term))%nat.
Proof.
  unfold iterations_of. rewrite length_iterations.
  unfold saddrs_of, daddrs_of, sports_of, dports_of, protos_of.
  rewrite !length_or_any, !length_or_default. lia.
Qed.

End Convert.

(** * When the loops return, and what they raise *)

Lemma for_each_Ok_elem {A S : Type} (xs : list A) (body : A → S → result S)
    (s s' : S) (x : A) :
  for_each xs body s = Ok s' → x ∈ xs → ∃ s1 s2, body x s1 = Ok s2.
Proof.
  revert s. induction xs as [|y xs IH]; intros s; simpl.
  - intros _ Hx. by apply not_elem_of_nil in Hx.
  - intros (s1 & H1 & H2)%bind_Ok [->|Hx]%elem_of_cons; [by eauto|].
    by eapply IH.
Qed.

Section Returns.

Variable PROTO_MAP : gmap string Z.
Variable family : string.

Lemma saddr_step_returns (x : AddrItem) (d : Dict) :
  shape3 d → ∃ d', saddr_step family x d = Ok d' ∧ shape3 d'.
Proof. destruct x; simpl; [by eauto|]. apply setitem3_shape3. Qed.

Lemma daddr_step_returns (x : AddrItem) (d : Dict) :
  shape3 d → ∃ d', daddr_step family x d = Ok d' ∧ shape3 d'.
Proof. destruct x; simpl; [by eauto|]. apply setitem3_shape3. Qed.

Lemma sport_step_returns (x : Z * Z) (d : Dict) :
  shape3 d → ∃ d', sport_step x d = Ok d' ∧ shape3 d'.
Proof.
  unfold sport_step. destruct (is_any_port x); simpl; [by eauto|].
  apply setitem3_shape3.
Qed.

Lemma dport_step_returns (x : Z * Z) (d : Dict) :
  shape3 d → ∃ d', dport_step x d = Ok d' ∧ shape3 d'.
Proof.
  unfold dport_step. destruct (is_any_port x); simpl; [by eauto|].
  apply setitem3_shape3.
Qed.

Lemma protocol_step_returns (x : policy.Protocol) (d : Dict) :
  resolvable PROTO_MAP x = true → shape3 d →
  ∃ d', protocol_step PROTO_MAP family x d = Ok d' ∧ shape3 d'.
Proof.
  destruct x as [s|n]; simpl; [|intros _; apply setitem3_shape3].
  intros [Hs|Hs]%orb_true_iff Hd; apply bool_decide_eq_true in Hs.
  - rewrite bool_decide_false by (by intros ?). by eauto.
  - case_bool_decide; [|by eauto].
    destruct Hs as [n ->]. by apply setitem3_shape3.
Qed.

Lemma protocol_step_resolvable (x : policy.Protocol) (d d' : Dict) :
  protocol_step PROTO_MAP family x d = Ok d' → resolvable PROTO_MAP x = true.
Proof.
  destruct x as [s|n]; simpl; [|done].
  case_bool_decide as Hs.
  - destruct (PROTO_MAP !! s) as [n|] eqn:Hn; [|done]. intros _.
    apply orb_true_iff. right. by apply bool_decide_eq_true.
  - intros _. apply orb_true_iff. left. apply bool_decide_eq_true.
    by destruct (decide (s = "none")).
Qed.

Lemma protocol_step_unknown (s : string) (d : Dict) :
  resolvable PROTO_MAP (policy.ProtoName s) = false →
  protocol_step PROTO_MAP family (policy.ProtoName s) d =
  Raise (OcFirewallError "Protocol %s unknown. Use an integer." s).
Proof.
  simpl. intros [Hs Hn]%orb_false_iff.
  apply bool_decide_eq_false in Hs, Hn.
  rewrite bool_decide_true by done.
  destruct (PROTO_MAP !! s) as [n|]; [|done]. by destruct Hn.
Qed.

(** An iteration returns when its setter and the nest inside do. *)
Lemma step_returns (set : Dict → result Dict)
    (inner : ConvertState → result ConvertState) (st : ConvertState) :
  (∀ d, shape3 d → ∃ d', set d = Ok d' ∧ shape3 d') →
  (∀ st1, well_shaped st1 → ∃ st2, inner st1 = Ok st2 ∧ well_shaped st2) →
  well_shaped st →
  ∃ st', (d ← set (term_dict st); inner (with_term_dict st d)) = Ok st'
         ∧ well_shaped st'.
Proof.
  intros Hset Hinner Hst.
  destruct (Hset _ Hst) as (d & -> & Hd). simpl. by apply Hinner.
Qed.

(** An iteration raises what the nest inside raises. *)
Lemma step_raises (set : Dict → result Dict)
    (inner : ConvertState → result ConvertState) (st : ConvertState)
    (e : Exception) :
  (∀ d, shape3 d → ∃ d', set d = Ok d' ∧ shape3 d') →
  (∀ st1, well_shaped st1 → inner st1 = Raise e) →
  well_shaped st →
  (d ← set (term_dict st); inner (with_term_dict st d)) = Raise e.
Proof.
  intros Hset Hinner Hst.
  destruct (Hset _ Hst) as (d & -> & Hd). simpl. by apply Hinner.
Qed.

Variable daddrs : list AddrItem.
Variable sports dports : list (Z * Z).
Variable protos : list policy.Protocol.

Lemma protocol_loop_returns (st : ConvertState) :
  forallb (resolvable PROTO_MAP) protos = true → well_shaped st →
  ∃ st', protocol_loop PROTO_MAP family protos st = Ok st' ∧ well_shaped st'.
Proof.
  intros Hres Hst. rewrite forallb_forall in Hres.
  apply (for_each_returns well_shaped); [|done].
  intros x st1 Hx Hst1.
  destruct (protocol_step_returns x (term_dict st1)) as (d & -> & Hd);
    [|done|by eexists].
  by apply Hres, list_elem_of_In.
Qed.

Hypothesis protos_resolvable : forallb (resolvable PROTO_MAP) protos = true.

Lemma dport_loop_returns (st : ConvertState) :
  well_shaped st →
  ∃ st', dport_loop PROTO_MAP family dports protos st = Ok st' ∧ well_shaped st'.
Proof.
  apply (for_each_returns well_shaped). intros x st1 _.
  apply step_returns; [apply dport_step_returns|].
  intros st2. by apply protocol_loop_returns.
Qed.

Lemma sport_loop_returns (st : ConvertState) :
  well_shaped st →
  ∃ st', sport_loop PROTO_MAP family sports dports protos st = Ok st'
         ∧ well_shaped st'.
Proof.
  apply (for_each_returns well_shaped). intros x st1 _.
  apply step_returns; [apply sport_step_returns|apply dport_loop_returns].
Qed.

Lemma daddr_loop_returns (st : ConvertState) :
  well_shaped st →
  ∃ st', daddr_loop PROTO_MAP family daddrs sports dports protos st = Ok st'
         ∧ well_shaped st'.
Proof.
  apply (for_each_returns well_shaped). intros x st1 _.
  apply step_returns; [apply daddr_step_returns|apply sport_loop_returns].
Qed.

Lemma saddr_loop_returns (saddrs : list AddrItem) (st : ConvertState) :
  well_shaped st →
  ∃ st', saddr_loop PROTO_MAP family saddrs daddrs sports dports protos st = Ok st'
         ∧ well_shaped st'.
Proof.
  apply (for_each_returns well_shaped). intros x st1 _.
  apply step_returns; [apply saddr_step_returns|apply daddr_loop_returns].
Qed.

End Returns.

Section Raises.

Variable PROTO_MAP : gmap string Z.
Variable family : string.

(** The protocol loop stops at the first name it cannot resolve. *)
Lemma protocol_loop_raises (protos : list policy.Protocol) (tok : string)
    (st : ConvertState) :
  first_unknown PROTO_MAP protos = Some tok → well_shaped st →
  protocol_loop PROTO_MAP family protos st =
  Raise (OcFirewallError "Protocol %s unknown. Use an integer." tok).
Proof.
  revert st. induction protos as [|x protos IH]; intros st; [done|].
  cbn [first_unknown]. unfold protocol_loop. cbn [for_each].
  destruct (resolvable PROTO_MAP x) eqn:Hx.
  - intros Htok Hst.
    destruct (protocol_step_returns PROTO_MAP family x _ Hx Hst) as (d & -> & Hd).
    simpl. by apply IH.
  - destruct x as [s|n]; [|done]. intros [= ->] _.
    by rewrite protocol_step_unknown.
Qed.

Variable saddrs daddrs : list AddrItem.
Variable sports dports : list (Z * Z).
Variable protos : list policy.Protocol.
Variable tok : string.
Hypothesis saddrs_nonempty : saddrs ≠ [].
Hypothesis daddrs_nonempty : daddrs ≠ [].
Hypothesis sports_nonempty : sports ≠ [].
Hypothesis dports_nonempty : dports ≠ [].
Hypothesis protos_unknown : first_unknown PROTO_MAP protos = Some tok.

(** So does every loop around it, in its first iteration. *)
Lemma dport_loop_raises (st : ConvertState) :
  well_shaped st →
  dport_loop PROTO_MAP family dports protos st =
  Raise (OcFirewallError "Protocol %s unknown. Use an integer." tok).
Proof.
  intros Hst. unfold dport_loop.
  destruct dports as [|x l]; [done|]. apply for_each_raises_first.
  apply step_raises; [apply dport_step_returns| |done].
  intros st1. by apply protocol_loop_raises.
Qed.

Lemma sport_loop_raises (st : ConvertState) :
  well_shaped st →
  sport_loop PROTO_MAP family sports dports protos st =
  Raise (OcFirewallError "Protocol %s unknown. Use an integer." tok).
Proof.
  intros Hst. unfold sport_loop.
  destruct sports as [|x l]; [done|]. apply for_each_raises_first.
  apply step_raises; [apply sport_step_returns|apply dport_loop_raises|done].
Qed.

Lemma daddr_loop_raises (st : ConvertState) :
  well_shaped st →
  daddr_loop PROTO_MAP family daddrs sports dports protos st =
  Raise (OcFirewallError "Protocol %s unknown. Use an integer." tok).
Proof.
  intros Hst. unfold daddr_loop.
  destruct daddrs as [|x l]; [done|]. apply for_each_raises_first.
  apply step_raises; [apply daddr_step_returns|apply sport_loop_raises|done].
Qed.

Lemma saddr_loop_raises (st : ConvertState) :
  well_shaped st →
  saddr_loop PROTO_MAP family saddrs daddrs sports dports protos st =
  Raise (OcFirewallError "Protocol %s unknown. Use an integer." tok).
Proof.
  intros Hst. unfold saddr_loop.
  destruct saddrs as [|x l]; [done|]. apply for_each_raises_first.
  apply step_raises; [apply saddr_step_returns|apply daddr_loop_raises|done].
Qed.

End Raises.

Lemma nonempty_elem {A : Type} (xs : list A) : xs ≠ [] → ∃ x, x ∈ xs.
Proof. destruct xs as [|x xs]; [done|]. intros _. exists x. by left. Qed.

Section Convertible.

Variable AF_MAP : gmap string Z.
Variable PROTO_MAP : gmap string Z.

(** Loops that return have resolved every protocol of the list. *)
Lemma saddr_loop_resolvable (family : string) (saddrs daddrs : list AddrItem)
    (sports dports : list (Z * Z)) (protos : list policy.Protocol)
    (st st' : ConvertState) :
  saddrs ≠ [] → daddrs ≠ [] → sports ≠ [] → dports ≠ [] →
  saddr_loop PROTO_MAP family saddrs daddrs sports dports protos st = Ok st' →
  forallb (resolvable PROTO_MAP) protos = true.
Proof.
  intros [sa Hsa]%nonempty_elem [da Hda]%nonempty_elem
    [sp Hsp]%nonempty_elem [dp Hdp]%nonempty_elem Hrun.
  destruct (for_each_Ok_elem _ _ _ _ _ Hrun Hsa)
    as (s1 & s2 & (d1 & _ & Hrun1)%bind_Ok).
  destruct (for_each_Ok_elem _ _ _ _ _ Hrun1 Hda)
    as (s3 & s4 & (d2 & _ & Hrun2)%bind_Ok).
  destruct (for_each_Ok_elem _ _ _ _ _ Hrun2 Hsp)
    as (s5 & s6 & (d3 & _ & Hrun3)%bind_Ok).
  destruct (for_each_Ok_elem _ _ _ _ _ Hrun3 Hdp)
    as (s7 & s8 & (d4 & _ & Hrun4)%bind_Ok).
  apply forallb_forall. intros pr Hpr%list_elem_of_In.
  destruct (for_each_Ok_elem _ _ _ _ _ Hrun4 Hpr)
    as (s9 & s10 & (d5 & Hstep & _)%bind_Ok).
  by eapply protocol_step_resolvable.
Qed.

Lemma resolvable_protos_of (term : policy.Term) :
  forallb (resolvable PROTO_MAP) (protos_of term) =
  forallb (resolvable PROTO_MAP) (policy.protocol term).
Proof. unfold protos_of. by destruct (policy.protocol term). Qed.

(** [convertible] is the condition under which [ConvertToDict] returns. *)
Lemma ConvertToDict_returns (term : policy.Term) (inet_version : string) :
  convertible AF_MAP PROTO_MAP term inet_version = true →
  ∃ rs, ConvertToDict AF_MAP PROTO_MAP term inet_version = Ok rs.
Proof.
  unfold convertible.
  intros [[[Hf Ha]%andb_true_iff Ho]%andb_true_iff Hp]%andb_true_iff.
  rewrite ConvertToDict_loops by done.
  rewrite <- resolvable_protos_of in Hp.
  edestruct (saddr_loop_returns PROTO_MAP) as (st & -> & _); [exact Hp| |].
  - apply shape3_initial_dict.
  - by eexists.
Qed.

Lemma ConvertToDict_convertible (term : policy.Term) (inet_version : string)
    (rs : list Dict) :
  ConvertToDict AF_MAP PROTO_MAP term inet_version = Ok rs →
  convertible AF_MAP PROTO_MAP term inet_version = true.
Proof.
  intros Hrun.
  destruct (ConvertToDict_checks _ _ _ _ _ Hrun) as (Hf & Ha & Ho).
  destruct (ConvertToDict_Ok _ _ _ _ _ Hrun) as (st & Hst & _).
  unfold convertible. rewrite Hf, Ha, Ho. simpl.
  rewrite <- resolvable_protos_of.
  eapply saddr_loop_resolvable; [..|exact Hst];
    first [apply or_any_nonempty | apply or_default_nonempty].
Qed.

(** With the three checks passed, a protocol name that the table does not
    resolve raises [OcFirewallError], with the message and the first such
    name as arguments. *)
Lemma ConvertToDict_raises_unknown (term : policy.Term) (inet_version tok : string) :
  family_ok AF_MAP inet_version = true →
  action_ok term = true →
  option_ok term = true →
  first_unknown PROTO_MAP (policy.protocol term) = Some tok →
  ConvertToDict AF_MAP PROTO_MAP term inet_version =
  Raise (OcFirewallError "Protocol %s unknown. Use an integer." tok).
Proof.
  intros Hf Ha Ho Htok.
  rewrite ConvertToDict_loops by done.
  rewrite saddr_loop_raises with (tok := tok); [done|..].
  - apply or_any_nonempty.
  - apply or_any_nonempty.
  - apply or_default_nonempty.
  - apply or_default_nonempty.
  - unfold protos_of. by destruct (policy.protocol term).
  - apply shape3_initial_dict.
Qed.

End Convertible.

(** * Numbering *)

Lemma number_from_nil (count : Z) : number_from count [] = [].
Proof. done. Qed.

Lemma number_from_cons (count : Z) (rule : Dict) (rules : list Dict) :
  number_from count (rule :: rules) =
  <["sequence-id" := VInt ((count + 1) * 5)]> rule :: number_from (count + 1) rules.
Proof.
  unfold number_from. rewrite imap_cons. f_equal.
  - do 3 f_equal. lia.
  - apply imap_ext. intros i x _. simpl. do 3 f_equal. lia.
Qed.

Lemma number_from_app (count : Z) (rules1 rules2 : list Dict) :
  number_from count (rules1 ++ rules2) =
  number_from count rules1
    ++ number_from (count + Z.of_nat (length rules1)) rules2.
Proof.
  revert count. induction rules1 as [|r rules1 IH]; intros count.
  - simpl. f_equal. lia.
  - rewrite <- app_comm_cons, !number_from_cons, IH. simpl length.
    rewrite <- app_comm_cons. do 3 f_equal. lia.
Qed.

Lemma length_number_from (count : Z) (rules : list Dict) :
  length (number_from count rules) = length rules.
Proof. apply length_imap. Qed.

Lemma sequence_id_number_from (count : Z) (rules : list Dict) :
  (λ e : Dict, e !! "sequence-id") <$> number_from count rules =
  stride_ids count (Z.of_nat (length rules)).
Proof.
  unfold stride_ids. revert count.
  induction rules as [|r rules IH]; intros count; [done|].
  rewrite number_from_cons, fmap_cons, IH, lookup_insert_eq.
  rewrite (seqZ_cons (count + 1)) by (simpl; lia).
  rewrite fmap_cons. do 3 f_equal; simpl length; lia.
Qed.

Lemma stride_ids_app (count n1 n2 : Z) :
  0 ≤ n1 → 0 ≤ n2 →
  stride_ids count (n1 + n2) = stride_ids count n1 ++ stride_ids (count + n1) n2.
Proof.
  intros H1 H2. unfold stride_ids.
  rewrite seqZ_app, fmap_app by done. do 3 f_equal. lia.
Qed.

(** Numbering changes the key ["sequence-id"] and no other. *)
Lemma number_from_lookup (count : Z) (rules : list Dict) (i : nat) (e : Dict) :
  number_from count rules !! i = Some e →
  ∃ r, rules !! i = Some r
       ∧ e = <["sequence-id" := VInt ((count + Z.of_nat i + 1) * 5)]> r.
Proof.
  unfold number_from. rewrite list_lookup_imap.
  destruct (rules !! i) as [r|]; [|done]. intros [= <-]. by exists r.
Qed.

Lemma advance_nil (st : TermsState) : advance st [] = st.
Proof.
  destruct st as [[c sets] entries]. unfold advance. simpl.
  rewrite app_nil_r. do 2 f_equal. lia.
Qed.

Lemma advance_app (st : TermsState) (rules1 rules2 : list Dict) :
  advance (advance st rules1) rules2 = advance st (rules1 ++ rules2).
Proof.
  unfold advance. simpl. rewrite number_from_app, length_app, app_assoc.
  do 2 f_equal. lia.
Qed.

(** * The translator *)

Section Translate.

Variable base_init : policy.Term → option Exception.
Variable AF_MAP : gmap string Z.
Variable PROTO_MAP : gmap string Z.
Variable _SUPPORTED_AF : list string.

Lemma rule_loop_advance (rs : list Dict) (st : TermsState) :
  rule_loop rs st = Ok (advance st rs).
Proof.
  revert st. induction rs as [|r rs IH]; intros st.
  - by rewrite advance_nil.
  - unfold rule_loop. cbn [for_each]. simpl.
    change (for_each rs _ ?s) with (rule_loop rs s). rewrite IH.
    f_equal. unfold advance. simpl.
    rewrite number_from_cons, <- app_assoc. simpl.
    do 2 f_equal. lia.
Qed.

(** The constructor returns the term and the family, or raises. *)
Lemma TERM_Ok (term : policy.Term) (inet_version : string)
    (t : policy.Term * string) :
  _TERM base_init term inet_version = Ok t →
  constructible base_init term = true ∧ t = (term, inet_version).
Proof.
  unfold _TERM, constructible. destruct (base_init term); [done|].
  by intros [= <-].
Qed.

Lemma TERM_constructible (term : policy.Term) (inet_version : string) :
  constructible base_init term = true →
  _TERM base_init term inet_version = Ok (term, inet_version).
Proof. unfold _TERM, constructible. by destruct (base_init term). Qed.

(** The loop over the families of one term. *)
Lemma family_loop_Ok (term : policy.Term) (families : list string)
    (st st' : TermsState) :
  for_each families (λ term_af st,
    t ← _TERM base_init term term_af;
    rs ← ConvertToDict AF_MAP PROTO_MAP t.1 t.2; rule_loop rs st) st = Ok st' →
  st' = advance st (term_af ← families;
                    rules_of (ConvertToDict AF_MAP PROTO_MAP term term_af))
  ∧ forallb (λ term_af, constructible base_init term
                        && convertible AF_MAP PROTO_MAP term term_af)
      families = true.
Proof.
  revert st. induction families as [|v families IH]; intros st; cbn [for_each].
  - intros [= <-]. by rewrite advance_nil.
  - intros (st1 & (t & [Hinit ->]%TERM_Ok & (rs & Hrs & Hloop)%bind_Ok)%bind_Ok
            & Hrest)%bind_Ok.
    cbn [fst snd] in Hrs.
    rewrite rule_loop_advance in Hloop. injection Hloop as <-.
    destruct (IH _ Hrest) as [-> Hconv].
    rewrite bind_cons, Hrs, advance_app. cbn [forallb rules_of].
    by rewrite Hconv, Hinit, (ConvertToDict_convertible _ _ _ _ _ Hrs).
Qed.

Lemma family_loop_returns (term : policy.Term) (families : list string)
    (st : TermsState) :
  forallb (λ term_af, constructible base_init term
                      && convertible AF_MAP PROTO_MAP term term_af)
    families = true →
  ∃ st', for_each families (λ term_af st,
           t ← _TERM base_init term term_af;
           rs ← ConvertToDict AF_MAP PROTO_MAP t.1 t.2; rule_loop rs st) st
         = Ok st'.
Proof.
  revert st. induction families as [|v families IH]; intros st; cbn [for_each].
  - by eexists.
  - cbn [forallb]. intros [[Hinit Hv]%andb_true_iff Hrest]%andb_true_iff.
    rewrite (TERM_constructible _ v Hinit).
    destruct (ConvertToDict_returns _ _ _ _ Hv) as [rs Hrs].
    cbn [mbind result_bind fst snd]. rewrite Hrs.
    cbn [mbind result_bind]. rewrite rule_loop_advance.
    cbn [mbind result_bind]. by apply IH.
Qed.

Lemma term_loop_Ok (terms : list policy.Term) (address_family : string)
    (st st' : TermsState) :
  term_loop base_init AF_MAP PROTO_MAP terms address_family st = Ok st' →
  st' = advance st (expansion AF_MAP PROTO_MAP terms address_family)
  ∧ terms_convertible base_init AF_MAP PROTO_MAP terms address_family = true.
Proof.
  unfold term_loop, expansion, terms_convertible.
  revert st. induction terms as [|t terms IH]; intros st; cbn [for_each].
  - intros [= <-]. by rewrite advance_nil.
  - intros (st1 & [-> Hconv]%family_loop_Ok & Hrest)%bind_Ok.
    destruct (IH _ Hrest) as [-> Hconvs].
    rewrite bind_cons, advance_app. simpl. by rewrite Hconv, Hconvs.
Qed.

Lemma term_loop_returns (terms : list policy.Term) (address_family : string)
    (st : TermsState) :
  terms_convertible base_init AF_MAP PROTO_MAP terms address_family = true →
  ∃ st', term_loop base_init AF_MAP PROTO_MAP terms address_family st = Ok st'.
Proof.
  unfold term_loop, terms_convertible.
  revert st. induction terms as [|t terms IH]; intros st; cbn [for_each].
  - by eexists.
  - simpl. intros [Ht Hrest]%andb_true_iff.
    destruct (family_loop_returns t _ st Ht) as [st1 ->]. simpl. by apply IH.
Qed.

(** The rule set [_TranslateTerms] appends, and the counter it leaves. *)
Lemma _TranslateTerms_Ok (self0 self1 : OpenConfig) (terms : list policy.Term)
    (address_family filter_name : string) (hdr_comments filter_options : list string) :
  _TranslateTerms base_init AF_MAP PROTO_MAP self0 terms address_family filter_name
    hdr_comments filter_options = Ok self1 →
  ∃ oc_type, FAMILY_MAP !! address_family = Some oc_type
    ∧ terms_convertible base_init AF_MAP PROTO_MAP terms address_family = true
    ∧ self1 =
      {| total_rule_count :=
           total_rule_count self0
           + Z.of_nat (length (expansion AF_MAP PROTO_MAP terms address_family));
         acl_sets :=
           acl_sets self0 ++
           [ {| acl_entry :=
                  number_from (total_rule_count self0)
                    (expansion AF_MAP PROTO_MAP terms address_family);
                config_name := filter_name; config_type := oc_type;
                set_name := filter_name; set_type := oc_type |} ] |}.
Proof.
  unfold _TranslateTerms.
  intros (st & [-> Hconv]%term_loop_Ok & Hset)%bind_Ok.
  destruct (FAMILY_MAP !! address_family) as [oc_type|]; [|done].
  injection Hset as <-. by exists oc_type.
Qed.

Lemma _TranslateTerms_returns (self0 : OpenConfig) (terms : list policy.Term)
    (address_family filter_name : string) (hdr_comments filter_options : list string) :
  terms_convertible base_init AF_MAP PROTO_MAP terms address_family = true →
  is_Some (FAMILY_MAP !! address_family) →
  ∃ self1, _TranslateTerms base_init AF_MAP PROTO_MAP self0 terms address_family
             filter_name hdr_comments filter_options = Ok self1.
Proof.
  intros Hconv [oc_type Hty]. unfold _TranslateTerms.
  destruct (term_loop_returns terms address_family
              {| self := self0; oc_acl_entries := [] |} Hconv) as [st ->].
  simpl. rewrite Hty. by eexists.
Qed.

End Translate.

Section TranslatePolicy.

Variable base_init : policy.Term → option Exception.
Variable AF_MAP : gmap string Z.
Variable PROTO_MAP : gmap string Z.
Variable _SUPPORTED_AF : list string.

Lemma all_entries_snoc (count : Z) (sets : list ACLSet) (s : ACLSet) :
  all_entries {| total_rule_count := count; acl_sets := sets ++ [s] |} =
  (sets ≫= acl_entry) ++ acl_entry s.
Proof. unfold all_entries. simpl. by rewrite bind_app, bind_singleton. Qed.

(** The loop over the filters: the entries it adds are the rules of the
    filters, numbered on from the counter it starts with. *)
Lemma filter_loop_Ok (filters : list (policy.Header * list policy.Term))
    (st st' : OpenConfig * option string) :
  for_each filters (λ filter (st : OpenConfig * option string),
    self2 ← _TranslateTerms base_init AF_MAP PROTO_MAP st.1 filter.2
              (select_family _SUPPORTED_AF (policy.FilterOptions filter.1)).1
              (policy.FilterName filter.1) (policy.header_comment filter.1)
              (select_family _SUPPORTED_AF (policy.FilterOptions filter.1)).2;
    Ok (self2, Some (policy.FilterName filter.1))) st = Ok st' →
  let new := filter ← filters;
             expansion AF_MAP PROTO_MAP filter.2 (filter_family _SUPPORTED_AF filter) in
  all_entries st'.1 = all_entries st.1 ++ number_from (total_rule_count st.1) new
  ∧ total_rule_count st'.1 = total_rule_count st.1 + Z.of_nat (length new)
  ∧ forallb (filter_ok base_init AF_MAP PROTO_MAP _SUPPORTED_AF) filters = true
  ∧ (filters = [] → st' = st)
  ∧ (filters ≠ [] → is_Some st'.2).
Proof.
  revert st. induction filters as [|f filters IH]; intros st; cbn [for_each].
  - intros [= <-]. simpl. rewrite app_nil_r. split_and!; [done|lia|done..].
  - intros (st1 & (self2 & Hterms & [= <-])%bind_Ok & Hrest)%bind_Ok.
    apply _TranslateTerms_Ok in Hterms as (oc_type & Hty & Hconv & ->).
    destruct (IH _ Hrest) as (Hentries & Htotal & Hok & Hnil & Hsome).
    cbv zeta in *. cbn [fst snd total_rule_count acl_sets] in *.
    rewrite bind_cons.
    fold (filter_family _SUPPORTED_AF f) in *.
    split_and!.
    + rewrite Hentries, all_entries_snoc.
      by rewrite number_from_app, app_assoc.
    + rewrite Htotal, length_app. lia.
    + cbn [forallb]. unfold filter_ok at 1. rewrite Hconv, Hok, andb_true_r.
      cbn [andb]. apply bool_decide_eq_true. by eexists.
    + done.
    + intros _. destruct filters as [|f' filters'].
      * by rewrite (Hnil eq_refl).
      * by apply Hsome.
Qed.

Lemma filter_loop_returns (filters : list (policy.Header * list policy.Term))
    (st : OpenConfig * option string) :
  forallb (filter_ok base_init AF_MAP PROTO_MAP _SUPPORTED_AF) filters = true →
  ∃ st', for_each filters (λ filter (st : OpenConfig * option string),
    self2 ← _TranslateTerms base_init AF_MAP PROTO_MAP st.1 filter.2
              (select_family _SUPPORTED_AF (policy.FilterOptions filter.1)).1
              (policy.FilterName filter.1) (policy.header_comment filter.1)
              (select_family _SUPPORTED_AF (policy.FilterOptions filter.1)).2;
    Ok (self2, Some (policy.FilterName filter.1))) st = Ok st'.
Proof.
  revert st. induction filters as [|f filters IH]; intros st; cbn [for_each].
  - by eexists.
  - simpl. intros [[Hconv Hty%bool_decide_eq_true]%andb_true_iff Hrest]%andb_true_iff.
    edestruct _TranslateTerms_returns as [self2 ->]; [exact Hconv|exact Hty|].
    simpl. by apply IH.
Qed.

(** The entries of a run are the rules of the policy, numbered from 0. *)
Lemma _TranslatePolicy_Ok (self0 self1 : OpenConfig) (pol : policy.Policy) :
  _TranslatePolicy base_init AF_MAP PROTO_MAP _SUPPORTED_AF self0 pol = Ok self1 →
  all_entries self1 =
    number_from 0 (policy_rules AF_MAP PROTO_MAP _SUPPORTED_AF pol)
  ∧ total_rule_count self1 =
    Z.of_nat (length (policy_rules AF_MAP PROTO_MAP _SUPPORTED_AF pol))
  ∧ policy_ok base_init AF_MAP PROTO_MAP _SUPPORTED_AF pol = true.
Proof.
  unfold _TranslatePolicy.
  intros ([o fn] & Hloop & Hname)%bind_Ok.
  apply filter_loop_Ok in Hloop as (Hentries & Htotal & Hok & Hnil & Hsome).
  simpl in *. destruct fn as [name|]; [|done]. injection Hname as <-.
  unfold policy_rules. split_and!; [done|lia|].
  unfold policy_ok. rewrite Hok, andb_true_r. apply bool_decide_eq_true.
  intros Hfilters. by specialize (Hnil Hfilters).
Qed.

Lemma _TranslatePolicy_returns (self0 : OpenConfig) (pol : policy.Policy) :
  policy_ok base_init AF_MAP PROTO_MAP _SUPPORTED_AF pol = true →
  ∃ self1, _TranslatePolicy base_init AF_MAP PROTO_MAP _SUPPORTED_AF self0 pol = Ok self1.
Proof.
  unfold policy_ok, _TranslatePolicy.
  intros [Hne%bool_decide_eq_true Hok]%andb_true_iff.
  edestruct filter_loop_returns as [[o fn] Hloop]; [exact Hok|].
  rewrite Hloop. simpl.
  apply filter_loop_Ok in Hloop as (_ & _ & _ & _ & Hsome).
  destruct (Hsome Hne) as [name Hname]. simpl in Hname. rewrite Hname.
  by eexists.
Qed.

(** Every entry of a run is a rule of the conversion of one term, with
    its sequence identifier added. *)
Lemma all_entries_Forall (P : Dict → Prop) (self0 self1 : OpenConfig)
    (pol : policy.Policy) :
  (∀ term inet_version rs e n,
     ConvertToDict AF_MAP PROTO_MAP term inet_version = Ok rs → e ∈ rs →
     P (<["sequence-id" := VInt n]> e)) →
  _TranslatePolicy base_init AF_MAP PROTO_MAP _SUPPORTED_AF self0 pol = Ok self1 →
  Forall P (all_entries self1).
Proof.
  intros HP Hrun. apply _TranslatePolicy_Ok in Hrun as (Hentries & _ & _).
  rewrite Hentries. apply Forall_lookup. intros i e (r & Hr & ->)%number_from_lookup.
  apply list_elem_of_lookup_2 in Hr.
  unfold policy_rules, expansion in Hr.
  apply list_elem_of_bind in Hr as (f & Hr & _).
  apply list_elem_of_bind in Hr as (term & Hr & _).
  apply list_elem_of_bind in Hr as (v & Hr & _).
  destruct (ConvertToDict AF_MAP PROTO_MAP term v) as [rs|] eqn:Hrs.
  - by eapply HP.
  - by apply not_elem_of_nil in Hr.
Qed.

End TranslatePolicy.

(** * Consequences for single rules *)

Lemma carry_written {V : Type} (c : option V) (ws : list (option V)) (i : nat) (v : V) :
  ws !! i = Some (Some v) → carry c ws !! i = Some (Some v).
Proof.
  revert c i. induction ws as [|w ws IH]; intros c i; [done|].
  destruct i as [|i]; simpl.
  - by intros [= ->].
  - apply IH.
Qed.

Lemma carry_elem {V : Type} (c : option V) (ws : list (option V)) (x : option V) :
  x ∈ carry c ws → x = c ∨ x ∈ ws.
Proof.
  revert c. induction ws as [|w ws IH]; intros c; simpl.
  - by intros ?%not_elem_of_nil.
  - intros [->|Hx]%elem_of_cons.
    + destruct w; simpl; [right; by left | by left].
    + destruct (IH _ Hx) as [->|Hin]; [|right; by right].
      destruct w; simpl; [right; by left | by left].
Qed.

Lemma writes_other_field (PROTO_MAP : gmap string Z) (family : string) (p : Path)
    (it : Iteration) :
  p.2 ∉ ["source-address"; "destination-address"; "source-port";
         "destination-port"; "protocol"] →
  writes PROTO_MAP family p it = None.
Proof.
  intros Hp. unfold writes.
  rewrite silent_proto_write, silent_dport_write, silent_sport_write,
    silent_daddr_write, silent_saddr_write; [done|..];
    intros Heq; apply Hp; rewrite Heq;
    by apply (proj1 (bool_decide_eq_true _)).
Qed.

Lemma writes_transport_protocol (PROTO_MAP : gmap string Z) (family : string)
    (it : Iteration) :
  family ≠ "transport" →
  writes PROTO_MAP family ("transport", "config", "protocol") it = None.
Proof.
  intros Hf. unfold writes.
  rewrite silent_dport_write, silent_sport_write,
    silent_daddr_write, silent_saddr_write by done. simpl.
  unfold proto_write. destruct (proto_number _ _) as [n|]; [|done]. simpl.
  unfold write_at. rewrite decide_False; [done|]. by intros [= <-].
Qed.

Lemma writes_protocol (PROTO_MAP : gmap string Z) (family : string)
    (it : Iteration) (n : Z) :
  proto_number PROTO_MAP (it_proto it) = Some n →
  writes PROTO_MAP family (family, "config", "protocol") it = Some (VInt n).
Proof.
  intros Hn. unfold writes, proto_write, write_at. rewrite Hn. simpl.
  by rewrite decide_True.
Qed.

Lemma family_name_cases (AF_MAP : gmap string Z) (inet_version : string) :
  family_ok AF_MAP inet_version = true →
  family_name AF_MAP inet_version = "ipv4" ∨ family_name AF_MAP inet_version = "ipv6".
Proof.
  unfold family_ok, family_name.
  destruct (AF_MAP !! inet_version) as [af|]; [|done]. simpl.
  intros [f Hf]%bool_decide_eq_true. rewrite Hf. simpl.
  unfold AF_RENAME in Hf. simpl in Hf.
  apply lookup_insert_Some in Hf as [[_ <-]|[_ Hf]]; [by left|].
  apply lookup_insert_Some in Hf as [[_ <-]|[_ Hf]]; [by right|].
  by rewrite lookup_empty in Hf.
Qed.

Lemma convertible_family_ok (AF_MAP PROTO_MAP : gmap string Z) (term : policy.Term)
    (inet_version : string) :
  convertible AF_MAP PROTO_MAP term inet_version = true →
  family_ok AF_MAP inet_version = true.
Proof.
  unfold convertible.
  by intros [[[Hf _]%andb_true_iff _]%andb_true_iff _]%andb_true_iff.
Qed.

Section Rules.

Variable AF_MAP : gmap string Z.
Variable PROTO_MAP : gmap string Z.
Variable term : policy.Term.
Variable inet_version : string.
Variable rs : list Dict.
Hypothesis conversion :
  ConvertToDict AF_MAP PROTO_MAP term inet_version = Ok rs.

(** The rule of an iteration holds what the iteration writes. *)
Lemma rule_written (p : Path) (i : nat) (it : Iteration) (e : Dict) (v : Value) :
  iterations_of term (af_of AF_MAP inet_version) !! i = Some it →
  rs !! i = Some e →
  writes PROTO_MAP (family_name AF_MAP inet_version) p it = Some v →
  lookup_path p e = Some v.
Proof.
  intros Hit He Hw.
  pose proof (ConvertToDict_path _ _ _ _ _ p conversion) as Hp.
  assert ((lookup_path p <$> rs) !! i = Some (lookup_path p e)) as Hl.
  { by rewrite list_lookup_fmap, He. }
  rewrite Hp in Hl.
  erewrite carry_written in Hl; [by injection Hl|].
  by rewrite list_lookup_fmap, Hit, <- Hw.
Qed.

(** A field that no iteration writes is in every rule what it is in the
    dictionary the loops start from. *)
Lemma rule_frame (p : Path) :
  (∀ it, writes PROTO_MAP (family_name AF_MAP inet_version) p it = None) →
  Forall (λ e, lookup_path p e = lookup_path p (initial_dict term)) rs.
Proof.
  intros Hw.
  pose proof (ConvertToDict_path _ _ _ _ _ p conversion) as Hp.
  rewrite carry_quiet in Hp by (by apply Forall_fmap, Forall_true).
  apply Forall_lookup. intros i e He.
  assert ((lookup_path p <$> rs) !! i = Some (lookup_path p e)) as Hl.
  { by rewrite list_lookup_fmap, He. }
  rewrite Hp in Hl. by apply lookup_replicate in Hl as [<- _].
Qed.

(** What a rule holds at a path was there before the loops or is written
    by an iteration. *)
Lemma rule_field (p : Path) (e : Dict) (v : Value) :
  e ∈ rs → lookup_path p e = Some v →
  lookup_path p (initial_dict term) = Some v
  ∨ ∃ it, it ∈ iterations_of term (af_of AF_MAP inet_version)
          ∧ writes PROTO_MAP (family_name AF_MAP inet_version) p it = Some v.
Proof.
  intros He Hv.
  pose proof (ConvertToDict_path _ _ _ _ _ p conversion) as Hp.
  assert (lookup_path p e ∈ lookup_path p <$> rs) as Hin.
  { apply list_elem_of_fmap. by exists e. }
  rewrite Hp, Hv in Hin.
  apply carry_elem in Hin as [Hc|Hin]; [by left|right].
  apply list_elem_of_fmap in Hin as (it & Hw & Hit). by exists it.
Qed.

End Rules.

(** * The expansion of a term *)

(** C1. A term that passes the checks of [ConvertToDict] (family, action,
    option, protocol names) converts under one address family to exactly
    a*b*p*q*r entries: a and b the numbers of flattened source and
    destination addresses of that family, p and q the numbers of source and
    destination port ranges, r the number of protocols, an empty list
    counting for 1; no dimension is 0, so there is at least one entry. *)
Theorem ConvertToDict_cardinality (AF_MAP PROTO_MAP : gmap string Z)
    (term : policy.Term) (inet_version : string) :
  convertible AF_MAP PROTO_MAP term inet_version = true →
  ∃ rs, ConvertToDict AF_MAP PROTO_MAP term inet_version = Ok rs
    ∧ length rs =
      (dimension (policy.GetAddressOfVersion (policy.flattened_saddr term)
                    (af_of AF_MAP inet_version))
       * dimension (policy.GetAddressOfVersion (policy.flattened_daddr term)
                      (af_of AF_MAP inet_version))
       * dimension (policy.source_port term)
       * dimension (policy.destination_port term)
       * dimension (policy.protocol term))%nat
    ∧ (0 < length rs)%nat.
Proof.
  intros [rs Hrs]%ConvertToDict_returns. exists rs.
  pose proof (ConvertToDict_length _ _ _ _ _ Hrs) as Hlen.
  rewrite length_iterations_of in Hlen.
  split_and!; [done|done|]. rewrite Hlen.
  repeat apply Nat.mul_pos_pos; apply dimension_pos.
Qed.

Lemma ConvertToDict_cardinality_witness :
  ∃ rs, ConvertToDict example_AF_MAP example_PROTO_MAP web_term "inet" = Ok rs
    ∧ length rs = (2 * 1 * 1 * 2 * 2)%nat
    ∧ (0 < length rs)%nat.
Proof.
  exact (ConvertToDict_cardinality example_AF_MAP example_PROTO_MAP web_term
           "inet" eq_refl).
Defined.

Lemma writes_source_port (PROTO_MAP : gmap string Z) (family : string)
    (it : Iteration) :
  writes PROTO_MAP family ("transport", "config", "source-port") it =
  sport_write ("transport", "config", "source-port") (it_sport it).
Proof.
  unfold writes.
  rewrite silent_proto_write, silent_dport_write,
    silent_daddr_write, silent_saddr_write by done.
  simpl. apply overwrite_None_r.
Qed.

(** C10. The working dictionary is one object for the whole call: the field
    at any path is, in each rule, what it was in the rule before unless the
    iteration of the rule writes it (and before the first rule what the
    action and the option put there).  So the rule of an iteration whose
    source-port range is (0, 0) has the source-port of the rule before it. *)
Theorem fields_persist (AF_MAP PROTO_MAP : gmap string Z) (term : policy.Term)
    (inet_version : string) :
  convertible AF_MAP PROTO_MAP term inet_version = true →
  ∃ rs, ConvertToDict AF_MAP PROTO_MAP term inet_version = Ok rs
    ∧ (∀ p, lookup_path p <$> rs =
            carry (lookup_path p (initial_dict term))
              (writes PROTO_MAP (family_name AF_MAP inet_version) p
                 <$> iterations_of term (af_of AF_MAP inet_version)))
    ∧ (∀ i it e e',
         iterations_of term (af_of AF_MAP inet_version) !! S i = Some it →
         is_any_port (it_sport it) = true →
         rs !! i = Some e → rs !! S i = Some e' →
         lookup3 "transport" "config" "source-port" e'
         = lookup3 "transport" "config" "source-port" e).
Proof.
  intros [rs Hrs]%ConvertToDict_returns. exists rs.
  split_and!; [done| |].
  - intros p. by apply ConvertToDict_path.
  - intros i it e e' Hit Hany He He'.
    pose proof (ConvertToDict_path _ _ _ _ _
                  ("transport", "config", "source-port") Hrs) as Hp.
    assert (∀ j x, rs !! j = Some x →
              (lookup_path ("transport", "config", "source-port") <$> rs) !! j
              = Some (lookup3 "transport" "config" "source-port" x)) as Hl.
    { intros j x Hx. by rewrite list_lookup_fmap, Hx. }
    pose proof (Hl _ _ He) as H1. pose proof (Hl _ _ He') as H2.
    rewrite Hp in H1, H2.
    erewrite carry_lookup_S in H2; [| |exact H1].
    2:{ by rewrite list_lookup_fmap, Hit. }
    rewrite writes_source_port in H2. unfold sport_write in H2.
    rewrite Hany in H2. by injection H2.
Qed.

Lemma fields_persist_witness :
  ∃ rs, ConvertToDict example_AF_MAP example_PROTO_MAP
          (port_term [(80, 80); (0, 0)] []) "inet" = Ok rs
    ∧ (∀ p, lookup_path p <$> rs =
            carry (lookup_path p (initial_dict (port_term [(80, 80); (0, 0)] [])))
              (writes example_PROTO_MAP "ipv4" p
                 <$> iterations_of (port_term [(80, 80); (0, 0)] []) 4))
    ∧ (∀ i it e e',
         iterations_of (port_term [(80, 80); (0, 0)] []) 4 !! S i = Some it →
         is_any_port (it_sport it) = true →
         rs !! i = Some e → rs !! S i = Some e' →
         lookup3 "transport" "config" "source-port" e'
         = lookup3 "transport" "config" "source-port" e).
Proof.
  exact (fields_persist example_AF_MAP example_PROTO_MAP
           (port_term [(80, 80); (0, 0)] []) "inet" eq_refl).
Defined.

Lemma writes_destination_port (PROTO_MAP : gmap string Z) (family : string)
    (it : Iteration) :
  writes PROTO_MAP family ("transport", "config", "destination-port") it =
  dport_write ("transport", "config", "destination-port") (it_dport it).
Proof.
  unfold writes.
  rewrite silent_proto_write, silent_sport_write,
    silent_daddr_write, silent_saddr_write by done.
  simpl. apply overwrite_None_r.
Qed.

(** The port fields of the entry of an iteration whose range is not (0, 0):
    the integer [start] when the range is one port, the string
    ["start..end"] otherwise. *)
Lemma concrete_port_fields (AF_MAP PROTO_MAP : gmap string Z) (term : policy.Term)
    (inet_version : string) (rs : list Dict) :
  ConvertToDict AF_MAP PROTO_MAP term inet_version = Ok rs →
  Forall2 (λ it e,
      (is_any_port (it_sport it) = false →
       lookup3 "transport" "config" "source-port" e
       = Some (port_value (it_sport it).1 (it_sport it).2))
      ∧ (is_any_port (it_dport it) = false →
         lookup3 "transport" "config" "destination-port" e
         = Some (port_value (it_dport it).1 (it_dport it).2)))
    (iterations_of term (af_of AF_MAP inet_version)) rs.
Proof.
  intros Hrs. apply Forall2_same_length_lookup. split.
  - symmetry. by eapply ConvertToDict_length.
  - intros i it e Hit He. split; intros Hany.
    + apply (rule_written _ _ _ _ _ Hrs
               ("transport", "config", "source-port") i it e); [done|done|].
      rewrite writes_source_port. unfold sport_write, write_at.
      by rewrite Hany, decide_True.
    + apply (rule_written _ _ _ _ _ Hrs
               ("transport", "config", "destination-port") i it e); [done|done|].
      rewrite writes_destination_port. unfold dport_write, write_at.
      by rewrite Hany, decide_True.
Qed.

(** C8. The source-port ranges (80, 80) then (0, 0): the rule of the second
    iteration, whose range is the placeholder of "any", has the source-port
    80 of the first.  The same with the ranges in the order (0, 0), (80, 80)
    and two destination addresses: the placeholder iteration of the second
    address has the port left by the first address. *)
Theorem any_port_keeps_stale_port :
  let term1 := port_term [(80, 80); (0, 0)] [] in
  let term2 := port_term [(0, 0); (80, 80)] [net10; net192] in
  (it_sport <$> iterations_of term1 4 = [(80, 80); (0, 0)]
   ∧ lookup3 "transport" "config" "source-port"
       <$> rules_of (ConvertToDict example_AF_MAP example_PROTO_MAP term1 "inet")
     = [Some (VInt 80); Some (VInt 80)])
  ∧ (it_sport <$> iterations_of term2 4 = [(0, 0); (80, 80); (0, 0); (80, 80)]
     ∧ lookup3 "transport" "config" "source-port"
         <$> rules_of (ConvertToDict example_AF_MAP example_PROTO_MAP term2 "inet")
       = [None; Some (VInt 80); Some (VInt 80); Some (VInt 80)]).
Proof. vm_compute. done. Qed.

Lemma initial_dict_transport_protocol (term : policy.Term) :
  lookup_path ("transport", "config", "protocol") (initial_dict term) = None.
Proof. unfold initial_dict. by case_bool_decide. Qed.

(** C6, as the code has it.  The protocol number of an iteration is the
    field ["protocol"] of the address-family block of its entry
    ([entry[family]["config"]["protocol"]], next to the addresses); the
    transport block of no entry has a protocol field. *)
Theorem protocol_in_family_block (AF_MAP PROTO_MAP : gmap string Z)
    (term : policy.Term) (inet_version : string) :
  convertible AF_MAP PROTO_MAP term inet_version = true →
  ∃ rs, ConvertToDict AF_MAP PROTO_MAP term inet_version = Ok rs
    ∧ Forall2 (λ it e, ∀ n,
                 proto_number PROTO_MAP (it_proto it) = Some n →
                 lookup3 (family_name AF_MAP inet_version) "config" "protocol" e
                 = Some (VInt n))
        (iterations_of term (af_of AF_MAP inet_version)) rs
    ∧ Forall (λ e, lookup3 "transport" "config" "protocol" e = None) rs.
Proof.
  intros Hconv.
  destruct (ConvertToDict_returns _ _ _ _ Hconv) as [rs Hrs]. exists rs.
  split_and!; [done| |].
  - apply Forall2_same_length_lookup. split.
    + symmetry. by eapply ConvertToDict_length.
    + intros i it e Hit He n Hn.
      apply (rule_written _ _ _ _ _ Hrs
               (family_name AF_MAP inet_version, "config", "protocol") i it e);
        [done|done|]. by apply writes_protocol.
  - eapply Forall_impl.
    + apply (rule_frame _ _ _ _ _ Hrs ("transport", "config", "protocol")).
      intros it. apply writes_transport_protocol.
      apply convertible_family_ok in Hconv.
      by destruct (family_name_cases _ _ Hconv) as [-> | ->].
    + intros e He. unfold lookup_path in He. simpl in He.
      by rewrite He, <- (initial_dict_transport_protocol term).
Qed.

Lemma protocol_in_family_block_witness :
  ∃ rs, ConvertToDict example_AF_MAP example_PROTO_MAP web_term "inet6" = Ok rs
    ∧ Forall2 (λ it e, ∀ n,
                 proto_number example_PROTO_MAP (it_proto it) = Some n →
                 lookup3 "ipv6" "config" "protocol" e = Some (VInt n))
        (iterations_of web_term 6) rs
    ∧ Forall (λ e, lookup3 "transport" "config" "protocol" e = None) rs.
Proof.
  exact (protocol_in_family_block example_AF_MAP example_PROTO_MAP web_term
           "inet6" eq_refl).
Defined.

(** C6, as the claim has it, fails: the one entry of a tcp term has a
    transport block (the port and the tcp-established marker) without a
    protocol field; the number 6 is in the ipv4 block. *)
Lemma protocol_not_in_transport_block :
  (λ e, (lookup3 "transport" "config" "destination-port" e,
         lookup3 "transport" "config" "protocol" e,
         lookup3 "ipv4" "config" "protocol" e))
    <$> rules_of (ConvertToDict example_AF_MAP example_PROTO_MAP
                    (established_term [policy.ProtoName "tcp"]) "inet")
  = [(Some (VStr "1024..65535"), None, Some (VInt 6))].
Proof. vm_compute. done. Qed.

(** * The tcp-established option *)

Lemma ConvertToDict_raises_option (AF_MAP PROTO_MAP : gmap string Z)
    (term : policy.Term) (inet_version : string) :
  family_ok AF_MAP inet_version = true →
  action_ok term = true →
  "tcp-established" ∈ policy.option term →
  policy.protocol term ≠ [policy.ProtoName "tcp"] →
  ConvertToDict AF_MAP PROTO_MAP term inet_version =
  Raise (TcpEstablishedWithNonTcpError
           ("tcp-established can only be used with tcp protocol in term "
              +:+ policy.name term)).
Proof.
  unfold family_ok, action_ok, ConvertToDict, family_of.
  intros Hf Ha Hopt Hproto.
  destruct (AF_MAP !! inet_version) as [af|]; [|done].
  apply bool_decide_eq_true in Hf as [family Hfamily]. rewrite Hfamily. simpl.
  rewrite SetAction_empty.
  destruct (policy.action term) as [|a l]; [done|].
  apply bool_decide_eq_true in Ha as [action Haction]. rewrite Haction. simpl.
  rewrite SetOptions_action_dict. by rewrite !bool_decide_true.
Qed.

Lemma initial_dict_established (term : policy.Term) :
  "tcp-established" ∈ policy.option term →
  lookup_path ("transport", "config", "detail-mode") (initial_dict term)
  = Some (VStr "BUILTIN")
  ∧ lookup_path ("transport", "config", "builtin-detail") (initial_dict term)
    = Some (VStr "TCP_ESTABLISHED").
Proof. intros H. unfold initial_dict. by rewrite bool_decide_true. Qed.

(** C4. A term with the option tcp-established, a known family and action,
    and a table that has tcp: when its protocol list is exactly ['tcp'] the
    conversion returns at least one entry, and the transport config of
    every entry has detail-mode BUILTIN and builtin-detail TCP_ESTABLISHED;
    when the list is anything else the conversion raises
    TcpEstablishedWithNonTcpError, naming the term, and returns no entry. *)
Theorem tcp_established_validation (AF_MAP PROTO_MAP : gmap string Z)
    (term : policy.Term) (inet_version : string) :
  "tcp-established" ∈ policy.option term →
  family_ok AF_MAP inet_version = true →
  action_ok term = true →
  is_Some (PROTO_MAP !! "tcp") →
  (policy.protocol term = [policy.ProtoName "tcp"] →
   ∃ rs, ConvertToDict AF_MAP PROTO_MAP term inet_version = Ok rs
     ∧ rs ≠ []
     ∧ Forall (λ e,
         lookup3 "transport" "config" "detail-mode" e = Some (VStr "BUILTIN")
         ∧ lookup3 "transport" "config" "builtin-detail" e
           = Some (VStr "TCP_ESTABLISHED")) rs)
  ∧ (policy.protocol term ≠ [policy.ProtoName "tcp"] →
     ConvertToDict AF_MAP PROTO_MAP term inet_version =
     Raise (TcpEstablishedWithNonTcpError
              ("tcp-established can only be used with tcp protocol in term "
                 +:+ policy.name term))
     ∧ rules_of (ConvertToDict AF_MAP PROTO_MAP term inet_version) = []).
Proof.
  intros Hopt Hf Ha Htcp. split.
  - intros Hproto.
    assert (convertible AF_MAP PROTO_MAP term inet_version = true) as Hconv.
    { assert (option_ok term = true) as Ho.
      { unfold option_ok. apply orb_true_iff. right.
        by apply bool_decide_eq_true. }
      assert (forallb (resolvable PROTO_MAP) (policy.protocol term) = true) as Hp.
      { rewrite Hproto. cbn [forallb resolvable]. rewrite andb_true_r.
        apply orb_true_iff. right. by apply bool_decide_eq_true. }
      unfold convertible. by rewrite Hf, Ha, Ho, Hp. }
    destruct (ConvertToDict_returns _ _ _ _ Hconv) as [rs Hrs]. exists rs.
    split_and!; [done| |].
    + pose proof (ConvertToDict_length _ _ _ _ _ Hrs) as Hlen.
      rewrite length_iterations_of in Hlen. intros ->. simpl in Hlen.
      pose proof (dimension_pos (policy.GetAddressOfVersion
        (policy.flattened_saddr term) (af_of AF_MAP inet_version))).
      pose proof (dimension_pos (policy.GetAddressOfVersion
        (policy.flattened_daddr term) (af_of AF_MAP inet_version))).
      pose proof (dimension_pos (policy.source_port term)).
      pose proof (dimension_pos (policy.destination_port term)).
      pose proof (dimension_pos (policy.protocol term)). nia.
    + destruct (initial_dict_established term Hopt) as [Hmode Hdetail].
      pose proof (rule_frame _ _ _ _ _ Hrs ("transport", "config", "detail-mode"))
        as Hframe1.
      pose proof (rule_frame _ _ _ _ _ Hrs ("transport", "config", "builtin-detail"))
        as Hframe2.
      rewrite Hmode in Hframe1. rewrite Hdetail in Hframe2.
      apply Forall_and. split; [apply Hframe1 | apply Hframe2];
        intros it; apply writes_other_field;
        by apply (proj1 (bool_decide_eq_false _)).
  - intros Hproto.
    rewrite (ConvertToDict_raises_option AF_MAP PROTO_MAP term inet_version)
      by done.
    done.
Qed.

Lemma tcp_established_validation_witness :
  (∃ rs, ConvertToDict example_AF_MAP example_PROTO_MAP
           (established_term [policy.ProtoName "tcp"]) "inet" = Ok rs
     ∧ rs ≠ []
     ∧ Forall (λ e,
         lookup3 "transport" "config" "detail-mode" e = Some (VStr "BUILTIN")
         ∧ lookup3 "transport" "config" "builtin-detail" e
           = Some (VStr "TCP_ESTABLISHED")) rs)
  ∧ (ConvertToDict example_AF_MAP example_PROTO_MAP
       (established_term [policy.ProtoName "tcp"; policy.ProtoName "udp"]) "inet" =
     Raise (TcpEstablishedWithNonTcpError
              "tcp-established can only be used with tcp protocol in term allow-replies")
     ∧ rules_of (ConvertToDict example_AF_MAP example_PROTO_MAP
                   (established_term [policy.ProtoName "tcp"; policy.ProtoName "udp"])
                   "inet") = []).
Proof.
  assert (∀ protocol, "tcp-established" ∈ policy.option (established_term protocol))
    as Hopt.
  { intros protocol. apply list_elem_of_In. simpl. by left. }
  assert (is_Some (example_PROTO_MAP !! "tcp")) as Htcp.
  { exists 6. reflexivity. }
  split.
  - apply (tcp_established_validation example_AF_MAP example_PROTO_MAP
             (established_term [policy.ProtoName "tcp"]) "inet"
             (Hopt _) eq_refl eq_refl Htcp).
    reflexivity.
  - apply (tcp_established_validation example_AF_MAP example_PROTO_MAP
             (established_term [policy.ProtoName "tcp"; policy.ProtoName "udp"])
             "inet" (Hopt _) eq_refl eq_refl Htcp).
    discriminate.
Defined.

(** * The term that matches anything *)

(** C7, as the code has it.  A term with no address, no port, no protocol
    and the action accept, under a known family: without the option
    tcp-established the conversion returns one entry, and the entry is the
    action and nothing else (no address-family block, no transport block);
    with the option it raises TcpEstablishedWithNonTcpError, the protocol
    list being empty and not ['tcp'], so that no such entry ever has a field
    of an option. *)
Theorem degenerate_term_entry (AF_MAP PROTO_MAP : gmap string Z)
    (term : policy.Term) (inet_version : string) :
  policy.flattened_saddr term = [] →
  policy.flattened_daddr term = [] →
  policy.source_port term = [] →
  policy.destination_port term = [] →
  policy.protocol term = [] →
  policy.action term = ["accept"] →
  family_ok AF_MAP inet_version = true →
  ("tcp-established" ∉ policy.option term →
   ConvertToDict AF_MAP PROTO_MAP term inet_version =
   Ok [ {[ "actions" :=
             VDict {[ "config" :=
                        VDict {[ "forwarding-action" := VStr "ACCEPT" ]} ]} ]} ])
  ∧ ("tcp-established" ∈ policy.option term →
     ConvertToDict AF_MAP PROTO_MAP term inet_version =
     Raise (TcpEstablishedWithNonTcpError
              ("tcp-established can only be used with tcp protocol in term "
                 +:+ policy.name term))).
Proof.
  intros Hsa Hda Hsp Hdp Hpr Hact Hf.
  assert (action_ok term = true) as Ha.
  { unfold action_ok. by rewrite Hact. }
  split.
  - intros Hopt.
    rewrite ConvertToDict_loops; [|done|done|].
    2:{ unfold option_ok. apply orb_true_iff. left. by apply bool_decide_eq_true. }
    unfold saddrs_of, daddrs_of, sports_of, dports_of, protos_of,
      initial_dict, action_name.
    rewrite Hsa, Hda, Hsp, Hdp, Hpr, Hact, bool_decide_false by done.
    reflexivity.
  - intros Hopt. apply ConvertToDict_raises_option; [done|done|done|].
    by rewrite Hpr.
Qed.

Lemma degenerate_term_entry_witness :
  ConvertToDict example_AF_MAP example_PROTO_MAP (any_term []) "inet6" =
  Ok [ {[ "actions" :=
            VDict {[ "config" :=
                       VDict {[ "forwarding-action" := VStr "ACCEPT" ]} ]} ]} ]
  ∧ ConvertToDict example_AF_MAP example_PROTO_MAP
      (any_term ["tcp-established"]) "inet6" =
    Raise (TcpEstablishedWithNonTcpError
             "tcp-established can only be used with tcp protocol in term allow-any").
Proof.
  split.
  - apply (degenerate_term_entry example_AF_MAP example_PROTO_MAP (any_term [])
             "inet6" eq_refl eq_refl eq_refl eq_refl eq_refl eq_refl eq_refl).
    apply not_elem_of_nil.
  - apply (degenerate_term_entry example_AF_MAP example_PROTO_MAP
             (any_term ["tcp-established"]) "inet6"
             eq_refl eq_refl eq_refl eq_refl eq_refl eq_refl eq_refl).
    apply list_elem_of_In. simpl. by left.
Defined.

(** C7, as the claim has it, fails when an option is present: the term with
    the option tcp-established and nothing else converts to no entry. *)
Lemma degenerate_term_with_option_raises :
  ConvertToDict example_AF_MAP example_PROTO_MAP
    (any_term ["tcp-established"]) "inet"
  = Raise (TcpEstablishedWithNonTcpError
             "tcp-established can only be used with tcp protocol in term allow-any")
  ∧ length (rules_of (ConvertToDict example_AF_MAP example_PROTO_MAP
                        (any_term ["tcp-established"]) "inet")) ≠ 1%nat.
Proof. vm_compute. split; [done|lia]. Qed.

(** * Protocol names that the table does not have *)

Lemma first_unknown_elem (PROTO_MAP : gmap string Z) (protos : list policy.Protocol)
    (s : string) :
  policy.ProtoName s ∈ protos →
  resolvable PROTO_MAP (policy.ProtoName s) = false →
  ∃ tok, first_unknown PROTO_MAP protos = Some tok
         ∧ policy.ProtoName tok ∈ protos
         ∧ resolvable PROTO_MAP (policy.ProtoName tok) = false.
Proof.
  intros Hin Hs. induction protos as [|x protos IH]; [by apply not_elem_of_nil in Hin|].
  cbn [first_unknown]. destruct (resolvable PROTO_MAP x) eqn:Hx.
  - apply elem_of_cons in Hin as [<-|Hin]; [congruence|].
    destruct (IH Hin) as (tok & Htok & Hmem & Hres).
    exists tok. split_and!; [done|by right|done].
  - destruct x as [t|n]; [|done]. exists t. split_and!; [done|by left|done].
Qed.

(** C5, as the code has it.  A term that passes the checks made before the
    loops (family, action, option), and whose protocol list has a string
    other than 'none' that the table does not have, raises OcFirewallError,
    and the first such string of the list is an argument of the exception.
    The exception is the same whatever the name of the term: the name is no
    part of it. *)
Theorem unknown_protocol_error (AF_MAP PROTO_MAP : gmap string Z)
    (term : policy.Term) (inet_version s : string) :
  family_ok AF_MAP inet_version = true →
  action_ok term = true →
  option_ok term = true →
  policy.ProtoName s ∈ policy.protocol term →
  s ≠ "none" →
  PROTO_MAP !! s = None →
  ∃ tok msg,
    first_unknown PROTO_MAP (policy.protocol term) = Some tok
    ∧ policy.ProtoName tok ∈ policy.protocol term
    ∧ PROTO_MAP !! tok = None
    ∧ ConvertToDict AF_MAP PROTO_MAP term inet_version
      = Raise (OcFirewallError msg tok)
    ∧ tok ∈ exception_args (OcFirewallError msg tok)
    ∧ ∀ name, ConvertToDict AF_MAP PROTO_MAP (with_name name term) inet_version
              = Raise (OcFirewallError msg tok).
Proof.
  intros Hf Ha Ho Hin Hnone Hs.
  destruct (first_unknown_elem PROTO_MAP (policy.protocol term) s Hin)
    as (tok & Htok & Hmem & Hres).
  { simpl. apply orb_false_iff. split; apply bool_decide_eq_false; [done|].
    rewrite Hs. by intros [? ?]. }
  exists tok, "Protocol %s unknown. Use an integer.".
  split_and!; [done|done| |by apply ConvertToDict_raises_unknown| |].
  - simpl in Hres. apply orb_false_iff in Hres as [_ Hres].
    apply bool_decide_eq_false in Hres.
    destruct (PROTO_MAP !! tok) as [n|]; [|done]. by destruct Hres.
  - simpl. right. by left.
  - intros name. by apply ConvertToDict_raises_unknown.
Qed.

Lemma unknown_protocol_error_witness :
  ∃ tok msg,
    first_unknown example_PROTO_MAP (policy.protocol (numeral_term "edge-in"))
    = Some tok
    ∧ policy.ProtoName tok ∈ policy.protocol (numeral_term "edge-in")
    ∧ example_PROTO_MAP !! tok = None
    ∧ ConvertToDict example_AF_MAP example_PROTO_MAP (numeral_term "edge-in") "inet"
      = Raise (OcFirewallError msg tok)
    ∧ tok ∈ exception_args (OcFirewallError msg tok)
    ∧ ∀ name, ConvertToDict example_AF_MAP example_PROTO_MAP
                (with_name name (numeral_term "edge-in")) "inet"
              = Raise (OcFirewallError msg tok).
Proof.
  apply (unknown_protocol_error example_AF_MAP example_PROTO_MAP
           (numeral_term "edge-in") "inet" "6").
  - reflexivity.
  - reflexivity.
  - reflexivity.
  - apply list_elem_of_In. simpl. right. by left.
  - discriminate.
  - reflexivity.
Defined.

(** C5, as the claim has it, fails.  The term edge-in, with the protocols
    tcp and 6 as text, is one the constructor of the examples accepts; its
    conversion raises an exception that carries the string 6, and the same
    exception is raised when the term is called core-out: the exception
    carries the name of neither. *)
Lemma unknown_protocol_error_without_term_name :
  ∃ e, example_init (numeral_term "edge-in") = None
       ∧ ConvertToDict example_AF_MAP example_PROTO_MAP (numeral_term "edge-in") "inet"
         = Raise e
       ∧ ConvertToDict example_AF_MAP example_PROTO_MAP (numeral_term "core-out") "inet"
         = Raise e
       ∧ "6" ∈ exception_args e
       ∧ mentions e "edge-in" = false
       ∧ mentions e "core-out" = false.
Proof.
  exists (OcFirewallError "Protocol %s unknown. Use an integer." "6").
  split_and!; [by vm_compute..| |by vm_compute|by vm_compute].
  simpl. right. by left.
Qed.

(** * Sequence identifiers and rule sets *)

(** C2. A policy with at least one filter, whose terms are constructed
    and pass the checks of the conversion, is translated; the entries of
    the run, in the order of emission through all its rule sets, are the
    rules of the policy, the k-th of them given the sequence identifier 5k:
    the identifiers read 5, 10, 15, ... up to 5 times the number of rules,
    whatever the counter of the object was before the call and however the
    rules fall into filters and families; they are all different, and the
    counter ends at the number of rules. *)
Theorem sequence_ids_stride (base_init : policy.Term → option Exception)
    (AF_MAP PROTO_MAP : gmap string Z)
    (_SUPPORTED_AF : list string) (self0 : OpenConfig) (pol : policy.Policy) :
  policy_ok base_init AF_MAP PROTO_MAP _SUPPORTED_AF pol = true →
  ∃ self1,
    _TranslatePolicy base_init AF_MAP PROTO_MAP _SUPPORTED_AF self0 pol = Ok self1
    ∧ all_entries self1 =
      imap (λ i rule, <["sequence-id" := VInt ((Z.of_nat i + 1) * 5)]> rule)
        (policy_rules AF_MAP PROTO_MAP _SUPPORTED_AF pol)
    ∧ sequence_ids self1 =
      (λ k, Some (VInt (k * 5)))
        <$> seqZ 1 (Z.of_nat (length (policy_rules AF_MAP PROTO_MAP _SUPPORTED_AF pol)))
    ∧ length (all_entries self1)
      = length (policy_rules AF_MAP PROTO_MAP _SUPPORTED_AF pol)
    ∧ NoDup (sequence_ids self1)
    ∧ total_rule_count self1 = Z.of_nat (length (all_entries self1)).
Proof.
  intros [self1 Hrun]%(_TranslatePolicy_returns _ _ _ _ self0). exists self1.
  destruct (_TranslatePolicy_Ok _ _ _ _ _ _ _ Hrun) as (Hentries & Htotal & _).
  assert (sequence_ids self1 =
          (λ k, Some (VInt (k * 5)))
            <$> seqZ 1 (Z.of_nat (length (policy_rules AF_MAP PROTO_MAP
                                            _SUPPORTED_AF pol)))) as Hids.
  { unfold sequence_ids. rewrite Hentries. apply sequence_id_number_from. }
  split_and!; [done| |done| | |].
  - rewrite Hentries. unfold number_from. apply imap_ext.
    intros i rule _. simpl. repeat f_equal; lia.
  - by rewrite Hentries, length_number_from.
  - rewrite Hids. apply NoDup_fmap_2; [|apply NoDup_seqZ].
    intros k1 k2 [=]. lia.
  - by rewrite Hentries, length_number_from.
Qed.

Lemma sequence_ids_stride_witness :
  ∃ self1,
    _TranslatePolicy example_init example_AF_MAP example_PROTO_MAP example_order
      example_self example_policy = Ok self1
    ∧ all_entries self1 =
      imap (λ i rule, <["sequence-id" := VInt ((Z.of_nat i + 1) * 5)]> rule)
        (policy_rules example_AF_MAP example_PROTO_MAP example_order example_policy)
    ∧ sequence_ids self1 =
      (λ k, Some (VInt (k * 5)))
        <$> seqZ 1 (Z.of_nat (length (policy_rules example_AF_MAP example_PROTO_MAP
                                        example_order example_policy)))
    ∧ length (all_entries self1)
      = length (policy_rules example_AF_MAP example_PROTO_MAP example_order
                  example_policy)
    ∧ NoDup (sequence_ids self1)
    ∧ total_rule_count self1 = Z.of_nat (length (all_entries self1)).
Proof.
  exact (sequence_ids_stride example_init example_AF_MAP example_PROTO_MAP
           example_order example_self example_policy eq_refl).
Defined.

Lemma expansion_mixed (AF_MAP PROTO_MAP : gmap string Z) (terms : list policy.Term) :
  expansion AF_MAP PROTO_MAP terms "mixed" = mixed_rules AF_MAP PROTO_MAP terms.
Proof.
  unfold expansion, mixed_rules. apply list_bind_ext; [|done]. intros term.
  change (term_address_families "mixed") with ["inet"; "inet6"].
  by rewrite bind_cons, bind_singleton.
Qed.

(** C3. A filter declared mixed, whose terms are constructed and convert
    under both families, gives one rule set, of type ACL_MIXED; its entries
    are, term after term in the order of the filter, the inet entries of
    the term followed by its inet6 entries, numbered on from the counter. *)
Theorem mixed_filter_interleaves (base_init : policy.Term → option Exception)
    (AF_MAP PROTO_MAP : gmap string Z)
    (self0 : OpenConfig) (terms : list policy.Term) (filter_name : string)
    (hdr_comments filter_options : list string) :
  terms_convertible base_init AF_MAP PROTO_MAP terms "mixed" = true →
  _TranslateTerms base_init AF_MAP PROTO_MAP self0 terms "mixed" filter_name
    hdr_comments filter_options =
  Ok {| total_rule_count :=
          total_rule_count self0
          + Z.of_nat (length (mixed_rules AF_MAP PROTO_MAP terms));
        acl_sets :=
          acl_sets self0 ++
          [ {| acl_entry :=
                 number_from (total_rule_count self0)
                   (mixed_rules AF_MAP PROTO_MAP terms);
               config_name := filter_name; config_type := "ACL_MIXED";
               set_name := filter_name; set_type := "ACL_MIXED" |} ] |}.
Proof.
  intros Hconv.
  destruct (_TranslateTerms_returns base_init AF_MAP PROTO_MAP self0 terms "mixed"
              filter_name hdr_comments filter_options Hconv) as [self1 Hrun].
  { by exists "ACL_MIXED". }
  rewrite Hrun.
  apply _TranslateTerms_Ok in Hrun as (oc_type & Hty & _ & ->).
  injection Hty as <-. by rewrite expansion_mixed.
Qed.

Lemma mixed_filter_interleaves_witness :
  let terms := [web_term; established_term [policy.ProtoName "tcp"]] in
  _TranslateTerms example_init example_AF_MAP example_PROTO_MAP example_self terms "mixed"
    "edge" [] [] =
  Ok {| total_rule_count :=
          77 + Z.of_nat (length (mixed_rules example_AF_MAP example_PROTO_MAP terms));
        acl_sets :=
          [ {| acl_entry :=
                 number_from 77 (mixed_rules example_AF_MAP example_PROTO_MAP terms);
               config_name := "edge"; config_type := "ACL_MIXED";
               set_name := "edge"; set_type := "ACL_MIXED" |} ] |}.
Proof.
  exact (mixed_filter_interleaves example_init example_AF_MAP example_PROTO_MAP example_self
           [web_term; established_term [policy.ProtoName "tcp"]] "edge" [] []
           eq_refl).
Defined.

(** The order of a mixed filter on an example: eight ipv4 entries and four
    ipv6 entries of the first term, then the ipv4 entry and the ipv6 entry
    of the second. *)
Example mixed_filter_order :
  family_blocks
    <$> mixed_rules example_AF_MAP example_PROTO_MAP
          [web_term; established_term [policy.ProtoName "tcp"]]
  = replicate 8 ["ipv4"] ++ replicate 4 ["ipv6"] ++ [["ipv4"]; ["ipv6"]].
Proof. vm_compute. done. Qed.

(** The identifiers of the example policy: fourteen entries in the mixed
    rule set, one in the next, numbered through. *)
Example example_policy_sequence_ids :
  (λ s, (set_name s, set_type s, (λ e : Dict, e !! "sequence-id") <$> acl_entry s))
    <$> match _TranslatePolicy example_init example_AF_MAP example_PROTO_MAP example_order
                example_self example_policy with
        | Ok oc => acl_sets oc
        | Raise _ => []
        end
  = [ ("edge", "ACL_MIXED", (λ k, Some (VInt (k * 5))) <$> seqZ 1 14);
      ("core", "ACL_IPV4", [Some (VInt 75)]) ].
Proof. vm_compute. done. Qed.

(** * Address-family blocks *)

Lemma lookup3_insert_int (k1 k2 k3 k : string) (n : Z) (d : Dict) (v : Value) :
  lookup3 k1 k2 k3 (<[k := VInt n]> d) = Some v → lookup3 k1 k2 k3 d = Some v.
Proof.
  unfold lookup3. destruct (decide (k1 = k)) as [->|Hne].
  - by rewrite lookup_insert_eq.
  - by rewrite lookup_insert_ne.
Qed.

Lemma initial_dict_family (term : policy.Term) (k : string) :
  k ≠ "actions" → k ≠ "transport" → initial_dict term !! k = None.
Proof.
  intros H1 H2. unfold initial_dict, established_dict, action_dict.
  case_bool_decide.
  - rewrite lookup_insert_ne by done. by apply lookup_singleton_ne.
  - by apply lookup_singleton_ne.
Qed.

Lemma initial_dict_field (term : policy.Term) (k1 k2 k3 : string) (v : Value) :
  lookup3 k1 k2 k3 (initial_dict term) = Some v →
  k3 ∈ ["forwarding-action"; "detail-mode"; "builtin-detail"].
Proof.
  assert (∀ a, lookup3 k1 k2 k3 (action_dict a) = Some v →
            k3 = "forwarding-action") as Haction.
  { intros a. unfold lookup3, action_dict.
    destruct (decide (k1 = "actions")) as [->|];
      [rewrite lookup_singleton_eq | by rewrite lookup_singleton_ne]. simpl.
    destruct (decide (k2 = "config")) as [->|];
      [rewrite lookup_singleton_eq | by rewrite lookup_singleton_ne]. simpl.
    destruct (decide (k3 = "forwarding-action")) as [->|];
      [done | by rewrite lookup_singleton_ne]. }
  unfold initial_dict. case_bool_decide.
  - unfold established_dict, lookup3.
    destruct (decide (k1 = "transport")) as [->|].
    + rewrite lookup_insert_eq. simpl.
      destruct (decide (k2 = "config")) as [->|];
        [rewrite lookup_singleton_eq | by rewrite lookup_singleton_ne]. simpl.
      unfold _tcp_established. simpl.
      intros [[<- _]|[_ H2]]%lookup_insert_Some.
      * right. by left.
      * apply lookup_insert_Some in H2 as [[<- _]|[_ H3]].
        -- right. right. by left.
        -- by rewrite lookup_empty in H3.
    + rewrite lookup_insert_ne by done. intros ->%Haction. by left.
  - intros ->%Haction. by left.
Qed.


Section FamilyBlocks.

Variable AF_MAP : gmap string Z.
Variable PROTO_MAP : gmap string Z.


End FamilyBlocks.




(** * Which exception a conversion raises *)

Lemma first_unknown_None (PROTO_MAP : gmap string Z) (protos : list policy.Protocol) :
  first_unknown PROTO_MAP protos = None →
  forallb (resolvable PROTO_MAP) protos = true.
Proof.
  induction protos as [|x protos IH]; [done|]. cbn [first_unknown forallb].
  destruct (resolvable PROTO_MAP x) eqn:Hx; [by apply IH|].
  by destruct x.
Qed.

(** The exception of a conversion is the one [conversion_error] gives. *)
Lemma ConvertToDict_conversion_error (AF_MAP PROTO_MAP : gmap string Z)
    (term : policy.Term) (inet_version : string) :
  match conversion_error AF_MAP PROTO_MAP term inet_version with
  | Some e => ConvertToDict AF_MAP PROTO_MAP term inet_version = Raise e
  | None => ∃ rs, ConvertToDict AF_MAP PROTO_MAP term inet_version = Ok rs
  end.
Proof.
  unfold conversion_error.
  destruct (AF_MAP !! inet_version) as [af|] eqn:Haf.
  2:{ unfold ConvertToDict, family_of. by rewrite Haf. }
  destruct (AF_RENAME !! af) as [family|] eqn:Hfamily.
  2:{ unfold ConvertToDict, family_of. by rewrite Haf, Hfamily. }
  assert (family_ok AF_MAP inet_version = true) as Hf.
  { unfold family_ok. rewrite Haf. apply bool_decide_eq_true. by eexists. }
  destruct (policy.action term) as [|a l] eqn:Hact.
  { unfold ConvertToDict, family_of. rewrite Haf, Hfamily. simpl.
    by rewrite SetAction_empty, Hact. }
  destruct (ACTION_MAP !! a) as [action|] eqn:Haction.
  2:{ unfold ConvertToDict, family_of. rewrite Haf, Hfamily. simpl.
      by rewrite SetAction_empty, Hact, Haction. }
  assert (action_ok term = true) as Ha.
  { unfold action_ok. rewrite Hact. apply bool_decide_eq_true. by eexists. }
  destruct (bool_decide ("tcp-established" ∈ policy.option term)) eqn:Hopt;
    [destruct (bool_decide (policy.protocol term ≠ [policy.ProtoName "tcp"]))
       eqn:Hproto|]; cbn [andb].
  - apply bool_decide_eq_true in Hopt, Hproto.
    by apply ConvertToDict_raises_option.
  - assert (option_ok term = true) as Ho.
    { unfold option_ok. apply orb_true_iff. right. apply bool_decide_eq_true.
      apply bool_decide_eq_false in Hproto.
      by destruct (decide (policy.protocol term = [policy.ProtoName "tcp"])). }
    destruct (first_unknown PROTO_MAP (policy.protocol term)) as [tok|] eqn:Htok.
    + by apply ConvertToDict_raises_unknown.
    + apply ConvertToDict_returns. unfold convertible.
      by rewrite Hf, Ha, Ho, (first_unknown_None _ _ Htok).
  - assert (option_ok term = true) as Ho.
    { unfold option_ok. apply orb_true_iff. left. apply bool_decide_eq_true.
      by apply bool_decide_eq_false in Hopt. }
    destruct (first_unknown PROTO_MAP (policy.protocol term)) as [tok|] eqn:Htok.
    + by apply ConvertToDict_raises_unknown.
    + apply ConvertToDict_returns. unfold convertible.
      by rewrite Hf, Ha, Ho, (first_unknown_None _ _ Htok).
Qed.

(** X1. The outcome of [ConvertToDict] follows the order of its checks: an
    unknown family name raises KeyError before anything else, then an empty
    action list raises IndexError and an unknown action KeyError, then
    tcp-established with a protocol list other than ['tcp'] raises
    TcpEstablishedWithNonTcpError, then the first protocol name missing
    from the table raises OcFirewallError; when none of these applies the
    call returns. *)
Theorem ConvertToDict_outcome (AF_MAP PROTO_MAP : gmap string Z)
    (term : policy.Term) (inet_version : string) :
  match conversion_error AF_MAP PROTO_MAP term inet_version with
  | Some e => ConvertToDict AF_MAP PROTO_MAP term inet_version = Raise e
  | None => ∃ rs, ConvertToDict AF_MAP PROTO_MAP term inet_version = Ok rs
  end.
Proof. apply ConvertToDict_conversion_error. Qed.

(** The order of the checks on examples: an empty action list under an
    unknown family, an unknown action with the option misused, the option
    misused with an unknown protocol. *)
Example conversion_checks_order :
  ConvertToDict example_AF_MAP example_PROTO_MAP
    {| policy.name := "t"; policy.action := [];
       policy.flattened_saddr := []; policy.flattened_daddr := [];
       policy.source_port := []; policy.destination_port := [];
       policy.protocol := []; policy.option := []; policy.comment := [] |}
    "bridge" = Raise (KeyError "None")
  ∧ ConvertToDict example_AF_MAP example_PROTO_MAP
      {| policy.name := "t"; policy.action := ["next"];
         policy.flattened_saddr := []; policy.flattened_daddr := [];
         policy.source_port := []; policy.destination_port := [];
         policy.protocol := [policy.ProtoName "bogus"];
         policy.option := ["tcp-established"]; policy.comment := [] |}
      "inet" = Raise (KeyError "next")
  ∧ ConvertToDict example_AF_MAP example_PROTO_MAP
      {| policy.name := "t"; policy.action := ["deny"];
         policy.flattened_saddr := []; policy.flattened_daddr := [];
         policy.source_port := []; policy.destination_port := [];
         policy.protocol := [policy.ProtoName "bogus"];
         policy.option := ["tcp-established"]; policy.comment := [] |}
      "inet" = Raise (TcpEstablishedWithNonTcpError
                        "tcp-established can only be used with tcp protocol in term t").
Proof. vm_compute. done. Qed.

(** * The fields of the entries of a term *)

Lemma elem_of_iterations (saddrs daddrs : list AddrItem) (sports dports : list (Z * Z))
    (protos : list policy.Protocol) (it : Iteration) :
  it ∈ iterations saddrs daddrs sports dports protos →
  it_saddr it ∈ saddrs ∧ it_daddr it ∈ daddrs ∧ it_sport it ∈ sports
  ∧ it_dport it ∈ dports ∧ it_proto it ∈ protos.
Proof.
  unfold iterations.
  intros (sa & (da & (sp & (dp & (pr & Hit & Hpr)%list_elem_of_bind
    & Hdp)%list_elem_of_bind & Hsp)%list_elem_of_bind
    & Hda)%list_elem_of_bind & Hsa)%list_elem_of_bind.
  apply list_elem_of_singleton in Hit as ->. by simpl.
Qed.

Lemma elem_of_or_any (addrs : list policy.Address) (x : AddrItem) :
  x ∈ or_any addrs →
  (x = Any ∧ addrs = []) ∨ (∃ a, x = Addr a ∧ a ∈ addrs).
Proof.
  destruct addrs as [|a0 addrs]; simpl.
  - intros ->%list_elem_of_singleton. by left.
  - intros Hx. right.
    change (x ∈ Addr <$> (a0 :: addrs)) in Hx.
    apply list_elem_of_fmap in Hx as (a & -> & Ha). by exists a.
Qed.

Lemma elem_of_GetAddressOfVersion (addrs : list policy.Address) (af : Z)
    (a : policy.Address) :
  a ∈ policy.GetAddressOfVersion addrs af ↔ policy.version a = af ∧ a ∈ addrs.
Proof.
  unfold policy.GetAddressOfVersion.
  apply (list_elem_of_filter (λ x, policy.version x = af)).
Qed.

Lemma writes_source_address (PROTO_MAP : gmap string Z) (family : string)
    (it : Iteration) :
  writes PROTO_MAP family (family, "config", "source-address") it =
  saddr_write family (family, "config", "source-address") (it_saddr it).
Proof.
  unfold writes.
  by rewrite silent_proto_write, silent_dport_write, silent_sport_write,
    silent_daddr_write by done.
Qed.

Lemma writes_destination_address (PROTO_MAP : gmap string Z) (family : string)
    (it : Iteration) :
  writes PROTO_MAP family (family, "config", "destination-address") it =
  daddr_write family (family, "config", "destination-address") (it_daddr it).
Proof.
  unfold writes.
  rewrite silent_proto_write, silent_dport_write, silent_sport_write,
    silent_saddr_write by done.
  simpl. apply overwrite_None_r.
Qed.

Lemma initial_dict_no_field (term : policy.Term) (k1 k2 k3 : string) :
  k3 ∉ ["forwarding-action"; "detail-mode"; "builtin-detail"] →
  lookup3 k1 k2 k3 (initial_dict term) = None.
Proof.
  intros Hk. destruct (lookup3 k1 k2 k3 (initial_dict term)) as [v|] eqn:Hv;
    [|done]. by apply initial_dict_field in Hv.
Qed.

Lemma initial_dict_action (term : policy.Term) :
  lookup3 "actions" "config" "forwarding-action" (initial_dict term)
  = Some (VStr (action_name term)).
Proof. unfold initial_dict. by case_bool_decide. Qed.

Section EntryFields.

Variable AF_MAP : gmap string Z.
Variable PROTO_MAP : gmap string Z.
Variable term : policy.Term.
Variable inet_version : string.
Variable rs : list Dict.
Hypothesis conversion :
  ConvertToDict AF_MAP PROTO_MAP term inet_version = Ok rs.

(** A field that none of the iterations of the term writes. *)
Lemma rule_frame_iterations (p : Path) :
  (∀ it, it ∈ iterations_of term (af_of AF_MAP inet_version) →
         writes PROTO_MAP (family_name AF_MAP inet_version) p it = None) →
  Forall (λ e, lookup_path p e = lookup_path p (initial_dict term)) rs.
Proof.
  intros Hw.
  pose proof (ConvertToDict_path _ _ _ _ _ p conversion) as Hp.
  rewrite carry_quiet in Hp.
  2:{ apply Forall_fmap, Forall_forall. intros it Hit. by apply Hw. }
  apply Forall_lookup. intros i e He.
  assert ((lookup_path p <$> rs) !! i = Some (lookup_path p e)) as Hl.
  { by rewrite list_lookup_fmap, He. }
  rewrite Hp in Hl. by apply lookup_replicate in Hl as [<- _].
Qed.

(** With no source address of the family, no rule has a source address. *)
Lemma rules_without_source_address :
  policy.GetAddressOfVersion (policy.flattened_saddr term)
    (af_of AF_MAP inet_version) = [] →
  Forall (λ e, lookup3 (family_name AF_MAP inet_version) "config"
                 "source-address" e = None) rs.
Proof.
  intros Hnil.
  pose proof (rule_frame_iterations
    (family_name AF_MAP inet_version, "config", "source-address")) as Hframe.
  unfold lookup_path in Hframe. simpl in Hframe.
  rewrite initial_dict_no_field in Hframe
    by (by apply (proj1 (bool_decide_eq_false _))).
  apply Hframe. intros it Hit. rewrite writes_source_address.
  unfold iterations_of in Hit. apply elem_of_iterations in Hit as (Hsa & _).
  unfold saddrs_of in Hsa. rewrite Hnil in Hsa.
  by apply list_elem_of_singleton in Hsa as ->.
Qed.

Lemma rules_without_destination_address :
  policy.GetAddressOfVersion (policy.flattened_daddr term)
    (af_of AF_MAP inet_version) = [] →
  Forall (λ e, lookup3 (family_name AF_MAP inet_version) "config"
                 "destination-address" e = None) rs.
Proof.
  intros Hnil.
  pose proof (rule_frame_iterations
    (family_name AF_MAP inet_version, "config", "destination-address")) as Hframe.
  unfold lookup_path in Hframe. simpl in Hframe.
  rewrite initial_dict_no_field in Hframe
    by (by apply (proj1 (bool_decide_eq_false _))).
  apply Hframe. intros it Hit. rewrite writes_destination_address.
  unfold iterations_of in Hit. apply elem_of_iterations in Hit as (_ & Hda & _).
  unfold daddrs_of in Hda. rewrite Hnil in Hda.
  by apply list_elem_of_singleton in Hda as ->.
Qed.

(** The addresses of the rule of an iteration are the addresses of the
    iteration. *)
Lemma rule_addresses (i : nat) (it : Iteration) (e : Dict) :
  iterations_of term (af_of AF_MAP inet_version) !! i = Some it →
  rs !! i = Some e →
  lookup3 (family_name AF_MAP inet_version) "config" "source-address" e
  = match it_saddr it with Any => None | Addr a => Some (VStr (policy.text a)) end
  ∧ lookup3 (family_name AF_MAP inet_version) "config" "destination-address" e
    = match it_daddr it with Any => None | Addr a => Some (VStr (policy.text a)) end.
Proof.
  intros Hit He.
  pose proof (list_elem_of_lookup_2 _ _ _ Hit) as Hin.
  unfold iterations_of in Hin.
  apply elem_of_iterations in Hin as (Hsa & Hda & _).
  pose proof (list_elem_of_lookup_2 _ _ _ He) as Hers.
  split.
  - destruct (it_saddr it) as [|a] eqn:Hitem.
    + apply elem_of_or_any in Hsa as [[_ Hnil]|(a & [=] & _)].
      pose proof (rules_without_source_address Hnil) as Hall.
      rewrite Forall_forall in Hall. by apply Hall.
    + apply (rule_written _ _ _ _ _ conversion
               (family_name AF_MAP inet_version, "config", "source-address")
               i it e _ Hit He).
      rewrite writes_source_address, Hitem. unfold saddr_write, write_at.
      by rewrite decide_True.
  - destruct (it_daddr it) as [|a] eqn:Hitem.
    + apply elem_of_or_any in Hda as [[_ Hnil]|(a & [=] & _)].
      pose proof (rules_without_destination_address Hnil) as Hall.
      rewrite Forall_forall in Hall. by apply Hall.
    + apply (rule_written _ _ _ _ _ conversion
               (family_name AF_MAP inet_version, "config", "destination-address")
               i it e _ Hit He).
      rewrite writes_destination_address, Hitem. unfold daddr_write, write_at.
      by rewrite decide_True.
Qed.

End EntryFields.

Lemma GetAddressOfVersion_other_family (addrs : list policy.Address) (af : Z) :
  (∀ a, a ∈ addrs → policy.version a ≠ af) →
  policy.GetAddressOfVersion addrs af = [].
Proof.
  intros H. destruct (policy.GetAddressOfVersion addrs af) as [|a l] eqn:Hl; [done|].
  assert (a ∈ policy.GetAddressOfVersion addrs af) as Ha by (rewrite Hl; by left).
  apply elem_of_GetAddressOfVersion in Ha as [Hv Ha]. by destruct (H a Ha).
Qed.

(** X2. Every entry of a term that converts carries the forwarding action
    of the first action of the term, translated by ACTION_MAP to ACCEPT,
    DROP or REJECT; the other actions of the list are not read. *)
Theorem forwarding_action_of_entries (AF_MAP PROTO_MAP : gmap string Z)
    (term : policy.Term) (inet_version : string) :
  convertible AF_MAP PROTO_MAP term inet_version = true →
  ∃ rs a action,
    ConvertToDict AF_MAP PROTO_MAP term inet_version = Ok rs
    ∧ head (policy.action term) = Some a
    ∧ ACTION_MAP !! a = Some action
    ∧ action ∈ ["ACCEPT"; "DROP"; "REJECT"]
    ∧ Forall (λ e, lookup3 "actions" "config" "forwarding-action" e
                   = Some (VStr action)) rs.
Proof.
  intros Hconv.
  destruct (ConvertToDict_returns _ _ _ _ Hconv) as [rs Hrs].
  destruct (ConvertToDict_checks _ _ _ _ _ Hrs) as (_ & Ha & _).
  unfold action_ok in Ha.
  destruct (policy.action term) as [|a l] eqn:Hact; [done|].
  apply bool_decide_eq_true in Ha as [action Haction].
  exists rs, a, action. split_and!; [done|done|done| |].
  - unfold ACTION_MAP in Haction. simpl in Haction.
    apply lookup_insert_Some in Haction as [[_ <-]|[_ Haction]]; [by left|].
    apply lookup_insert_Some in Haction as [[_ <-]|[_ Haction]];
      [right; by left|].
    apply lookup_insert_Some in Haction as [[_ <-]|[_ Haction]];
      [right; right; by left|].
    by rewrite lookup_empty in Haction.
  - pose proof (rule_frame _ _ _ _ _ Hrs ("actions", "config", "forwarding-action"))
      as Hframe.
    unfold lookup_path in Hframe. simpl in Hframe.
    rewrite initial_dict_action in Hframe.
    assert (action_name term = action) as <-.
    { unfold action_name. rewrite Hact. simpl. by rewrite Haction. }
    apply Hframe. intros it. apply writes_other_field.
    by apply (proj1 (bool_decide_eq_false _)).
Qed.

Lemma forwarding_action_of_entries_witness :
  ∃ rs a action,
    ConvertToDict example_AF_MAP example_PROTO_MAP v6_only_term "inet6" = Ok rs
    ∧ head (policy.action v6_only_term) = Some a
    ∧ ACTION_MAP !! a = Some action
    ∧ action ∈ ["ACCEPT"; "DROP"; "REJECT"]
    ∧ Forall (λ e, lookup3 "actions" "config" "forwarding-action" e
                   = Some (VStr action)) rs.
Proof.
  exact (forwarding_action_of_entries example_AF_MAP example_PROTO_MAP
           v6_only_term "inet6" eq_refl).
Defined.

(** X3. The source address and the destination address of an entry are
    those of its iteration, as text: present exactly when the term has
    addresses of the family for that side.  An address is never carried
    over from another iteration, and every address of an iteration has the
    version of the family. *)
Theorem address_fields_of_entries (AF_MAP PROTO_MAP : gmap string Z)
    (term : policy.Term) (inet_version : string) :
  convertible AF_MAP PROTO_MAP term inet_version = true →
  ∃ rs, ConvertToDict AF_MAP PROTO_MAP term inet_version = Ok rs
    ∧ Forall2 (λ it e,
        lookup3 (family_name AF_MAP inet_version) "config" "source-address" e
        = match it_saddr it with
          | Any => None
          | Addr a => Some (VStr (policy.text a))
          end
        ∧ lookup3 (family_name AF_MAP inet_version) "config"
            "destination-address" e
          = match it_daddr it with
            | Any => None
            | Addr a => Some (VStr (policy.text a))
            end)
        (iterations_of term (af_of AF_MAP inet_version)) rs
    ∧ Forall (λ it, ∀ a, it_saddr it = Addr a ∨ it_daddr it = Addr a →
                         policy.version a = af_of AF_MAP inet_version)
        (iterations_of term (af_of AF_MAP inet_version)).
Proof.
  intros [rs Hrs]%ConvertToDict_returns. exists rs. split_and!; [done| |].
  - apply Forall2_same_length_lookup. split.
    + symmetry. by eapply ConvertToDict_length.
    + intros i it e Hit He. by eapply rule_addresses.
  - apply Forall_forall. unfold iterations_of.
    intros it (Hsa & Hda & _)%elem_of_iterations a [Ha|Ha].
    + rewrite Ha in Hsa.
      apply elem_of_or_any in Hsa as [[[=] _]|(b & [= <-] & Hb)].
      by apply elem_of_GetAddressOfVersion in Hb as [? _].
    + rewrite Ha in Hda.
      apply elem_of_or_any in Hda as [[[=] _]|(b & [= <-] & Hb)].
      by apply elem_of_GetAddressOfVersion in Hb as [? _].
Qed.

Lemma address_fields_of_entries_witness :
  ∃ rs, ConvertToDict example_AF_MAP example_PROTO_MAP web_term "inet" = Ok rs
    ∧ Forall2 (λ it e,
        lookup3 "ipv4" "config" "source-address" e
        = match it_saddr it with
          | Any => None
          | Addr a => Some (VStr (policy.text a))
          end
        ∧ lookup3 "ipv4" "config" "destination-address" e
          = match it_daddr it with
            | Any => None
            | Addr a => Some (VStr (policy.text a))
            end)
        (iterations_of web_term 4) rs
    ∧ Forall (λ it, ∀ a, it_saddr it = Addr a ∨ it_daddr it = Addr a →
                         policy.version a = 4)
        (iterations_of web_term 4).
Proof.
  exact (address_fields_of_entries example_AF_MAP example_PROTO_MAP web_term
           "inet" eq_refl).
Defined.

(** X4. A term whose source addresses (destination addresses) are all of
    the other family converts under this family like a term with no source
    (destination) address: no entry has the address field, so the entries
    match any address of this family. *)
Theorem other_family_addresses_match_any (AF_MAP PROTO_MAP : gmap string Z)
    (term : policy.Term) (inet_version : string) :
  convertible AF_MAP PROTO_MAP term inet_version = true →
  ∃ rs, ConvertToDict AF_MAP PROTO_MAP term inet_version = Ok rs
    ∧ rs ≠ []
    ∧ ((∀ a, a ∈ policy.flattened_saddr term →
             policy.version a ≠ af_of AF_MAP inet_version) →
       Forall (λ e, lookup3 (family_name AF_MAP inet_version) "config"
                      "source-address" e = None) rs)
    ∧ ((∀ a, a ∈ policy.flattened_daddr term →
             policy.version a ≠ af_of AF_MAP inet_version) →
       Forall (λ e, lookup3 (family_name AF_MAP inet_version) "config"
                      "destination-address" e = None) rs).
Proof.
  intros [rs Hrs]%ConvertToDict_returns. exists rs. split_and!; [done| | |].
  - pose proof (ConvertToDict_length _ _ _ _ _ Hrs) as Hlen.
    intros ->. simpl in Hlen. symmetry in Hlen.
    apply length_zero_iff_nil in Hlen. unfold iterations_of in Hlen.
    pose proof (length_iterations
      (saddrs_of term (af_of AF_MAP inet_version))
      (daddrs_of term (af_of AF_MAP inet_version))
      (sports_of term) (dports_of term) (protos_of term)) as Hl.
    rewrite Hlen in Hl. simpl in Hl. symmetry in Hl.
    unfold saddrs_of, daddrs_of, sports_of, dports_of, protos_of in Hl.
    rewrite !length_or_any, !length_or_default in Hl.
    pose proof (dimension_pos (policy.GetAddressOfVersion
      (policy.flattened_saddr term) (af_of AF_MAP inet_version))).
    pose proof (dimension_pos (policy.GetAddressOfVersion
      (policy.flattened_daddr term) (af_of AF_MAP inet_version))).
    pose proof (dimension_pos (policy.source_port term)).
    pose proof (dimension_pos (policy.destination_port term)).
    pose proof (dimension_pos (policy.protocol term)). nia.
  - intros Hother. eapply rules_without_source_address; [done|].
    by apply GetAddressOfVersion_other_family.
  - intros Hother. eapply rules_without_destination_address; [done|].
    by apply GetAddressOfVersion_other_family.
Qed.

Lemma other_family_addresses_match_any_witness :
  ∃ rs, ConvertToDict example_AF_MAP example_PROTO_MAP v6_only_term "inet" = Ok rs
    ∧ rs ≠ []
    ∧ Forall (λ e, lookup3 "ipv4" "config" "source-address" e = None) rs
    ∧ Forall (λ e, lookup3 "ipv4" "config" "destination-address" e = None) rs.
Proof.
  destruct (other_family_addresses_match_any example_AF_MAP example_PROTO_MAP
              v6_only_term "inet" eq_refl) as (rs & Hrs & Hne & Hsrc & Hdst).
  exists rs. split_and!; [exact Hrs | exact Hne | apply Hsrc | apply Hdst].
  - intros a Ha. apply list_elem_of_singleton in Ha. rewrite Ha. discriminate.
  - intros a Ha. apply list_elem_of_singleton in Ha. rewrite Ha. discriminate.
Defined.

(** X5. Without the option tcp-established no entry has the fields
    detail-mode and builtin-detail: the other options of a term are not
    read. *)
Theorem no_marker_without_option (AF_MAP PROTO_MAP : gmap string Z)
    (term : policy.Term) (inet_version : string) :
  "tcp-established" ∉ policy.option term →
  convertible AF_MAP PROTO_MAP term inet_version = true →
  ∃ rs, ConvertToDict AF_MAP PROTO_MAP term inet_version = Ok rs
    ∧ Forall (λ e, lookup3 "transport" "config" "detail-mode" e = None
                   ∧ lookup3 "transport" "config" "builtin-detail" e = None) rs.
Proof.
  intros Hopt [rs Hrs]%ConvertToDict_returns. exists rs. split; [done|].
  assert (∀ k3, k3 ∈ ["detail-mode"; "builtin-detail"] →
            Forall (λ e, lookup3 "transport" "config" k3 e = None) rs) as Hk.
  { intros k3 Hk3.
    pose proof (rule_frame _ _ _ _ _ Hrs ("transport", "config", k3)) as Hframe.
    unfold lookup_path in Hframe. simpl in Hframe.
    assert (lookup3 "transport" "config" k3 (initial_dict term) = None) as Hinit.
    { unfold initial_dict. by rewrite bool_decide_false. }
    rewrite Hinit in Hframe. apply Hframe. intros it.
    apply writes_other_field. simpl.
    apply elem_of_cons in Hk3 as [->|Hk3];
      [by apply (proj1 (bool_decide_eq_false _))|].
    apply list_elem_of_singleton in Hk3 as ->.
    by apply (proj1 (bool_decide_eq_false _)). }
  apply Forall_and. split; apply Hk; [by left | right; by left].
Qed.

Lemma no_marker_without_option_witness :
  ∃ rs, ConvertToDict example_AF_MAP example_PROTO_MAP
          (any_term ["established"; "first-fragment"]) "inet" = Ok rs
    ∧ Forall (λ e, lookup3 "transport" "config" "detail-mode" e = None
                   ∧ lookup3 "transport" "config" "builtin-detail" e = None) rs.
Proof.
  apply (no_marker_without_option example_AF_MAP example_PROTO_MAP
           (any_term ["established"; "first-fragment"]) "inet").
  - apply (proj1 (bool_decide_eq_false _)). reflexivity.
  - reflexivity.
Defined.

(** * The fields an entry can have *)

Lemma write_at_Some (p q : Path) (v w : Value) :
  write_at p q v = Some w → p = q ∧ w = v.
Proof. unfold write_at. case_decide; [|done]. by intros [= <-]. Qed.

Lemma overwrite_Some {V : Type} (w c : option V) (v : V) :
  overwrite w c = Some v → w = Some v ∨ c = Some v.
Proof. destruct w; simpl; eauto. Qed.

Lemma has_kind_port_value (start end_ : Z) :
  has_kind KIntOrStr (port_value start end_) = true.
Proof. unfold port_value. by case_bool_decide. Qed.

(** What an iteration writes is a field of the setters, of its kind. *)
Lemma writes_entry_field (PROTO_MAP : gmap string Z) (family : string) (p : Path)
    (it : Iteration) (v : Value) :
  writes PROTO_MAP family p it = Some v →
  ∃ kind, (p, kind) ∈ entry_fields family ∧ has_kind kind v = true.
Proof.
  unfold writes, entry_fields. intros Hw.
  apply overwrite_Some in Hw as [Hw|Hw].
  { unfold proto_write in Hw.
    destruct (proto_number PROTO_MAP (it_proto it)) as [n|]; [|done].
    apply write_at_Some in Hw as [-> ->]. exists KInt. split; [|done].
    do 3 apply list_elem_of_further. apply list_elem_of_here. }
  apply overwrite_Some in Hw as [Hw|Hw].
  { unfold dport_write in Hw. destruct (is_any_port (it_dport it)); [done|].
    apply write_at_Some in Hw as [-> ->]. exists KIntOrStr.
    split; [|apply has_kind_port_value].
    do 5 apply list_elem_of_further. apply list_elem_of_here. }
  apply overwrite_Some in Hw as [Hw|Hw].
  { unfold sport_write in Hw. destruct (is_any_port (it_sport it)); [done|].
    apply write_at_Some in Hw as [-> ->]. exists KIntOrStr.
    split; [|apply has_kind_port_value].
    do 4 apply list_elem_of_further. apply list_elem_of_here. }
  apply overwrite_Some in Hw as [Hw|Hw].
  { unfold daddr_write in Hw. destruct (it_daddr it) as [|a]; [done|].
    apply write_at_Some in Hw as [-> ->]. exists KStr. split; [|done].
    do 2 apply list_elem_of_further. apply list_elem_of_here. }
  unfold saddr_write in Hw. destruct (it_saddr it) as [|a]; [done|].
  apply write_at_Some in Hw as [-> ->]. exists KStr. split; [|done].
  apply list_elem_of_further. apply list_elem_of_here.
Qed.

(** What the dictionary holds before the loops is a field of [SetAction]
    or of [SetOptions]. *)
Lemma initial_dict_entry_field (term : policy.Term) (family k1 k2 k3 : string)
    (v : Value) :
  lookup3 k1 k2 k3 (initial_dict term) = Some v →
  ∃ kind, ((k1, k2, k3), kind) ∈ entry_fields family ∧ has_kind kind v = true.
Proof.
  assert (∀ a, lookup3 k1 k2 k3 (action_dict a) = Some v →
            ∃ kind, ((k1, k2, k3), kind) ∈ entry_fields family
                    ∧ has_kind kind v = true) as Haction.
  { intros a. unfold lookup3, action_dict.
    destruct (decide (k1 = "actions")) as [->|];
      [rewrite lookup_singleton_eq | by rewrite lookup_singleton_ne]. simpl.
    destruct (decide (k2 = "config")) as [->|];
      [rewrite lookup_singleton_eq | by rewrite lookup_singleton_ne]. simpl.
    destruct (decide (k3 = "forwarding-action")) as [->|];
      [| by rewrite lookup_singleton_ne].
    rewrite lookup_singleton_eq. intros [= <-]. exists KStr. split; [|done].
    apply list_elem_of_here. }
  unfold initial_dict. case_bool_decide; [|by apply Haction].
  unfold established_dict, lookup3.
  destruct (decide (k1 = "transport")) as [->|].
  - rewrite lookup_insert_eq. simpl.
    destruct (decide (k2 = "config")) as [->|];
      [rewrite lookup_singleton_eq | by rewrite lookup_singleton_ne]. simpl.
    unfold _tcp_established. simpl.
    intros [[<- <-]|[_ H2]]%lookup_insert_Some.
    + exists KStr. split; [|done].
      do 6 apply list_elem_of_further. apply list_elem_of_here.
    + apply lookup_insert_Some in H2 as [[<- <-]|[_ H3]].
      * exists KStr. split; [|done].
        do 7 apply list_elem_of_further. apply list_elem_of_here.
      * by rewrite lookup_empty in H3.
  - rewrite lookup_insert_ne by done. apply Haction.
Qed.

Section EntrySchema.

Variable AF_MAP : gmap string Z.
Variable PROTO_MAP : gmap string Z.
Variable term : policy.Term.
Variable inet_version : string.
Variable rs : list Dict.
Hypothesis conversion :
  ConvertToDict AF_MAP PROTO_MAP term inet_version = Ok rs.

Lemma rule_family_name :
  family_name AF_MAP inet_version ∈ ["ipv4"; "ipv6"].
Proof.
  destruct (ConvertToDict_checks _ _ _ _ _ conversion) as (Hf & _ & _).
  destruct (family_name_cases _ _ Hf) as [->| ->];
    by apply (proj1 (bool_decide_eq_true _)).
Qed.

(** The top-level keys of a rule. *)
Lemma rule_keys (e : Dict) (k : string) :
  e ∈ rs → is_Some (e !! k) →
  k ∈ ["actions"; family_name AF_MAP inet_version; "transport"].
Proof.
  intros He Hk.
  destruct (decide (k = family_name AF_MAP inet_version)) as [->|H1].
  { apply list_elem_of_further, list_elem_of_here. }
  destruct (decide (k = "transport")) as [->|H2].
  { do 2 apply list_elem_of_further. apply list_elem_of_here. }
  destruct (decide (k = "actions")) as [->|H3]; [apply list_elem_of_here|].
  pose proof (ConvertToDict_key _ _ _ _ _ k conversion H1 H2) as Hkey.
  rewrite Forall_forall in Hkey.
  rewrite (Hkey e He), initial_dict_family in Hk by done.
  by destruct Hk.
Qed.

Lemma rule_no_sequence_id : Forall (λ e : Dict, e !! "sequence-id" = None) rs.
Proof.
  apply Forall_forall. intros e He.
  destruct (e !! "sequence-id") as [v|] eqn:Hv; [|done].
  assert (is_Some (e !! "sequence-id")) as Hk by (by eexists).
  apply (rule_keys e "sequence-id" He) in Hk.
  pose proof rule_family_name as Hfam.
  apply elem_of_cons in Hk as [[=]|Hk].
  apply elem_of_cons in Hk as [Hk|Hk].
  { rewrite <- Hk in Hfam. exfalso. revert Hfam.
    by apply (proj1 (bool_decide_eq_false _)). }
  apply list_elem_of_singleton in Hk. discriminate.
Qed.

(** The fields of a rule. *)
Lemma rule_entry_field (e : Dict) (k1 k2 k3 : string) (v : Value) :
  e ∈ rs → lookup3 k1 k2 k3 e = Some v →
  ∃ kind, ((k1, k2, k3), kind) ∈ entry_fields (family_name AF_MAP inet_version)
          ∧ has_kind kind v = true.
Proof.
  intros He Hv.
  destruct (rule_field _ _ _ _ _ conversion (k1, k2, k3) e v He Hv)
    as [Hinit|(it & _ & Hw)].
  - by eapply initial_dict_entry_field.
  - by eapply writes_entry_field.
Qed.

End EntrySchema.

(** X6. Every entry of a translation run has the key sequence-id, holding
    an integer, and beside it no key other than actions, ipv4, ipv6 and
    transport; every field d[k1][k2][k3] of an entry is one the setters
    write - the forwarding action, the two addresses and the protocol of a
    family block, the two ports and the two markers of the transport block -
    and holds a value of the setter's kind: a string, an integer for the
    protocol, an integer or a string for a port. *)
Theorem entries_have_setter_fields (base_init : policy.Term → option Exception)
    (AF_MAP PROTO_MAP : gmap string Z)
    (_SUPPORTED_AF : list string) (self0 : OpenConfig) (pol : policy.Policy) :
  policy_ok base_init AF_MAP PROTO_MAP _SUPPORTED_AF pol = true →
  ∃ self1, _TranslatePolicy base_init AF_MAP PROTO_MAP _SUPPORTED_AF self0 pol = Ok self1
    ∧ Forall (λ e : Dict,
        (∃ n, e !! "sequence-id" = Some (VInt n))
        ∧ (∀ k, is_Some (e !! k) →
                k ∈ ["sequence-id"; "actions"; "ipv4"; "ipv6"; "transport"])
        ∧ (∀ k1 k2 k3 v, lookup3 k1 k2 k3 e = Some v →
             ∃ family kind, family ∈ ["ipv4"; "ipv6"]
               ∧ ((k1, k2, k3), kind) ∈ entry_fields family
               ∧ has_kind kind v = true))
        (all_entries self1).
Proof.
  intros Hok.
  destruct (_TranslatePolicy_returns _ _ _ _ self0 _ Hok) as [self1 Hrun].
  exists self1. split; [done|].
  eapply all_entries_Forall; [|exact Hrun].
  intros term inet_version rs e n Hrs He. split_and!.
  - exists n. apply lookup_insert_eq.
  - intros k Hk. destruct (decide (k = "sequence-id")) as [->|Hne];
      [apply list_elem_of_here|].
    rewrite lookup_insert_ne in Hk by done.
    apply (rule_keys _ _ _ _ _ Hrs e k He) in Hk.
    pose proof (rule_family_name _ _ _ _ _ Hrs) as Hfam.
    apply list_elem_of_further.
    apply elem_of_cons in Hk as [->|Hk]; [apply list_elem_of_here|].
    apply elem_of_cons in Hk as [->|Hk].
    + apply list_elem_of_further.
      apply elem_of_cons in Hfam as [->|Hfam]; [apply list_elem_of_here|].
      apply list_elem_of_singleton in Hfam as ->.
      apply list_elem_of_further, list_elem_of_here.
    + apply list_elem_of_singleton in Hk as ->.
      do 3 apply list_elem_of_further. apply list_elem_of_here.
  - intros k1 k2 k3 v Hv%lookup3_insert_int.
    exists (family_name AF_MAP inet_version).
    destruct (rule_entry_field _ _ _ _ _ Hrs e k1 k2 k3 v He Hv)
      as (kind & Hin & Hkind).
    exists kind. split_and!; [|done..]. by eapply rule_family_name.
Qed.

Lemma entries_have_setter_fields_witness :
  ∃ self1, _TranslatePolicy example_init example_AF_MAP example_PROTO_MAP example_order
             example_self example_policy = Ok self1
    ∧ Forall (λ e : Dict,
        (∃ n, e !! "sequence-id" = Some (VInt n))
        ∧ (∀ k, is_Some (e !! k) →
                k ∈ ["sequence-id"; "actions"; "ipv4"; "ipv6"; "transport"])
        ∧ (∀ k1 k2 k3 v, lookup3 k1 k2 k3 e = Some v →
             ∃ family kind, family ∈ ["ipv4"; "ipv6"]
               ∧ ((k1, k2, k3), kind) ∈ entry_fields family
               ∧ has_kind kind v = true))
        (all_entries self1).
Proof.
  exact (entries_have_setter_fields example_init example_AF_MAP example_PROTO_MAP
           example_order example_self example_policy eq_refl).
Defined.

(** * Numbering leaves the rules as they are *)

Lemma delete_number_from (count : Z) (rules : list Dict) :
  Forall (λ e : Dict, e !! "sequence-id" = None) rules →
  (delete "sequence-id" : Dict → Dict) <$> number_from count rules = rules.
Proof.
  revert count. induction rules as [|r rules IH]; intros count Hall; [done|].
  apply Forall_cons in Hall as [Hr Hall].
  rewrite number_from_cons, fmap_cons, IH by done.
  by rewrite delete_insert_eq, delete_id.
Qed.

Lemma policy_rules_no_sequence_id (AF_MAP PROTO_MAP : gmap string Z)
    (_SUPPORTED_AF : list string) (pol : policy.Policy) :
  Forall (λ e : Dict, e !! "sequence-id" = None)
    (policy_rules AF_MAP PROTO_MAP _SUPPORTED_AF pol).
Proof.
  apply Forall_forall. intros e He. unfold policy_rules, expansion in He.
  apply list_elem_of_bind in He as (f & He & _).
  apply list_elem_of_bind in He as (term & He & _).
  apply list_elem_of_bind in He as (v & He & _).
  destruct (ConvertToDict AF_MAP PROTO_MAP term v) as [rs|] eqn:Hrs.
  - pose proof (rule_no_sequence_id _ _ _ _ _ Hrs) as Hall.
    rewrite Forall_forall in Hall. by apply Hall.
  - by apply not_elem_of_nil in He.
Qed.

(** X7. Numbering adds the key sequence-id and changes nothing else: with
    that key removed, the entries of a run are the rules of the
    conversions, in the order of the loops - filter after filter, in a
    filter term after term, for a term of a mixed filter inet before
    inet6 - and each rule as [ConvertToDict] returned it. *)
Theorem entries_are_the_rules (base_init : policy.Term → option Exception)
    (AF_MAP PROTO_MAP : gmap string Z)
    (_SUPPORTED_AF : list string) (self0 : OpenConfig) (pol : policy.Policy) :
  policy_ok base_init AF_MAP PROTO_MAP _SUPPORTED_AF pol = true →
  ∃ self1, _TranslatePolicy base_init AF_MAP PROTO_MAP _SUPPORTED_AF self0 pol = Ok self1
    ∧ (delete "sequence-id" : Dict → Dict) <$> all_entries self1
      = (filter ← policy.filters pol; term ← filter.2;
         term_af ← term_address_families (filter_family _SUPPORTED_AF filter);
         rules_of (ConvertToDict AF_MAP PROTO_MAP term term_af)).
Proof.
  intros Hok.
  destruct (_TranslatePolicy_returns _ _ _ _ self0 _ Hok) as [self1 Hrun].
  exists self1. split; [done|].
  apply _TranslatePolicy_Ok in Hrun as (-> & _ & _).
  rewrite delete_number_from by apply policy_rules_no_sequence_id.
  done.
Qed.

Lemma entries_are_the_rules_witness :
  ∃ self1, _TranslatePolicy example_init example_AF_MAP example_PROTO_MAP example_order
             example_self example_policy = Ok self1
    ∧ (delete "sequence-id" : Dict → Dict) <$> all_entries self1
      = (filter ← policy.filters example_policy; term ← filter.2;
         term_af ← term_address_families (filter_family example_order filter);
         rules_of (ConvertToDict example_AF_MAP example_PROTO_MAP term term_af)).
Proof.
  exact (entries_are_the_rules example_init example_AF_MAP example_PROTO_MAP example_order
           example_self example_policy eq_refl).
Defined.

(** * The outcome of a translation *)

(** The loop over the families of one term: the exception of the first
    conversion that raises, or the state advanced by the rules. *)
Lemma family_loop_outcome (base_init : policy.Term → option Exception)
    (AF_MAP PROTO_MAP : gmap string Z) (term : policy.Term)
    (families : list string) (st : TermsState) :
  for_each families (λ term_af st,
    t ← _TERM base_init term term_af;
    rs ← ConvertToDict AF_MAP PROTO_MAP t.1 t.2; rule_loop rs st) st =
  match head (term_af ← families;
              option_list (construction_error base_init AF_MAP PROTO_MAP
                             term term_af)) with
  | Some e => Raise e
  | None => Ok (advance st (term_af ← families;
                            rules_of (ConvertToDict AF_MAP PROTO_MAP term term_af)))
  end.
Proof.
  revert st. induction families as [|v families IH]; intros st; cbn [for_each].
  - by rewrite advance_nil.
  - rewrite !bind_cons, head_app.
    assert (construction_error base_init AF_MAP PROTO_MAP term v
            = match base_init term with
              | Some e => Some e
              | None => conversion_error AF_MAP PROTO_MAP term v
              end) as -> by done.
    assert (_TERM base_init term v
            = match base_init term with
              | Some e => Raise e
              | None => Ok (term, v)
              end) as -> by done.
    destruct (base_init term) as [e|] eqn:Hinit; [reflexivity|].
    cbn [mbind result_bind fst snd].
    pose proof (ConvertToDict_conversion_error AF_MAP PROTO_MAP term v) as Hv.
    destruct (conversion_error AF_MAP PROTO_MAP term v) as [e|]; simpl.
    + by rewrite Hv.
    + destruct Hv as [rs ->]. simpl. rewrite rule_loop_advance. simpl.
      rewrite IH. destruct (head (families ≫= _)); [done|].
      by rewrite advance_app.
Qed.

Lemma term_loop_outcome (base_init : policy.Term → option Exception)
    (AF_MAP PROTO_MAP : gmap string Z) (terms : list policy.Term)
    (address_family : string) (st : TermsState) :
  term_loop base_init AF_MAP PROTO_MAP terms address_family st =
  match head (conversion_errors base_init AF_MAP PROTO_MAP terms address_family) with
  | Some e => Raise e
  | None => Ok (advance st (expansion AF_MAP PROTO_MAP terms address_family))
  end.
Proof.
  unfold term_loop, conversion_errors, expansion.
  revert st. induction terms as [|t terms IH]; intros st; cbn [for_each].
  - by rewrite advance_nil.
  - rewrite !bind_cons, head_app, family_loop_outcome.
    destruct (head (term_address_families address_family ≫= _)); [done|].
    simpl. rewrite IH.
    destruct (head (terms ≫= _)); [done|]. by rewrite advance_app.
Qed.

Lemma _TranslateTerms_terms_error (base_init : policy.Term → option Exception)
    (AF_MAP PROTO_MAP : gmap string Z)
    (self0 : OpenConfig) (terms : list policy.Term)
    (address_family filter_name : string) (hdr_comments filter_options : list string) :
  _TranslateTerms base_init AF_MAP PROTO_MAP self0 terms address_family filter_name
    hdr_comments filter_options =
  match terms_error base_init AF_MAP PROTO_MAP terms address_family with
  | Some e => Raise e
  | None =>
      Ok {| total_rule_count :=
              total_rule_count self0
              + Z.of_nat (length (expansion AF_MAP PROTO_MAP terms address_family));
            acl_sets :=
              acl_sets self0
              ++ [rule_set AF_MAP PROTO_MAP (total_rule_count self0) terms
                    address_family filter_name] |}
  end.
Proof.
  unfold _TranslateTerms, terms_error, rule_set. rewrite term_loop_outcome.
  destruct (head _); [done|]. simpl.
  by destruct (FAMILY_MAP !! address_family).
Qed.

(** X8. Whatever the constructor of the base class accepts and raises:
    [_TranslateTerms] constructs and converts term after term, and for a
    term inet before inet6 when the family is mixed, and raises the first
    exception met - that of the constructor, or else that of the conversion
    of the term it accepted; when nothing raises, a family that has no type
    raises KeyError; otherwise the counter grows by the number of rules and
    one rule set is appended, after the rule sets that were there, which
    are left as they are. *)
Theorem TranslateTerms_outcome (base_init : policy.Term → option Exception)
    (AF_MAP PROTO_MAP : gmap string Z)
    (self0 : OpenConfig) (terms : list policy.Term)
    (address_family filter_name : string) (hdr_comments filter_options : list string) :
  _TranslateTerms base_init AF_MAP PROTO_MAP self0 terms address_family filter_name
    hdr_comments filter_options =
  match head (term ← terms; term_af ← term_address_families address_family;
              option_list (match base_init term with
                           | Some e => Some e
                           | None => conversion_error AF_MAP PROTO_MAP term term_af
                           end)) with
  | Some e => Raise e
  | None =>
      match FAMILY_MAP !! address_family with
      | None => Raise (KeyError address_family)
      | Some oc_type =>
          Ok {| total_rule_count :=
                  total_rule_count self0
                  + Z.of_nat (length (expansion AF_MAP PROTO_MAP terms address_family));
                acl_sets :=
                  acl_sets self0
                  ++ [ {| acl_entry :=
                            number_from (total_rule_count self0)
                              (expansion AF_MAP PROTO_MAP terms address_family);
                          config_name := filter_name; config_type := oc_type;
                          set_name := filter_name; set_type := oc_type |} ] |}
      end
  end.
Proof.
  rewrite _TranslateTerms_terms_error.
  unfold terms_error, rule_set, conversion_errors, construction_error.
  destruct (head _); [done|].
  by destruct (FAMILY_MAP !! address_family).
Qed.

(** The loop over the filters. *)
Lemma filter_loop_outcome (base_init : policy.Term → option Exception)
    (AF_MAP PROTO_MAP : gmap string Z)
    (_SUPPORTED_AF : list string)
    (filters : list (policy.Header * list policy.Term))
    (st : OpenConfig * option string) :
  for_each filters (λ filter (st : OpenConfig * option string),
    self2 ← _TranslateTerms base_init AF_MAP PROTO_MAP st.1 filter.2
              (select_family _SUPPORTED_AF (policy.FilterOptions filter.1)).1
              (policy.FilterName filter.1) (policy.header_comment filter.1)
              (select_family _SUPPORTED_AF (policy.FilterOptions filter.1)).2;
    Ok (self2, Some (policy.FilterName filter.1))) st =
  match policy_error base_init AF_MAP PROTO_MAP _SUPPORTED_AF filters with
  | Some e => Raise e
  | None =>
      Ok ({| total_rule_count :=
               total_rule_count st.1
               + Z.of_nat (length (filter ← filters;
                                   expansion AF_MAP PROTO_MAP filter.2
                                     (filter_family _SUPPORTED_AF filter)));
             acl_sets :=
               acl_sets st.1
               ++ rule_sets_from AF_MAP PROTO_MAP _SUPPORTED_AF
                    (total_rule_count st.1) filters |},
          from_option (λ filter, Some (policy.FilterName filter.1)) st.2
            (last filters))
  end.
Proof.
  revert st. induction filters as [|f filters IH]; intros [[count sets] fn];
    cbn [for_each policy_error rule_sets_from].
  - simpl. by rewrite app_nil_r, Z.add_0_r.
  - rewrite bind_cons, length_app, Nat2Z.inj_add, _TranslateTerms_terms_error.
    fold (filter_family _SUPPORTED_AF f).
    destruct (terms_error base_init AF_MAP PROTO_MAP f.2 _); [done|]. simpl. rewrite IH.
    destruct (policy_error base_init AF_MAP PROTO_MAP _SUPPORTED_AF filters); [done|]. simpl.
    rewrite <- app_assoc, Z.add_assoc.
    do 2 f_equal. rewrite last_cons. by destruct (last filters).
Qed.

Lemma _TranslatePolicy_policy_error (base_init : policy.Term → option Exception)
    (AF_MAP PROTO_MAP : gmap string Z)
    (_SUPPORTED_AF : list string) (self0 : OpenConfig) (pol : policy.Policy) :
  _TranslatePolicy base_init AF_MAP PROTO_MAP _SUPPORTED_AF self0 pol =
  match policy_error base_init AF_MAP PROTO_MAP _SUPPORTED_AF (policy.filters pol) with
  | Some e => Raise e
  | None =>
      match policy.filters pol with
      | [] => Raise (UnboundLocalError "filter_name")
      | _ :: _ =>
          Ok {| total_rule_count :=
                  Z.of_nat (length (policy_rules AF_MAP PROTO_MAP _SUPPORTED_AF pol));
                acl_sets :=
                  rule_sets_from AF_MAP PROTO_MAP _SUPPORTED_AF 0 (policy.filters pol) |}
      end
  end.
Proof.
  unfold _TranslatePolicy, policy_rules. rewrite filter_loop_outcome.
  destruct (policy_error _ _ _ _); [done|]. cbn [mbind result_bind fst snd].
  destruct (policy.filters pol) as [|f filters] eqn:Hfilters; [done|].
  rewrite last_cons. by destruct (last filters).
Qed.

(** X9. Whatever the constructor of the base class accepts and raises:
    the outcome of [_TranslatePolicy] does not depend on the counter and
    the rule sets the object had; a filter whose translation raises makes
    the run raise that exception, the first such filter in the order of the
    policy; a policy with no filter raises UnboundLocalError on
    [filter_name], which the loop never bound; otherwise the counter is the
    number of rules of the policy and there is one rule set for each
    filter, in the order of the filters, the entries of each numbered on
    from the entries of the filters before it. *)
Theorem TranslatePolicy_outcome (base_init : policy.Term → option Exception)
    (AF_MAP PROTO_MAP : gmap string Z)
    (_SUPPORTED_AF : list string) (self0 : OpenConfig) (pol : policy.Policy) :
  _TranslatePolicy base_init AF_MAP PROTO_MAP _SUPPORTED_AF self0 pol =
  match policy_error base_init AF_MAP PROTO_MAP _SUPPORTED_AF (policy.filters pol) with
  | Some e => Raise e
  | None =>
      if bool_decide (policy.filters pol = [])
      then Raise (UnboundLocalError "filter_name")
      else
        Ok {| total_rule_count :=
                Z.of_nat (length (policy_rules AF_MAP PROTO_MAP _SUPPORTED_AF pol));
              acl_sets :=
                rule_sets_from AF_MAP PROTO_MAP _SUPPORTED_AF 0 (policy.filters pol) |}
  end.
Proof.
  rewrite _TranslatePolicy_policy_error.
  destruct (policy_error _ _ _ _); [done|].
  by destruct (policy.filters pol).
Qed.

(** The outcome on the example policy, on policies with a filter that
    raises after a filter that converts - a protocol the constructor of the
    examples refuses, as a name and as a number, and a protocol it accepts
    and the table does not resolve - and on the policy with no filter. *)
Example policy_outcome_examples :
  policy_error example_init example_AF_MAP example_PROTO_MAP example_order
    (policy.filters example_policy) = None
  ∧ _TranslatePolicy example_init example_AF_MAP example_PROTO_MAP example_order
      example_self
      {| policy.filters :=
           [ (header "edge" ["mixed"], [web_term]);
             (header "core" ["inet6"], [any_term []; bogus_term]) ] |}
    = Raise UnsupportedFilterError
  ∧ _TranslatePolicy example_init example_AF_MAP example_PROTO_MAP example_order
      example_self
      {| policy.filters :=
           [ (header "edge" ["mixed"], [web_term]);
             (header "core" ["inet6"],
              [ {| policy.name := "t"; policy.action := ["accept"];
                   policy.flattened_saddr := []; policy.flattened_daddr := [];
                   policy.source_port := []; policy.destination_port := [];
                   policy.protocol := [policy.ProtoNum 99];
                   policy.option := []; policy.comment := [] |} ]) ] |}
    = Raise UnsupportedFilterError
  ∧ _TranslatePolicy example_init example_AF_MAP example_PROTO_MAP example_order
      example_self
      {| policy.filters :=
           [ (header "edge" ["mixed"], [web_term]);
             (header "core" ["inet6"], [any_term []; numeral_term "edge-in"]) ] |}
    = Raise (OcFirewallError "Protocol %s unknown. Use an integer." "6")
  ∧ _TranslatePolicy example_init example_AF_MAP example_PROTO_MAP example_order
      example_self {| policy.filters := [] |}
    = Raise (UnboundLocalError "filter_name").
Proof. vm_compute. done. Qed.

Lemma forallb_Forall_true {A : Type} (f : A → bool) (l : list A) :
  forallb f l = true ↔ Forall (λ x, f x = true) l.
Proof.
  induction l as [|x l IH]; simpl.
  - split; [constructor|done].
  - by rewrite andb_true_iff, Forall_cons, IH.
Qed.

Lemma term_address_families_nonempty (address_family : string) :
  term_address_families address_family ≠ [].
Proof. unfold term_address_families. by case_bool_decide. Qed.

Lemma forallb_andb_const {A : Type} (c : bool) (f : A → bool) (l : list A) :
  l ≠ [] →
  forallb (λ x, c && f x) l = true ↔ c = true ∧ Forall (λ x, f x = true) l.
Proof.
  intros Hl. destruct c; simpl.
  - rewrite forallb_Forall_true. tauto.
  - destruct l as [|x l]; [done|]. simpl. split; [done|]. by intros [? _].
Qed.

Lemma constructible_None (base_init : policy.Term → option Exception)
    (term : policy.Term) :
  constructible base_init term = true ↔ base_init term = None.
Proof. unfold constructible. by destruct (base_init term). Qed.

Lemma filter_ok_Forall (base_init : policy.Term → option Exception)
    (AF_MAP PROTO_MAP : gmap string Z) (_SUPPORTED_AF : list string)
    (filter : policy.Header * list policy.Term) :
  filter_ok base_init AF_MAP PROTO_MAP _SUPPORTED_AF filter = true
  ↔ is_Some (FAMILY_MAP !! filter_family _SUPPORTED_AF filter)
    ∧ Forall (λ term,
        base_init term = None
        ∧ Forall (λ term_af, convertible AF_MAP PROTO_MAP term term_af = true)
            (term_address_families (filter_family _SUPPORTED_AF filter)))
        filter.2.
Proof.
  unfold filter_ok, terms_convertible.
  rewrite andb_true_iff, bool_decide_eq_true, forallb_Forall_true.
  assert (∀ term : policy.Term,
    forallb (λ term_af, constructible base_init term
                        && convertible AF_MAP PROTO_MAP term term_af)
      (term_address_families (filter_family _SUPPORTED_AF filter)) = true
    ↔ base_init term = None
      ∧ Forall (λ term_af, convertible AF_MAP PROTO_MAP term term_af = true)
          (term_address_families (filter_family _SUPPORTED_AF filter))) as Hterm.
  { intros term.
    rewrite forallb_andb_const by apply term_address_families_nonempty.
    by rewrite constructible_None. }
  split.
  - intros [Hterms Hty]. split; [done|].
    eapply Forall_impl; [exact Hterms|]. intros term. apply Hterm.
  - intros [Hty Hterms]. split; [|done].
    eapply Forall_impl; [exact Hterms|]. intros term. apply Hterm.
Qed.

(** X10. Whatever the constructor of the base class accepts:
    [_TranslatePolicy] returns exactly for the policies that have a filter,
    and whose filters each select a family that has a type and hold only
    terms that the constructor accepts and that convert under the families
    of the filter. *)
Theorem TranslatePolicy_returns_iff (base_init : policy.Term → option Exception)
    (AF_MAP PROTO_MAP : gmap string Z)
    (_SUPPORTED_AF : list string) (self0 : OpenConfig) (pol : policy.Policy) :
  (∃ self1,
     _TranslatePolicy base_init AF_MAP PROTO_MAP _SUPPORTED_AF self0 pol = Ok self1)
  ↔ policy.filters pol ≠ []
    ∧ Forall (λ filter,
        is_Some (FAMILY_MAP !! filter_family _SUPPORTED_AF filter)
        ∧ Forall (λ term,
            base_init term = None
            ∧ Forall (λ term_af, convertible AF_MAP PROTO_MAP term term_af = true)
                (term_address_families (filter_family _SUPPORTED_AF filter)))
            filter.2)
        (policy.filters pol).
Proof.
  assert (policy_ok base_init AF_MAP PROTO_MAP _SUPPORTED_AF pol = true
          ↔ policy.filters pol ≠ []
            ∧ Forall (λ filter,
                is_Some (FAMILY_MAP !! filter_family _SUPPORTED_AF filter)
                ∧ Forall (λ term,
                    base_init term = None
                    ∧ Forall (λ term_af,
                                convertible AF_MAP PROTO_MAP term term_af = true)
                        (term_address_families (filter_family _SUPPORTED_AF filter)))
                    filter.2)
                (policy.filters pol)) as Hok.
  { unfold policy_ok.
    rewrite andb_true_iff, bool_decide_eq_true, forallb_Forall_true.
    apply and_iff_compat_l, Forall_iff. intros f. apply filter_ok_Forall. }
  rewrite <- Hok. split.
  - intros [self1 Hrun]. by apply _TranslatePolicy_Ok in Hrun as (_ & _ & ?).
  - apply _TranslatePolicy_returns.
Qed.

(** A policy with a protocol number the constructor of the examples
    refuses does not return, though the conversion alone would. *)
Example refused_protocol_number :
  let term := {| policy.name := "t"; policy.action := ["accept"];
                 policy.flattened_saddr := []; policy.flattened_daddr := [];
                 policy.source_port := []; policy.destination_port := [];
                 policy.protocol := [policy.ProtoNum 99];
                 policy.option := []; policy.comment := [] |} in
  convertible example_AF_MAP example_PROTO_MAP term "inet" = true
  ∧ policy_ok example_init example_AF_MAP example_PROTO_MAP example_order
      {| policy.filters := [ (header "core" [], [term]) ] |} = false.
Proof. vm_compute. done. Qed.

(** * One rule set for each filter *)

Lemma expansion_no_sequence_id (AF_MAP PROTO_MAP : gmap string Z)
    (terms : list policy.Term) (address_family : string) :
  Forall (λ e : Dict, e !! "sequence-id" = None)
    (expansion AF_MAP PROTO_MAP terms address_family).
Proof.
  apply Forall_forall. intros e He. unfold expansion in He.
  apply list_elem_of_bind in He as (term & He & _).
  apply list_elem_of_bind in He as (v & He & _).
  destruct (ConvertToDict AF_MAP PROTO_MAP term v) as [rs|] eqn:Hrs.
  - pose proof (rule_no_sequence_id _ _ _ _ _ Hrs) as Hall.
    rewrite Forall_forall in Hall. by apply Hall.
  - by apply not_elem_of_nil in He.
Qed.

Lemma rule_sets_from_Forall2 (base_init : policy.Term → option Exception)
    (AF_MAP PROTO_MAP : gmap string Z)
    (_SUPPORTED_AF : list string) (count : Z)
    (filters : list (policy.Header * list policy.Term)) :
  forallb (filter_ok base_init AF_MAP PROTO_MAP _SUPPORTED_AF) filters = true →
  Forall2 (λ filter s,
      set_name s = policy.FilterName filter.1
      ∧ config_name s = policy.FilterName filter.1
      ∧ config_type s = set_type s
      ∧ FAMILY_MAP !! filter_family _SUPPORTED_AF filter = Some (set_type s)
      ∧ (delete "sequence-id" : Dict → Dict) <$> acl_entry s
        = expansion AF_MAP PROTO_MAP filter.2 (filter_family _SUPPORTED_AF filter))
    filters (rule_sets_from AF_MAP PROTO_MAP _SUPPORTED_AF count filters).
Proof.
  revert count. induction filters as [|f filters IH]; intros count;
    cbn [forallb rule_sets_from]; [constructor|].
  intros [[_ [ty Hty]%bool_decide_eq_true]%andb_true_iff Hrest]%andb_true_iff.
  constructor; [|by apply IH].
  unfold rule_set. cbn [set_name config_name config_type set_type acl_entry].
  rewrite Hty. split_and!; [done..|].
  apply delete_number_from, expansion_no_sequence_id.
Qed.

(** X11. A run appends one rule set for each filter, in the order of the
    filters: its name, also under config, is the name of the filter; its
    type, also under config, is the type of the family the filter selects,
    ACL_IPV4, ACL_IPV6 or ACL_MIXED; its entries are, the sequence-id
    apart, the rules of the terms of that filter under that family. *)
Theorem rule_set_of_each_filter (base_init : policy.Term → option Exception)
    (AF_MAP PROTO_MAP : gmap string Z)
    (_SUPPORTED_AF : list string) (self0 : OpenConfig) (pol : policy.Policy) :
  policy_ok base_init AF_MAP PROTO_MAP _SUPPORTED_AF pol = true →
  ∃ self1, _TranslatePolicy base_init AF_MAP PROTO_MAP _SUPPORTED_AF self0 pol = Ok self1
    ∧ Forall2 (λ filter s,
        set_name s = policy.FilterName filter.1
        ∧ config_name s = policy.FilterName filter.1
        ∧ config_type s = set_type s
        ∧ FAMILY_MAP !! filter_family _SUPPORTED_AF filter = Some (set_type s)
        ∧ (delete "sequence-id" : Dict → Dict) <$> acl_entry s
          = expansion AF_MAP PROTO_MAP filter.2 (filter_family _SUPPORTED_AF filter))
      (policy.filters pol) (acl_sets self1)
    ∧ Forall (λ s, set_type s ∈ ["ACL_MIXED"; "ACL_IPV6"; "ACL_IPV4"])
        (acl_sets self1).
Proof.
  intros Hok.
  destruct (_TranslatePolicy_returns _ _ _ _ self0 _ Hok) as [self1 Hrun].
  exists self1. split; [done|].
  rewrite _TranslatePolicy_policy_error in Hrun.
  destruct (policy_error _ _ _ _); [done|].
  destruct (policy.filters pol) as [|f filters] eqn:Hfilters; [done|].
  injection Hrun as <-. cbn [acl_sets].
  unfold policy_ok in Hok. rewrite Hfilters in Hok.
  apply andb_true_iff in Hok as [_ Hok].
  pose proof (rule_sets_from_Forall2 _ _ _ _ 0 _ Hok) as Hsets.
  split; [done|].
  eapply Forall2_Forall_r; [exact Hsets|].
  apply Forall_forall. intros filter _ s (_ & _ & _ & Hty & _).
  unfold FAMILY_MAP in Hty. simpl in Hty.
  apply lookup_insert_Some in Hty as [[_ <-]|[_ Hty]]; [by left|].
  apply lookup_insert_Some in Hty as [[_ <-]|[_ Hty]]; [right; by left|].
  apply lookup_insert_Some in Hty as [[_ <-]|[_ Hty]];
    [right; right; by left|].
  by rewrite lookup_empty in Hty.
Qed.

Lemma rule_set_of_each_filter_witness :
  ∃ self1, _TranslatePolicy example_init example_AF_MAP example_PROTO_MAP example_order
             example_self example_policy = Ok self1
    ∧ Forall2 (λ filter s,
        set_name s = policy.FilterName filter.1
        ∧ config_name s = policy.FilterName filter.1
        ∧ config_type s = set_type s
        ∧ FAMILY_MAP !! filter_family example_order filter = Some (set_type s)
        ∧ (delete "sequence-id" : Dict → Dict) <$> acl_entry s
          = expansion example_AF_MAP example_PROTO_MAP filter.2
              (filter_family example_order filter))
      (policy.filters example_policy) (acl_sets self1)
    ∧ Forall (λ s, set_type s ∈ ["ACL_MIXED"; "ACL_IPV6"; "ACL_IPV4"])
        (acl_sets self1).
Proof.
  exact (rule_set_of_each_filter example_init example_AF_MAP example_PROTO_MAP example_order
           example_self example_policy eq_refl).
Defined.

(** * The blocks of a filter of one family *)

Lemma rule_other_family (AF_MAP PROTO_MAP : gmap string Z) (term : policy.Term)
    (inet_version : string) (rs : list Dict) (e : Dict) (k : string) :
  ConvertToDict AF_MAP PROTO_MAP term inet_version = Ok rs → e ∈ rs →
  k ∈ ["ipv4"; "ipv6"] → k ≠ family_name AF_MAP inet_version →
  e !! k = None.
Proof.
  intros Hrs He Hk Hne. destruct (e !! k) as [v|] eqn:Hv; [|done].
  assert (is_Some (e !! k)) as Hsome by (by eexists).
  apply (rule_keys _ _ _ _ _ Hrs e k He) in Hsome.
  apply elem_of_cons in Hsome as [->|Hsome].
  { exfalso. revert Hk. by apply (proj1 (bool_decide_eq_false _)). }
  apply elem_of_cons in Hsome as [->|Hsome]; [done|].
  apply list_elem_of_singleton in Hsome as ->.
  exfalso. revert Hk. by apply (proj1 (bool_decide_eq_false _)).
Qed.

Lemma expansion_other_family (AF_MAP PROTO_MAP : gmap string Z)
    (terms : list policy.Term) (address_family k : string) (count : Z) :
  address_family ≠ "mixed" →
  k ∈ ["ipv4"; "ipv6"] → k ≠ family_name AF_MAP address_family →
  Forall (λ e : Dict, e !! k = None)
    (number_from count (expansion AF_MAP PROTO_MAP terms address_family)).
Proof.
  intros Hmixed Hk Hne. apply Forall_lookup.
  intros i e (r & Hr & ->)%number_from_lookup.
  rewrite lookup_insert_ne.
  2:{ intros <-. revert Hk. by apply (proj1 (bool_decide_eq_false _)). }
  apply list_elem_of_lookup_2 in Hr. unfold expansion in Hr.
  apply list_elem_of_bind in Hr as (term & Hr & _).
  apply list_elem_of_bind in Hr as (v & Hr & Hv).
  unfold term_address_families in Hv. rewrite bool_decide_false in Hv by done.
  apply list_elem_of_singleton in Hv as ->.
  destruct (ConvertToDict AF_MAP PROTO_MAP term address_family) as [rs|] eqn:Hrs.
  - by eapply rule_other_family.
  - by apply not_elem_of_nil in Hr.
Qed.

(** X12. With inet numbered 4 and inet6 numbered 6 in the family table, a
    filter of family inet gives a rule set of type ACL_IPV4 none of whose
    entries has an ipv6 block, and a filter of family inet6 a rule set of
    type ACL_IPV6 none of whose entries has an ipv4 block: the entries of a
    rule set of one family agree with its type. *)
Theorem single_family_rule_set (base_init : policy.Term → option Exception)
    (AF_MAP PROTO_MAP : gmap string Z)
    (self0 : OpenConfig) (terms : list policy.Term)
    (address_family filter_name : string) (hdr_comments filter_options : list string) :
  AF_MAP !! "inet" = Some 4 → AF_MAP !! "inet6" = Some 6 →
  address_family ∈ ["inet"; "inet6"] →
  terms_convertible base_init AF_MAP PROTO_MAP terms address_family = true →
  ∃ self1 s,
    _TranslateTerms base_init AF_MAP PROTO_MAP self0 terms address_family filter_name
      hdr_comments filter_options = Ok self1
    ∧ acl_sets self1 = acl_sets self0 ++ [s]
    ∧ (address_family = "inet" →
       set_type s = "ACL_IPV4"
       ∧ Forall (λ e : Dict, e !! "ipv6" = None) (acl_entry s))
    ∧ (address_family = "inet6" →
       set_type s = "ACL_IPV6"
       ∧ Forall (λ e : Dict, e !! "ipv4" = None) (acl_entry s)).
Proof.
  intros H4 H6 Haf Hconv.
  assert (is_Some (FAMILY_MAP !! address_family)) as Hty.
  { apply elem_of_cons in Haf as [->|Haf]; [by eexists|].
    apply list_elem_of_singleton in Haf as ->. by eexists. }
  destruct (_TranslateTerms_returns base_init AF_MAP PROTO_MAP self0 terms address_family
              filter_name hdr_comments filter_options Hconv Hty) as [self1 Hrun].
  exists self1.
  pose proof Hrun as Hset.
  apply _TranslateTerms_Ok in Hset as (oc_type & Hoc & _ & ->).
  eexists. split; [exact Hrun|]. split; [reflexivity|].
  cbn [set_type acl_entry]. split.
  - intros ->. split; [by injection Hoc|].
    apply expansion_other_family; [done|by apply (proj1 (bool_decide_eq_true _))|].
    unfold family_name. by rewrite H4.
  - intros ->. split; [by injection Hoc|].
    apply expansion_other_family; [done|by apply (proj1 (bool_decide_eq_true _))|].
    unfold family_name. by rewrite H6.
Qed.

Lemma single_family_rule_set_witness :
  ∃ self1 s,
    _TranslateTerms example_init example_AF_MAP example_PROTO_MAP example_self
      [web_term; v6_only_term] "inet6" "edge6" [] [] = Ok self1
    ∧ acl_sets self1 = acl_sets example_self ++ [s]
    ∧ ("inet6" = "inet" →
       set_type s = "ACL_IPV4"
       ∧ Forall (λ e : Dict, e !! "ipv6" = None) (acl_entry s))
    ∧ ("inet6" = "inet6" →
       set_type s = "ACL_IPV6"
       ∧ Forall (λ e : Dict, e !! "ipv4" = None) (acl_entry s)).
Proof.
  apply (single_family_rule_set example_init example_AF_MAP example_PROTO_MAP example_self
           [web_term; v6_only_term] "inet6" "edge6" [] []).
  - reflexivity.
  - reflexivity.
  - by apply (proj1 (bool_decide_eq_true _)).
  - reflexivity.
Defined.

(** * The family of a filter *)

Lemma list_remove_first_notin (x : string) (l : list string) :
  x ∉ l → list_remove_first x l = l.
Proof.
  induction l as [|y l IH]; [done|]. intros Hx. simpl.
  apply not_elem_of_cons in Hx as [Hne Hx].
  rewrite bool_decide_false by done. by rewrite IH.
Qed.

Lemma list_remove_first_perm (x : string) (l : list string) :
  x ∈ l → l ≡ₚ x :: list_remove_first x l.
Proof.
  induction l as [|y l IH]; [by intros ?%not_elem_of_nil|]. simpl.
  destruct (decide (x = y)) as [->|Hne].
  - by rewrite bool_decide_true.
  - rewrite bool_decide_false by done.
    intros [?|Hx]%elem_of_cons; [done|].
    rewrite (IH Hx) at 1. apply Permutation_swap.
Qed.

Lemma list_remove_first_sublist (x : string) (l : list string) :
  list_remove_first x l `sublist_of` l.
Proof.
  induction l as [|y l IH]; [done|]. simpl. case_bool_decide.
  - by apply sublist_cons.
  - by apply sublist_skip.
Qed.

Lemma elem_of_list_remove_first_ne (x y : string) (l : list string) :
  x ≠ y → y ∈ list_remove_first x l ↔ y ∈ l.
Proof.
  intros Hne. induction l as [|z l IH]; [done|]. simpl. case_bool_decide.
  - subst z. rewrite elem_of_cons. split; [by right|].
    intros [Heq|Hy]; [by destruct Hne|done].
  - by rewrite !elem_of_cons, IH.
Qed.

Lemma filter_ext_elem_of (P Q : string → Prop) `{!∀ x, Decision (P x)}
    `{!∀ x, Decision (Q x)} (l : list string) :
  (∀ x, x ∈ l → P x ↔ Q x) → filter P l = filter Q l.
Proof.
  induction l as [|x l IH]; [done|]. intros Hext.
  rewrite !filter_cons.
  rewrite IH by (intros y Hy; apply Hext; by right).
  destruct (decide (P x)) as [HP|HP], (decide (Q x)) as [HQ|HQ]; try done.
  - destruct HQ. apply (Hext x); [by left|done].
  - destruct HP. apply (Hext x); [by left|done].
Qed.

(** The loop over the supported families, from any family and options. *)
Lemma select_family_foldl (order : list string) (family : string)
    (options : list string) :
  NoDup order →
  let selected :=
    foldl (λ (acc : string * list string) i,
             if bool_decide (i ∈ acc.2) then (i, list_remove_first i acc.2) else acc)
          (family, options) order in
  selected.1 = default family (last (filter (λ i, i ∈ options) order))
  ∧ options ≡ₚ filter (λ i, i ∈ options) order ++ selected.2
  ∧ selected.2 `sublist_of` options.
Proof.
  revert family options. induction order as [|i order IH];
    intros family options Hnodup; cbn [foldl].
  - done.
  - apply NoDup_cons in Hnodup as [Hi Hnodup]. cbn [fst snd].
    destruct (decide (i ∈ options)) as [Hin|Hin].
    + rewrite bool_decide_true by done.
      destruct (IH i (list_remove_first i options) Hnodup) as (Hfam & Hperm & Hsub).
      assert (filter (λ j, j ∈ list_remove_first i options) order
              = filter (λ j, j ∈ options) order) as Hfilter.
      { apply filter_ext_elem_of. intros x Hx.
        apply elem_of_list_remove_first_ne. by intros ->. }
      rewrite Hfilter in Hfam, Hperm.
      rewrite filter_cons_True by done. split_and!.
      * rewrite Hfam, last_cons. by destruct (last _).
      * rewrite (list_remove_first_perm i options Hin) at 1.
        rewrite <- app_comm_cons. by apply Permutation_skip.
      * etrans; [exact Hsub|]. apply list_remove_first_sublist.
    + rewrite bool_decide_false by done.
      rewrite filter_cons_False by done. by apply IH.
Qed.

(** X13. The address family of a filter, the supported families being
    visited each once in some order: it is the last family, in the order of
    the visit, that the options of the header name, and inet when they name
    none - so for a header that names two families it depends on the order
    in which the frozenset is visited.  The options handed on are the
    options of the header in their order, less one occurrence of each
    family they name. *)
Theorem select_family_last (_SUPPORTED_AF filter_options : list string) :
  NoDup _SUPPORTED_AF →
  (select_family _SUPPORTED_AF filter_options).1
  = default "inet" (last (filter (λ i, i ∈ filter_options) _SUPPORTED_AF))
  ∧ filter_options
    ≡ₚ filter (λ i, i ∈ filter_options) _SUPPORTED_AF
       ++ (select_family _SUPPORTED_AF filter_options).2
  ∧ (select_family _SUPPORTED_AF filter_options).2 `sublist_of` filter_options.
Proof. intros Hnodup. by apply select_family_foldl. Qed.

Lemma select_family_last_witness :
  (select_family ["mixed"; "inet6"; "inet"] ["inet"; "noverbose"; "inet6"; "inet6"]).1
  = default "inet"
      (last (filter (λ i, i ∈ ["inet"; "noverbose"; "inet6"; "inet6"])
               ["mixed"; "inet6"; "inet"]))
  ∧ ["inet"; "noverbose"; "inet6"; "inet6"]
    ≡ₚ filter (λ i, i ∈ ["inet"; "noverbose"; "inet6"; "inet6"])
         ["mixed"; "inet6"; "inet"]
       ++ (select_family ["mixed"; "inet6"; "inet"]
             ["inet"; "noverbose"; "inet6"; "inet6"]).2
  ∧ (select_family ["mixed"; "inet6"; "inet"]
       ["inet"; "noverbose"; "inet6"; "inet6"]).2
    `sublist_of` ["inet"; "noverbose"; "inet6"; "inet6"].
Proof.
  apply (select_family_last ["mixed"; "inet6"; "inet"]
           ["inet"; "noverbose"; "inet6"; "inet6"]).
  by apply (proj1 (bool_decide_eq_true _)).
Defined.

(** The family of a header that names inet and inet6, under two orders of
    the visit, and the options handed on. *)
Example select_family_order :
  select_family ["mixed"; "inet6"; "inet"] ["inet"; "noverbose"; "inet6"; "inet6"]
  = ("inet", ["noverbose"; "inet6"])
  ∧ select_family ["inet"; "inet6"; "mixed"] ["inet"; "noverbose"; "inet6"; "inet6"]
    = ("inet6", ["noverbose"; "inet6"]).
Proof. vm_compute. done. Qed.

(** * The supported tokens *)

(** X14. [_BuildTokens] removes the four tokens platform,
    platform_exclude, icmp-type and verbatim from the tokens of the base
    class and keeps the others; it sets the sub-tokens of action to the
    keys of ACTION_MAP, so that an action the generator admits always has a
    forwarding action, and those of option to tcp-established alone, the
    one option [SetOptions] reads; the sub-tokens of the other tokens are
    those of the base class. *)
Theorem BuildTokens_supported (super : gset string * gmap string (gset string)) :
  (∀ token, token ∈ (_BuildTokens super).1
            ↔ token ∈ super.1
              ∧ token ∉ ["platform"; "platform_exclude"; "icmp-type"; "verbatim"])
  ∧ (_BuildTokens super).2 !! "action" = Some (dom ACTION_MAP)
  ∧ (_BuildTokens super).2 !! "option" = Some {[ "tcp-established" ]}
  ∧ (∀ token, token ≠ "action" → token ≠ "option" →
              (_BuildTokens super).2 !! token = super.2 !! token).
Proof.
  unfold _BuildTokens. cbn [fst snd]. split_and!.
  - intros token. rewrite elem_of_difference, !not_elem_of_cons.
    rewrite !not_elem_of_union, !not_elem_of_singleton.
    pose proof (not_elem_of_nil token). tauto.
  - rewrite lookup_union_r by done. by rewrite lookup_insert_eq.
  - by rewrite lookup_union_l'.
  - intros token H1 H2. rewrite lookup_union_r by (by apply lookup_singleton_ne).
    by rewrite lookup_insert_ne.
Qed.

(** * The port fields *)

Lemma is_substring_dot_cons (c : Ascii.ascii) (s : string) :
  is_substring "." (String c s) = false
  ↔ String c "" ≠ "." ∧ is_substring "." s = false.
Proof.
  cbn [is_substring is_prefix]. rewrite orb_false_iff, andb_false_iff.
  rewrite bool_decide_eq_false. split.
  - intros [[Hc|Hp] Hs]; [|by destruct s].
    split; [|done]. intros [= ->]. by apply Hc.
  - intros [Hc Hs]. split; [|done]. left. intros <-. by apply Hc.
Qed.

Lemma pretty_N_go_dotless (x : N) (s : string) :
  is_substring "." s = false → is_substring "." (pretty_N_go x s) = false.
Proof.
  revert s. induction (N.lt_wf_0 x) as [x _ IH]; intros s Hs.
  assert (x = 0 ∨ 0 < x)%N as [->|Hx] by lia.
  - by rewrite pretty_N_go_0.
  - rewrite pretty_N_go_step by done. apply IH; [by apply N.div_lt|].
    apply is_substring_dot_cons. split; [|done].
    unfold pretty_N_char. by repeat case_match.
Qed.

Lemma format_d_dotless (n : Z) : is_substring "." (format_d n) = false.
Proof.
  assert (∀ p : positive, is_substring "." (pretty p) = false) as Hpos.
  { intros p. unfold pretty, pretty_positive, pretty, pretty_N.
    case_decide; [done|]. by apply pretty_N_go_dotless. }
  unfold format_d, pretty, pretty_Z. destruct n as [|p|p]; [done|apply Hpos|].
  apply is_substring_dot_cons. split; [done|apply Hpos].
Qed.

Lemma dotted_inj (s1 s2 t1 t2 : string) :
  is_substring "." s1 = false → is_substring "." s2 = false →
  s1 +:+ ".." +:+ t1 = s2 +:+ ".." +:+ t2 → s1 = s2 ∧ t1 = t2.
Proof.
  revert s2. induction s1 as [|a s1 IH]; intros [|b s2] H1 H2 Heq.
  - by simplify_eq/=.
  - apply is_substring_dot_cons in H2 as [H2 _]. by simplify_eq/=.
  - apply is_substring_dot_cons in H1 as [H1 _]. by simplify_eq/=.
  - apply is_substring_dot_cons in H1 as [_ H1].
    apply is_substring_dot_cons in H2 as [_ H2].
    simpl in Heq. injection Heq as -> Heq.
    by destruct (IH s2 H1 H2 Heq) as [-> ->].
Qed.

Lemma port_value_inj (start end_ start' end' : Z) :
  port_value start end_ = port_value start' end' →
  start = start' ∧ end_ = end'.
Proof.
  unfold port_value. do 2 case_bool_decide; intros [= Heq]; subst; [done|].
  apply dotted_inj in Heq as [Hs He]; [|apply format_d_dotless..].
  by apply (inj pretty) in Hs, He.
Qed.

(** X15. An entry of an iteration whose source-port range is not (0, 0)
    has that range as its source-port, and likewise for the destination
    port: the integer when the range is one port, else the text
    'start..end'.  The value determines the range - two different ranges
    never give the same port field. *)
Theorem port_fields_of_entries (AF_MAP PROTO_MAP : gmap string Z)
    (term : policy.Term) (inet_version : string) :
  convertible AF_MAP PROTO_MAP term inet_version = true →
  ∃ rs, ConvertToDict AF_MAP PROTO_MAP term inet_version = Ok rs
    ∧ Forall2 (λ it e,
        (is_any_port (it_sport it) = false →
         lookup3 "transport" "config" "source-port" e
         = Some (port_value (it_sport it).1 (it_sport it).2))
        ∧ (is_any_port (it_dport it) = false →
           lookup3 "transport" "config" "destination-port" e
           = Some (port_value (it_dport it).1 (it_dport it).2)))
      (iterations_of term (af_of AF_MAP inet_version)) rs
    ∧ (∀ range range' : Z * Z,
         port_value range.1 range.2 = port_value range'.1 range'.2 →
         range = range').
Proof.
  intros [rs Hrs]%ConvertToDict_returns. exists rs. split_and!; [done| |].
  - by apply (concrete_port_fields AF_MAP PROTO_MAP).
  - intros [s e] [s' e'] Heq. simpl in Heq.
    by apply port_value_inj in Heq as [-> ->].
Qed.

Lemma port_fields_of_entries_witness :
  ∃ rs, ConvertToDict example_AF_MAP example_PROTO_MAP web_term "inet6" = Ok rs
    ∧ Forall2 (λ it e,
        (is_any_port (it_sport it) = false →
         lookup3 "transport" "config" "source-port" e
         = Some (port_value (it_sport it).1 (it_sport it).2))
        ∧ (is_any_port (it_dport it) = false →
           lookup3 "transport" "config" "destination-port" e
           = Some (port_value (it_dport it).1 (it_dport it).2)))
      (iterations_of web_term (af_of example_AF_MAP "inet6")) rs
    ∧ (∀ range range' : Z * Z,
         port_value range.1 range.2 = port_value range'.1 range'.2 →
         range = range').
Proof.
  exact (port_fields_of_entries example_AF_MAP example_PROTO_MAP web_term
           "inet6" eq_refl).
Defined.
